(** * Particle-filter tracker (tracking_object.ipynb): model and properties

    The notebook tracks a coloured target with a sequential importance
    resampling particle filter.  [initialize_particles] and every stage of
    the per-frame cycle ([apply_velocity], [enforce_edges], [compute_errors],
    [compute_weights], [resample], [apply_noise]) are embedded below as
    functions over lists of particles, followed by [get_frames], [display]
    and the main routine that runs the cycle over the frames of a video.

    - NumPy [float64] values are IEEE-754 binary64 numbers, taken from the
      standard library's [SpecFloat] (precision 53, [emax] 1024), so that
      NaN, signed zeros, infinities and rounding are those of the program.
    - Python [int] values are [Z].
    - Exceptions are the [Raise] results of a small error monad.
    - The pseudo-random generator is an oracle: the values it hands out are
      an argument of the function that draws them, and theorems quantify
      over every outcome the generator's contract allows.  The frames a
      video delivers and the keys [cv2.waitKey] reports are supplied the
      same way; what [display] draws is part of its result. *)

From Stdlib Require Import ZArith List Bool Lia.
From Stdlib Require Import Floats.SpecFloat.
From stdpp Require Import base option list.

Local Open Scope Z_scope.

(** ** Exceptions *)

Inductive exn := ValueError | IndexError | OverflowError.

Inductive result (A : Type) : Type :=
  | Ok (a : A)
  | Raise (e : exn).
Arguments Ok {A} a.
Arguments Raise {A} e.

#[global] Instance result_ret : MRet result := fun A a => Ok a.
#[global] Instance result_bind : MBind result := fun A B f m =>
  match m with
  | Ok a => f a
  | Raise e => Raise e
  end.

Definition returns {A} (m : result A) : Prop := exists a, m = Ok a.

(** ** binary64 *)

Module Float64.

Definition prec : Z := 53.
Definition emax : Z := 1024.

Definition float := spec_float.

(** The values a [float64] cell can hold. *)
Definition is_float64 (x : float) : Prop := valid_binary prec emax x = true.

Definition add : float -> float -> float := SFadd prec emax.
Definition sub : float -> float -> float := SFsub prec emax.
Definition mul : float -> float -> float := SFmul prec emax.
Definition div : float -> float -> float := SFdiv prec emax.
Definition abs : float -> float := SFabs.

Definition ltb : float -> float -> bool := SFltb.
Definition leb : float -> float -> bool := SFleb.
Definition eqb : float -> float -> bool := SFeqb.

Definition is_nan (x : float) : bool :=
  match x with S754_nan => true | _ => false end.

Definition is_finite (x : float) : bool :=
  match x with S754_zero _ | S754_finite _ _ _ => true | _ => false end.

Definition is_zero (x : float) : bool :=
  match x with S754_zero _ => true | _ => false end.

(** [float(n)] for a Python int, rounded to nearest even. *)
Definition of_int (n : Z) : float := binary_normalize prec emax n 0 false.

Definition zero : float := S754_zero false.
Definition neg_zero : float := S754_zero true.
Definition one : float := Eval vm_compute in of_int 1.
Definition nan : float := S754_nan.

(** [int(x)]: truncation towards zero; NaN and the infinities raise. *)
Definition to_int (x : float) : result Z :=
  match x with
  | S754_nan => Raise ValueError
  | S754_infinity _ => Raise OverflowError
  | S754_zero _ => Ok 0
  | S754_finite s m e =>
      Ok (cond_Zopp s (match e with
                       | Z0 => Zpos m
                       | Zpos k => Zpos m * 2 ^ Zpos k
                       | Zneg k => Zpos m / 2 ^ Zpos k
                       end))
  end.

(** [x ** 4] on a float64 array is C's [pow(x, 4.0)].  Signs and special
    values are the ones C (Annex F) fixes for an even integer exponent.
    For a finite [x] the model takes the correctly rounded fourth power;
    the library function is within one unit in the last place of it and
    not always equal to it (for [9805.0] it returns the next value up), so
    the last bit of a weight may differ from the program's.  No result
    below depends on that bit: what is used of a weight is its sign and
    whether it is zero. *)
Definition pow4 (x : float) : float :=
  match x with
  | S754_nan => S754_nan
  | S754_infinity _ => S754_infinity false
  | S754_zero _ => S754_zero false
  | S754_finite _ m e => binary_round prec emax false (m * m * m * m)%positive (4 * e)
  end.

End Float64.

Import Float64.

Declare Scope float_scope.
Delimit Scope float_scope with flt.
Infix "+" := Float64.add : float_scope.
Infix "-" := Float64.sub : float_scope.
Infix "*" := Float64.mul : float_scope.
Infix "/" := Float64.div : float_scope.
Infix "<?" := Float64.ltb : float_scope.
Infix "<=?" := Float64.leb : float_scope.
Infix "=?" := Float64.eqb : float_scope.

(** ** Python numbers and the built-ins [min] and [max]

    [enforce_edges] mixes Python ints ([0], [WIDTH-1]) with float64 scalars.
    A comparison with a float64 operand converts the int operand. *)

Inductive pynum :=
  | PyInt (n : Z)
  | PyFloat (x : float).

Definition to_float (a : pynum) : float :=
  match a with
  | PyInt n => of_int n
  | PyFloat x => x
  end.

Definition py_lt (a b : pynum) : bool :=
  match a, b with
  | PyInt m, PyInt n => (m <? n)%Z
  | _, _ => (to_float a <? to_float b)%flt
  end.

(** [min(a, b)]: [b] only when [b < a]; [max(a, b)]: [b] only when [b > a]. *)
Definition py_min (a b : pynum) : pynum := if py_lt b a then b else a.
Definition py_max (a b : pynum) : pynum := if py_lt a b then b else a.

(** ** NumPy

    Arrays are lists; a two-dimensional array is the list of its rows. *)

Module np.

(** A Python int that fits the index type [npy_intp]. *)
Definition intp (i : Z) : bool := (- 2 ^ 63 <=? i) && (i <? 2 ^ 63).

(** [a[i]] for an index that fits [npy_intp]: negative indices count from
    the end. *)
Definition getitem {A} (a : list A) (i : Z) : result A :=
  let n := Z.of_nat (length a) in
  let j := if (i <? 0)%Z then i + n else i in
  if (j <? 0)%Z then Raise IndexError
  else match a !! Z.to_nat j with
       | Some v => Ok v
       | None => Raise IndexError
       end.

(** [a[idx, :]] for an array of indices produced by the generator. *)
Fixpoint take {A} (a : list A) (idx : list nat) : result (list A) :=
  match idx with
  | [] => Ok []
  | i :: idx =>
      v ← getitem a (Z.of_nat i);
      vs ← take a idx;
      Ok (v :: vs)
  end.

Definition zeros (n : nat) : list float := replicate n zero.

(** [np.sum] on a one-dimensional [float64] array is [np.add.reduce]: the
    result starts from the identity and the inner loop adds the pairwise
    sum of the whole array to it.

    The pairwise sum, on [n] values: fewer than 8 are added one by one;
    up to 128 are added into 8 accumulators, 8 values at a time, the
    accumulators are combined as [((r0+r1)+(r2+r3))+((r4+r5)+(r6+r7))] and
    the values left over are added one by one; more than 128 are split at
    [n/2] rounded down to a multiple of 8, and the two sums are added. *)
Fixpoint sum_blocks (r0 r1 r2 r3 r4 r5 r6 r7 : float) (a : list float)
    : float :=
  match a with
  | x0 :: x1 :: x2 :: x3 :: x4 :: x5 :: x6 :: x7 :: a =>
      sum_blocks (r0 + x0) (r1 + x1) (r2 + x2) (r3 + x3)
                 (r4 + x4) (r5 + x5) (r6 + x6) (r7 + x7) a
  | _ =>
      foldl Float64.add (((r0 + r1) + (r2 + r3)) + ((r4 + r5) + (r6 + r7))) a
  end%flt.

(** The recursion halves the array, so [fuel] at least its length is never
    used up ([pairwise_sum_fuel]). *)
Fixpoint pairwise_sum (fuel : nat) (a : list float) : float :=
  match a with
  | x0 :: x1 :: x2 :: x3 :: x4 :: x5 :: x6 :: x7 :: a' =>
      if (length a <=? 128)%nat then sum_blocks x0 x1 x2 x3 x4 x5 x6 x7 a'
      else match fuel with
           | O => nan
           | S fuel =>
               let n2 := (length a / 2 - (length a / 2) mod 8)%nat in
               (pairwise_sum fuel (firstn n2 a) +
                pairwise_sum fuel (skipn n2 a))%flt
           end
  | _ => foldl Float64.add neg_zero a
  end.

(** The sum of an empty array is [0.0].  The identity a sum of values
    starts from and the accumulator of a short sum are [-0.0], as in
    current NumPy; older releases use [0.0].  The two differ only in the
    sign of a sum whose terms are all [-0.0]. *)
Definition sum (a : list float) : float :=
  match a with
  | [] => zero
  | _ => (neg_zero + pairwise_sum (length a) a)%flt
  end.

(** [np.mean]: the sum divided by the number of elements ([0/0] on an
    empty array). *)
Definition mean (a : list float) : float :=
  (sum a / of_int (Z.of_nat (length a)))%flt.

(** [np.maximum] propagates NaN; [np.max] of an empty array raises. *)
Definition maximum (a b : float) : float :=
  if (b <=? a)%flt || is_nan a then a else b.

Definition max (a : list float) : result float :=
  match a with
  | [] => Raise ValueError
  | x :: a => Ok (foldl maximum x a)
  end.

(** *** [np.random.choice(a, size, p)]

    The checks are those of the legacy generator: [p] has [a] entries,
    its compensated sum is not NaN, no entry is negative, and the sum is
    within [sqrt(eps) = 2^-26] of one. *)
Definition kahan_sum (p : list float) : float :=
  match p with
  | [] => zero
  | x :: p =>
      fst (foldl (fun '(s, c) d =>
                    let y := (d - c)%flt in
                    let t := (s + y)%flt in
                    (t, ((t - s) - y)%flt))
                 (x, zero) p)
  end.

Definition atol : float := S754_finite false (2 ^ 52) (-78).

Definition check_p (a : nat) (p : list float) : result unit :=
  if negb (length p =? a)%nat then Raise ValueError
  else
    let p_sum := kahan_sum p in
    if is_nan p_sum then Raise ValueError
    else if existsb (fun x => (x <? zero)%flt) p then Raise ValueError
    else if (atol <? Float64.abs (p_sum - one))%flt then Raise ValueError
    else Ok tt.

(** What the generator may hand back: [size] indices below [a]. *)
Definition drawn_from (a size : nat) (idx : list nat) : Prop :=
  length idx = size /\ Forall (fun i => (i < a)%nat) idx.

Definition random_choice (a size : nat) (p : list float)
    (drawn : list nat) : result (list nat) :=
  _ ← check_p a p;
  Ok drawn.

End np.

(** ** The tracker *)

(** A row of the [(NUM_PARTICLES, 4)] array: columns 0 to 3. *)
Record particle := Particle {
  p_x : float;
  p_y : float;
  p_vx : float;
  p_vy : float
}.

Definition set_x (p : particle) (v : float) : particle :=
  Particle v (p_y p) (p_vx p) (p_vy p).
Definition set_y (p : particle) (v : float) : particle :=
  Particle (p_x p) v (p_vx p) (p_vy p).

(** A pixel: three [uint8] channels; a frame: [HEIGHT] rows of [WIDTH] pixels. *)
Definition pixel : Type := Z * Z * Z.
Definition frame : Type := list (list pixel).

Definition HEIGHT : Z := 406.
Definition WIDTH : Z := 722.
(** [VEL_RANGE = 0.5], that is [2^52 * 2^-53]. *)
Definition VEL_RANGE : float := S754_finite false (2 ^ 52) (-53).
Definition TARGET_COLOUR : pixel := (189, 105, 82).

Definition frame_shape (f : frame) : Prop :=
  Z.of_nat (length f) = HEIGHT /\
  Forall (fun row => Z.of_nat (length row) = WIDTH) f.

(** Every channel of every pixel is a [uint8]. *)
Definition uint8 (c : Z) : Prop := 0 <= c <= 255.

Definition frame_uint8 (f : frame) : Prop :=
  Forall (Forall (fun c : pixel => uint8 c.1.1 /\ uint8 c.1.2 /\ uint8 c.2)) f.

(** The notebook sets [NUM_PARTICLES = 5000] and notes [50] as another
    setting; the stages below take the count as a section variable. *)
Definition notebook_NUM_PARTICLES : nat := 5000.

(** [for i in range(n): s = body i s] *)
Fixpoint for_range_from {S} (body : nat -> S -> result S) (i n : nat) (s : S)
    : result S :=
  match n with
  | O => Ok s
  | Datatypes.S n => s' ← body i s; for_range_from body (Datatypes.S i) n s'
  end.

Definition for_range {S} (n : nat) (body : nat -> S -> result S) (s : S)
    : result S :=
  for_range_from body 0 n s.

(** [a[i] = v] for [i] taken from a [range]. *)
Definition setitem {A} (a : list A) (i : nat) (v : A) : result (list A) :=
  if (i <? length a)%nat then Ok (<[i := v]> a) else Raise IndexError.

Section Tracker.

Variable NUM_PARTICLES : nat.

(** *** initialize_particles

    [rand] is the array [np.random.rand] returns. *)
Definition unit_interval (u : float) : Prop :=
  is_float64 u /\ (zero <=? u)%flt = true /\ (u <? one)%flt = true.

Definition rand_ok (rand : list particle) : Prop :=
  length rand = NUM_PARTICLES /\
  Forall (fun r => unit_interval (p_x r) /\ unit_interval (p_y r) /\
                   unit_interval (p_vx r) /\ unit_interval (p_vy r)) rand.

(** [VEL_RANGE/2.0]; the literal [2.0] is [2^52 * 2^-51]. *)
Definition half_range : float := (VEL_RANGE / S754_finite false (2 ^ 52) (-51))%flt.

Definition initialize_particles (rand : list particle) : list particle :=
  let particles :=
    map (fun r => Particle (p_x r * of_int WIDTH) (p_y r * of_int HEIGHT)
                           (p_vx r * VEL_RANGE) (p_vy r * VEL_RANGE))%flt rand in
  map (fun p => Particle (p_x p) (p_y p)
                         (p_vx p - half_range) (p_vy p - half_range))%flt particles.

(** *** apply_velocity *)
Definition apply_velocity (particles : list particle) : list particle :=
  let particles := map (fun p => set_x p (p_x p + p_vx p)%flt) particles in
  map (fun p => set_y p (p_y p + p_vy p)%flt) particles.

(** *** enforce_edges *)
Definition clamp (hi : Z) (v : float) : float :=
  to_float (py_max (PyInt 0) (py_min (PyInt hi) (PyFloat v))).

Definition enforce_edges_body (i : nat) (particles : list particle)
    : result (list particle) :=
  p ← np.getitem particles (Z.of_nat i);
  particles ← setitem particles i (set_x p (clamp (WIDTH - 1) (p_x p)));
  p ← np.getitem particles (Z.of_nat i);
  setitem particles i (set_y p (clamp (HEIGHT - 1) (p_y p))).

Definition enforce_edges (particles : list particle) : result (list particle) :=
  for_range NUM_PARTICLES enforce_edges_body particles.

(** *** compute_errors *)
Definition colour_error (pixel_colour : pixel) : Z :=
  let '(t0, t1, t2) := TARGET_COLOUR in
  let '(c0, c1, c2) := pixel_colour in
  (t0 - c0) ^ 2 + (t1 - c1) ^ 2 + (t2 - c2) ^ 2.

(** [frame[y, x]]: both indices are converted to the index type of the
    machine (64 bits) before either is checked against the shape. *)
Definition read_pixel (f : frame) (y x : Z) : result pixel :=
  if np.intp y && np.intp x
  then row ← np.getitem f y; np.getitem row x
  else Raise OverflowError.

Definition compute_errors_body (particles : list particle) (f : frame)
    (i : nat) (errors : list float) : result (list float) :=
  p ← np.getitem particles (Z.of_nat i);
  x ← to_int (p_x p);
  p ← np.getitem particles (Z.of_nat i);
  y ← to_int (p_y p);
  pixel_colour ← read_pixel f y x;
  setitem errors i (of_int (colour_error pixel_colour)).

Definition compute_errors (particles : list particle) (f : frame)
    : result (list float) :=
  for_range NUM_PARTICLES (compute_errors_body particles f)
            (np.zeros NUM_PARTICLES).

(** *** compute_weights

    The function reads the global [particles]; it is an argument here. *)
Definition on_edge (p : particle) : bool :=
  (p_x p =? of_int 0)%flt || (p_x p =? of_int (WIDTH - 1))%flt ||
  (p_y p =? of_int 0)%flt || (p_y p =? of_int (HEIGHT - 1))%flt.

(** [w[mask] = v]: the mask must be as long as the array. *)
Definition mask_assign (w : list float) (mask : list bool) (v : float)
    : result (list float) :=
  if (length mask =? length w)%nat
  then Ok (zip_with (fun (b : bool) x => if b then v else x) mask w)
  else Raise IndexError.

Definition compute_weights (particles : list particle) (errors : list float)
    : result (list float) :=
  m ← np.max errors;
  let weights := map (fun e => (m - e)%flt) errors in
  weights ← mask_assign weights (map on_edge particles) zero;
  Ok (map pow4 weights).

(** *** resample

    [drawn] is the index array [np.random.choice] returns. *)
Definition probabilities (weights : list float) : list float :=
  map (fun w => (w / np.sum weights)%flt) weights.

Definition resample (particles : list particle) (weights : list float)
    (drawn : list nat) : result (list particle * (Z * Z)) :=
  let probabilities := probabilities weights in
  indices ← np.random_choice NUM_PARTICLES NUM_PARTICLES probabilities drawn;
  particles ← np.take particles indices;
  let x := np.mean (map p_x particles) in
  let y := np.mean (map p_y particles) in
  xi ← to_int x;
  yi ← to_int y;
  Ok (particles, (xi, yi)).

(** *** apply_noise

    [noise] is the array of normal draws, built with [NUM_PARTICLES] rows.
    [particles += noise] adds row by row when the two arrays have as many
    rows; a one-row [noise] is broadcast to every row; any other shape
    raises. *)
Definition add_noise (p d : particle) : particle :=
  Particle (p_x p + p_x d)%flt (p_y p + p_y d)%flt
           (p_vx p + p_vx d)%flt (p_vy p + p_vy d)%flt.

Definition apply_noise (particles noise : list particle)
    : result (list particle) :=
  if (length noise =? length particles)%nat
  then Ok (zip_with add_noise particles noise)
  else match noise with
       | [d] => Ok (map (fun p => add_noise p d) particles)
       | _ => Raise ValueError
       end.

(** *** One pass of the main loop, up to the display. *)
Definition track_frame (particles : list particle) (f : frame)
    (drawn : list nat) (noise : list particle)
    : result (list particle * (Z * Z)) :=
  let particles := apply_velocity particles in
  particles ← enforce_edges particles;
  errors ← compute_errors particles f;
  weights ← compute_weights particles errors;
  '(particles, location) ← resample particles weights drawn;
  particles ← apply_noise particles noise;
  Ok (particles, location).

End Tracker.

(** The centroid of a generation, as [resample] computes it. *)
Definition centroid (particles : list particle) : result (Z * Z) :=
  xi ← to_int (np.mean (map p_x particles));
  yi ← to_int (np.mean (map p_y particles));
  Ok (xi, yi).

(** ** The display and the main routine *)

(** What the outside world supplies while one frame is handled: the indices
    and the noise the generator draws, and the keys [cv2.waitKey] reports
    (the second one is only asked for after an Esc). *)
Record draws := Draws {
  d_drawn : list nat;
  d_noise : list particle;
  d_key1 : Z;
  d_key2 : Z
}.

(** [cv2.VideoCapture]: whether the file could be opened, and the frames
    [video.read()] delivers before it reports [ret = False]. *)
Record video := Video {
  isOpened : bool;
  read : list frame
}.

(** *** get_frames

    The values the generator yields, in order. *)
Definition get_frames (v : video) : list (option frame) :=
  (if isOpened v then map Some (read v) else []) ++ [None].

(** How the main routine ends: the generator ran out or yielded [None],
    the user pressed Esc twice, or an exception escaped. *)
Inductive ending := Finished | Stopped | Failed (e : exn).

Section Run.
Variable NUM_PARTICLES : nat.

(** *** display

    The loop converts each position with [int()] and draws nothing.  The
    location is a pair, so [len(location) > 0] holds and the circle is
    drawn once the loop is through; it is returned with the flag.  [key1]
    and [key2] are what [cv2.waitKey(30)] and [cv2.waitKey(0)] report. *)
Definition display_body (particles : list particle) (i : nat) (_ : unit)
    : result unit :=
  p ← np.getitem particles (Z.of_nat i);
  _ ← to_int (p_x p);
  p ← np.getitem particles (Z.of_nat i);
  _ ← to_int (p_y p);
  Ok tt.

Definition display (particles : list particle) (location : Z * Z)
    (key1 key2 : Z) : result ((Z * Z) * bool) :=
  _ ← (if (0 <? length particles)%nat
       then for_range NUM_PARTICLES (display_body particles) tt
       else Ok tt);
  let circle := location in
  if key1 =? 27
  then if key2 =? 27 then Ok (circle, true) else Ok (circle, false)
  else Ok (circle, false).

(** *** The main routine

    [world k] is what the outside supplies for frame [k]; the result is the
    circles drawn, in order, and how the loop ended.  The six calls from
    [apply_velocity] to [apply_noise] are [track_frame]. *)
Fixpoint main_loop (world : nat -> draws) (k : nat) (particles : list particle)
    (yields : list (option frame)) : list (Z * Z) * ending :=
  match yields with
  | [] => ([], Finished)
  | None :: _ => ([], Finished)
  | Some f :: yields =>
      let w := world k in
      match track_frame NUM_PARTICLES particles f (d_drawn w) (d_noise w) with
      | Raise e => ([], Failed e)
      | Ok (particles, location) =>
          match display particles location (d_key1 w) (d_key2 w) with
          | Raise e => ([], Failed e)
          | Ok (circle, terminate) =>
              if terminate : bool then ([circle], Stopped)
              else let '(circles, ending) :=
                     main_loop world (S k) particles yields in
                   (circle :: circles, ending)
          end
      end
  end.

Definition main (rand : list particle) (v : video) (world : nat -> draws)
    : list (Z * Z) * ending :=
  main_loop world 0 (initialize_particles rand) (get_frames v).

End Run.

(** ** Notions used in the statements and proofs *)

(** What one pass of the [enforce_edges] loop body does to a row. *)
Definition clamp_particle (p : particle) : particle :=
  Particle (clamp (WIDTH - 1) (p_x p)) (clamp (HEIGHT - 1) (p_y p))
           (p_vx p) (p_vy p).

(** The sign a rounded result carries; [False] for NaN. *)
Definition has_sign (s : bool) (x : float) : Prop :=
  match x with
  | S754_nan => False
  | S754_zero s' | S754_infinity s' | S754_finite s' _ _ => s' = s
  end.

(** A row whose position holds binary64 values inside the frame. *)
Definition in_frame (p : particle) : Prop :=
  is_float64 (p_x p) /\ is_float64 (p_y p) /\
  (of_int 0 <=? p_x p)%flt = true /\ (p_x p <=? of_int (WIDTH - 1))%flt = true /\
  (of_int 0 <=? p_y p)%flt = true /\ (p_y p <=? of_int (HEIGHT - 1))%flt = true.

(** The weight [compute_weights] gives a row, from the largest error [m]. *)
Definition weight (m : float) (p : particle) (e : float) : float :=
  pow4 (if on_edge p then zero else (m - e)%flt).

(** ** Rounding, in integers *)

(** After [k] right shifts of [m], the record holds the quotient and how
    the remainder compares with half a unit. *)
Definition shifted (m k : Z) (mrs : shr_record) : Prop :=
  shr_m mrs = m / 2 ^ k /\
  match shr_r mrs, shr_s mrs with
  | false, false => m mod 2 ^ k = 0
  | false, true => 0 < 2 * (m mod 2 ^ k) < 2 ^ k
  | true, false => 2 * (m mod 2 ^ k) = 2 ^ k
  | true, true => 2 ^ k < 2 * (m mod 2 ^ k)
  end.

(** [m1] is [m / 2^n] rounded to nearest. *)
Definition nearest (m n m1 : Z) : Prop :=
  2 ^ n * (2 * m1 - 1) <= 2 * m <= 2 ^ n * (2 * m1 + 1).

(** The value [binary_round_aux] returns, from the rounded mantissa [m1]
    and the exponent [f] of the first shift. *)
Definition pack (s : bool) (m1 f : Z) : float :=
  if m1 =? 0 then S754_zero s
  else if m1 =? 2 ^ 53
       then (if f + 1 <=? 971 then S754_finite s (2 ^ 52) (f + 1)
             else S754_infinity s)
       else (if f <=? 971 then S754_finite s (Z.to_pos m1) f
             else S754_infinity s).

(** [t] is a zero, or finite with a mantissa below [2^53] and
    [(exponent, mantissa)] at most [(eb, b)]. *)
Definition at_most (b eb : Z) (t : float) : Prop :=
  match t with
  | S754_zero _ => True
  | S754_finite _ m e => Zpos m < 2 ^ 53 /\ (e < eb \/ (e = eb /\ Zpos m <= b))
  | _ => False
  end.

(** A row whose position lies strictly between the edges of the frame. *)
Definition strictly_inside (p : particle) : Prop :=
  (of_int 0 <? p_x p)%flt = true /\ (p_x p <? of_int (WIDTH - 1))%flt = true /\
  (of_int 0 <? p_y p)%flt = true /\ (p_y p <? of_int (HEIGHT - 1))%flt = true.

(** What [compute_errors] stored at row [i]. *)
Definition scored (ps : list particle) (f : frame) (i : nat) (e : float) : Prop :=
  exists p x y c,
    ps !! i = Some p /\ to_int (p_x p) = Ok x /\ to_int (p_y p) = Ok y /\
    read_pixel f y x = Ok c /\ e = of_int (colour_error c).

(** A row of four binary64 values. *)
Definition float64_row (p : particle) : Prop :=
  is_float64 (p_x p) /\ is_float64 (p_y p) /\
  is_float64 (p_vx p) /\ is_float64 (p_vy p).

(** A location inside the frame. *)
Definition on_frame (location : Z * Z) : Prop :=
  0 <= location.1 <= WIDTH - 1 /\ 0 <= location.2 <= HEIGHT - 1.

(** A row whose position is neither NaN nor infinite. *)
Definition finite_position (p : particle) : Prop :=
  is_finite (p_x p) = true /\ is_finite (p_y p) = true.

(** What the generator may hand back for one frame. *)
Definition draws_ok (N : nat) (w : draws) : Prop :=
  np.drawn_from N N (d_drawn w) /\
  length (d_noise w) = N /\
  Forall float64_row (d_noise w) /\
  Forall finite_position (d_noise w).

(** A frame of the right shape holding [uint8] channels. *)
Definition frame_ok (f : frame) : Prop := frame_shape f /\ frame_uint8 f.

(** How a run under these assumptions may end. *)
Definition ending_ok (e : ending) : Prop :=
  e = Finished \/ e = Stopped \/ e = Failed ValueError.

(** [t] is not negative and its value is at most [z]; the comparison is
    scaled by [2^1074] to stay in integers. *)
Definition below (t : float) (z : Z) : Prop :=
  match t with
  | S754_zero _ => True
  | S754_finite false m e =>
      Zpos m < 2 ^ 53 /\ -1074 <= e /\ Zpos m * 2 ^ (e + 1074) <= z * 2 ^ 1074
  | _ => False
  end.

(** As [shifted], for the quotient [num / den] in place of an integer. *)
Definition shifted_frac (num den k : Z) (mrs : shr_record) : Prop :=
  shr_m mrs = num / (den * 2 ^ k) /\
  match shr_r mrs, shr_s mrs with
  | false, false => num mod (den * 2 ^ k) = 0
  | false, true => 0 < 2 * (num mod (den * 2 ^ k)) < den * 2 ^ k
  | true, false => 2 * (num mod (den * 2 ^ k)) = den * 2 ^ k
  | true, true => den * 2 ^ k < 2 * (num mod (den * 2 ^ k))
  end.

(** [m1] is [num / (den * 2^n)] rounded to nearest. *)
Definition nearest_frac (num den n m1 : Z) : Prop :=
  den * 2 ^ n * (2 * m1 - 1) <= 2 * num <= den * 2 ^ n * (2 * m1 + 1).

(** [r] is the result of adding up the values of [l], each once, in some
    order and grouping. *)
Inductive sums : list float -> float -> Prop :=
| sums_one x : sums [x] x
| sums_add l1 l2 a b : sums l1 a -> sums l2 b -> sums (l1 ++ l2) (a + b)%flt
| sums_perm l l' a : l ≡ₚ l' -> sums l a -> sums l' a.

(** The value of a binary64 number that is not negative, in units of
    [2^-1074]: an integer. *)
Definition scaled (x : float) : Z :=
  match x with
  | S754_finite false m e => Zpos m * 2 ^ (e + 1074)
  | _ => 0
  end.



(** ** Sample inputs *)

Definition sample_raw : list particle :=
  [ Particle (of_int 800) (of_int (-3)) one zero;
    Particle (of_int 100) (of_int 50) zero one;
    Particle nan (of_int 405) zero zero ].

Definition sample_particles : list particle :=
  [ Particle (of_int 100) (of_int 50) one zero;
    Particle (of_int 10) (of_int 20) zero zero;
    Particle (of_int 400) (of_int 300) zero one ].

Definition sample_edge_particles : list particle :=
  [ Particle zero (of_int 50) one zero;
    Particle (of_int 10) (of_int 20) zero zero;
    Particle (of_int 400) (of_int 405) zero one ].

Definition sample_weights : list float := [ one; zero; of_int 3 ].
Definition sample_drawn : list nat := [ 2; 0; 2 ]%nat.
Definition sample_errors : list float := [ of_int 0; of_int 100; of_int 7 ].
Definition flat_errors : list float := [ of_int 7; of_int 7; of_int 7 ].
Definition zero_weights : list float := [ zero; zero; zero ].
Definition black_frame : frame :=
  replicate (Z.to_nat HEIGHT) (replicate (Z.to_nat WIDTH) (0, 0, 0)).

Definition sample_rand : list particle :=
  [ Particle (S754_finite false 4503599627370496 (-53))
             (S754_finite false 9007199254740991 (-53))
             zero
             (S754_finite false 9007199254740991 (-53));
    Particle (S754_zero true)
             (S754_finite false 4503599627370496 (-54))
             (S754_finite false 1 (-1074))
             (S754_finite false 6755399441055744 (-53)) ].

Definition sample_interior : list particle :=
  [ Particle (of_int 100) (of_int 50) one zero;
    Particle (of_int 10) (of_int 20) zero zero;
    Particle (of_int 400) (of_int 300) zero one ].

(** A black frame with one pixel of the target colour at [x = 100],
    [y = 50]. *)
Definition marked_frame : frame :=
  <[ 50%nat := <[ 100%nat := TARGET_COLOUR ]> (replicate (Z.to_nat WIDTH) (0, 0, 0)) ]>
    (replicate (Z.to_nat HEIGHT) (replicate (Z.to_nat WIDTH) (0, 0, 0))).

Definition sample_noise : list particle :=
  [ Particle one zero zero zero;
    Particle zero one zero zero;
    Particle zero zero one zero ].

Definition sample_start : list particle :=
  [ Particle (of_int 99) (of_int 50) one zero;
    Particle (of_int 10) (of_int 20) zero zero;
    Particle (of_int 400) (of_int 300) zero one ].

Definition sample_next : list particle :=
  Eval vm_compute in
    match track_frame 3 sample_start marked_frame [0; 0; 0]%nat sample_noise with
    | Ok (next, _) => next
    | Raise _ => []
    end.

(** Draws of [np.random.rand] whose first row starts on the marked pixel of
    [marked_frame], at rest. *)
Definition sample_seed : list particle :=
  [ Particle (S754_finite false (285 * 2 ^ 44) (-55))
             (S754_finite false (127 * 2 ^ 46) (-56))
             (S754_finite false (2 ^ 52) (-53))
             (S754_finite false (2 ^ 52) (-53));
    Particle zero zero (S754_finite false (2 ^ 52) (-53))
             (S754_finite false (2 ^ 52) (-53));
    Particle zero zero (S754_finite false (2 ^ 52) (-53))
             (S754_finite false (2 ^ 52) (-53)) ].

Definition sample_video : video := Video true [marked_frame].

(** The generator always picks row 0; no key is pressed, or Esc twice. *)
Definition sample_world (k : nat) : draws := Draws [0; 0; 0]%nat sample_noise 0 0.
Definition sample_world_esc (k : nat) : draws :=
  Draws [0; 0; 0]%nat sample_noise 27 27.

(** * Properties *)

(** ** Comparisons of binary64 values *)

Lemma ltb_leb (a b : float) : (a <? b)%flt = true -> (a <=? b)%flt = true.
Proof.
  unfold Float64.ltb, Float64.leb, SFltb, SFleb.
  destruct (SFcompare a b) as [[]|]; congruence.
Qed.

Lemma SFcompare_refl (a : float) : is_nan a = false -> SFcompare a a = Some Eq.
Proof.
  destruct a as [s|s| |s m e]; simpl; try congruence; intros _.
  - destruct s; reflexivity.
  - rewrite Z.compare_refl, Pos.compare_cont_refl. destruct s; reflexivity.
Qed.

Lemma ltb_irrefl (a : float) : (a <? a)%flt = false.
Proof.
  unfold Float64.ltb, SFltb. destruct (is_nan a) eqn:E.
  - destruct a; try discriminate. reflexivity.
  - rewrite SFcompare_refl; auto.
Qed.

Lemma leb_refl (a : float) : is_nan a = false -> (a <=? a)%flt = true.
Proof. intros H. unfold Float64.leb, SFleb. rewrite SFcompare_refl; auto. Qed.

(** ** Rounding never yields NaN *)

Lemma iter_pos_inv {A} (P : A -> Prop) (f : A -> A) :
  (forall a, P a -> P (f a)) -> forall p a, P a -> P (SpecFloat.iter_pos f p a).
Proof.
  intros Hf. induction p as [p IH|p IH|]; intros a Ha; simpl; auto.
Qed.

Lemma shr_1_nonneg (mrs : shr_record) : 0 <= shr_m mrs -> 0 <= shr_m (shr_1 mrs).
Proof.
  destruct mrs as [m r s]. simpl.
  destruct m as [|[p|p|]|p]; simpl; lia.
Qed.

Lemma shr_nonneg (mrs : shr_record) (e n : Z) :
  0 <= shr_m mrs -> 0 <= shr_m (fst (shr mrs e n)).
Proof.
  intros H. destruct n as [|p|p]; simpl; auto.
  apply (iter_pos_inv (fun r => 0 <= shr_m r)); auto using shr_1_nonneg.
Qed.

Lemma shr_fexp_nonneg (m e : Z) (l : location) :
  0 <= m -> 0 <= shr_m (fst (shr_fexp prec emax m e l)).
Proof.
  intros H. unfold shr_fexp. apply shr_nonneg.
  destruct l as [|[]]; exact H.
Qed.

Lemma round_nearest_even_nonneg (m : Z) (l : location) :
  0 <= m -> 0 <= round_nearest_even m l.
Proof.
  intros H. destruct l as [|[]]; simpl; try lia. destruct (Z.even m); lia.
Qed.

Lemma binary_round_aux_sign (s : bool) (mx ex : Z) (lx : location) :
  0 <= mx -> has_sign s (binary_round_aux prec emax s mx ex lx).
Proof.
  intros H. unfold binary_round_aux.
  pose proof (shr_fexp_nonneg mx ex lx H) as H1.
  destruct (shr_fexp prec emax mx ex lx) as [mrs' e'].
  pose proof (shr_fexp_nonneg _ e' loc_Exact
                (round_nearest_even_nonneg _ (loc_of_shr_record mrs') H1)) as H2.
  destruct (shr_fexp prec emax _ e' loc_Exact) as [mrs'' e''].
  simpl in H2. destruct (shr_m mrs'') as [|m|m]; simpl; try lia; auto.
  destruct (e'' <=? emax - prec); reflexivity.
Qed.

Lemma binary_round_sign (s : bool) (m : positive) (e : Z) :
  has_sign s (binary_round prec emax s m e).
Proof.
  unfold binary_round. destruct (shl_align m e _) as [mz ez].
  apply binary_round_aux_sign. lia.
Qed.

Lemma has_sign_not_nan (s : bool) (x : float) : has_sign s x -> is_nan x = false.
Proof. destruct x; simpl; tauto. Qed.

Lemma has_sign_nonneg (x : float) : has_sign false x -> (zero <=? x)%flt = true.
Proof. destruct x as [s|s| |s m e]; simpl; intros H; try tauto; subst; reflexivity. Qed.

Lemma binary_normalize_not_nan (m e : Z) :
  is_nan (binary_normalize prec emax m e false) = false.
Proof.
  destruct m as [|p|p]; simpl; [reflexivity| |];
    eapply has_sign_not_nan, binary_round_sign.
Qed.

Lemma sub_finite_not_nan (a b : float) :
  is_finite a = true -> is_finite b = true -> is_nan (a - b)%flt = false.
Proof.
  destruct a as [sa|sa| |sa ma ea], b as [sb|sb| |sb mb eb];
    try discriminate; intros _ _.
  - destruct sa, sb; reflexivity.
  - reflexivity.
  - reflexivity.
  - apply binary_normalize_not_nan.
Qed.

Lemma sub_diag (a : float) : is_finite a = true -> (a - a)%flt = zero.
Proof.
  destruct a as [s|s| |s m e]; try discriminate; intros _.
  - destruct s; reflexivity.
  - unfold Float64.sub, SFsub. rewrite Z.min_id.
    unfold shl_align. rewrite !Z.sub_diag. reflexivity.
Qed.

(** ** pow4 *)
Lemma pow4_sign (x : float) : is_nan x = false -> has_sign false (pow4 x).
Proof.
  destruct x as [s|s| |s m e]; try discriminate; intros _; try reflexivity.
  apply binary_round_sign.
Qed.

Lemma pow4_zero : pow4 zero = zero.
Proof. reflexivity. Qed.

(** ** Mantissas of binary64 values *)

Lemma digits2_pos_bounds (m : positive) :
  2 ^ (Zpos (digits2_pos m) - 1) <= Zpos m < 2 ^ Zpos (digits2_pos m).
Proof.
  induction m as [m IH|m IH|]; cbn [digits2_pos].
  - rewrite Pos2Z.inj_succ. replace (Z.succ (Zpos (digits2_pos m)) - 1)
      with (Zpos (digits2_pos m) - 1 + 1) by lia.
    rewrite Z.pow_succ_r, Z.pow_add_r by lia. lia.
  - rewrite Pos2Z.inj_succ. replace (Z.succ (Zpos (digits2_pos m)) - 1)
      with (Zpos (digits2_pos m) - 1 + 1) by lia.
    rewrite Z.pow_succ_r, Z.pow_add_r by lia. lia.
  - simpl. lia.
Qed.

Lemma float64_finite (s : bool) (m : positive) (e : Z) :
  is_float64 (S754_finite s m e) ->
  Zpos m < 2 ^ 53 /\ -1074 <= e <= 971 /\ (2 ^ 52 <= Zpos m \/ e = -1074).
Proof.
  unfold is_float64, valid_binary, bounded, canonical_mantissa, fexp, emin,
    Float64.prec, Float64.emax.
  intros H. apply andb_true_iff in H as [Hc Hb].
  apply Z.eqb_eq in Hc. apply Z.leb_le in Hb.
  pose proof (digits2_pos_bounds m) as [Hlo Hhi].
  assert (Hd : Zpos (digits2_pos m) <= 53) by lia.
  split; [|split; [lia|]].
  - eapply Z.lt_le_trans; [exact Hhi|]. apply Z.pow_le_mono_r; lia.
  - destruct (Z.eq_dec e (-1074)) as [|Hne]; [right; assumption|left].
    assert (Zpos (digits2_pos m) = 53) as Hd53 by lia.
    rewrite Hd53 in Hlo. exact Hlo.
Qed.

(** [int(x)] of a value between [0.0] and a positive bound. *)
Lemma to_int_range (x : float) (mh : positive) (eh : Z) :
  eh < 0 -> 2 ^ 52 <= Zpos mh ->
  is_float64 x ->
  (zero <=? x)%flt = true -> (x <=? S754_finite false mh eh)%flt = true ->
  exists z, to_int x = Ok z /\ 0 <= z <= Zpos mh / 2 ^ (- eh).
Proof.
  intros Heh Hmh Hx H0 Hle.
  assert (Hpow : 0 < 2 ^ (- eh)) by (apply Z.pow_pos_nonneg; lia).
  destruct x as [s|s| |s m e]; try discriminate.
  - exists 0. split; [reflexivity|]. split; [lia|]. apply Z.div_pos; lia.
  - destruct s; discriminate.
  - destruct s; [discriminate|].
    apply float64_finite in Hx as (Hm & He & _).
    unfold Float64.leb, SFleb, SFcompare in Hle.
    destruct (Z.compare_spec e eh) as [Heq|Hlt|Hgt]; try discriminate.
    + subst e. change (Pos.compare_cont Eq m mh) with (Pos.compare m mh) in Hle.
      destruct (Pos.compare_spec m mh) as [Hm'|Hm'|Hm']; try discriminate.
      * subst mh. destruct eh as [|k|k]; try lia. eexists. split; [reflexivity|].
        simpl cond_Zopp. split; [apply Z.div_pos; lia|]. reflexivity.
      * destruct eh as [|k|k]; try lia. eexists. split; [reflexivity|].
        simpl cond_Zopp. split; [apply Z.div_pos; lia|].
        apply Z.div_le_mono; lia.
    + destruct e as [|k|k]; try lia. eexists. split; [reflexivity|].
      simpl cond_Zopp. split; [apply Z.div_pos; lia|].
      transitivity (Zpos m / 2 ^ (- eh + 1)).
      * apply Z.div_le_compat_l; [lia|]. split; [apply Z.pow_pos_nonneg; lia|].
        apply Z.pow_le_mono_r; lia.
      * rewrite Z.pow_add_r, Z.pow_1_r by lia.
        rewrite (Z.mul_comm (2 ^ (- eh)) 2).
        rewrite <- (Z.div_mul_cancel_l (Zpos mh) (2 ^ (- eh)) 2) by lia.
        apply Z.div_le_mono; [lia|].
        change (2 ^ 53) with (2 * 2 ^ 52) in Hm. lia.
Qed.

(** ** Round to nearest even, in integers *)

Lemma shr_1_spec (m : Z) (r s : bool) :
  0 <= m ->
  shr_1 (Build_shr_record m r s) = Build_shr_record (m / 2) (Z.odd m) (r || s).
Proof.
  intros Hm. destruct m as [|[p|p|]|p]; try lia; cbn [shr_1].
  - reflexivity.
  - f_equal. rewrite Pos2Z.inj_xI. apply (Z.div_unique _ _ _ 1); lia.
  - f_equal. rewrite Pos2Z.inj_xO. apply (Z.div_unique _ _ _ 0); lia.
  - reflexivity.
Qed.

Lemma shifted_0 (m : Z) : shifted m 0 (Build_shr_record m false false).
Proof. split; simpl; [rewrite Z.div_1_r; reflexivity | apply Z.mod_1_r]. Qed.

Lemma shifted_step (m k : Z) (mrs : shr_record) :
  0 <= m -> 0 <= k -> shifted m k mrs -> shifted m (k + 1) (shr_1 mrs).
Proof.
  intros Hm Hk [Hq Hrem]. destruct mrs as [q r s]. cbn [shr_m shr_r shr_s] in *.
  assert (Hp : 0 < 2 ^ k) by (apply Z.pow_pos_nonneg; lia).
  assert (Hq0 : 0 <= q) by (subst q; apply Z.div_pos; lia).
  rewrite shr_1_spec by assumption. unfold shifted. cbn [shr_m shr_r shr_s].
  rewrite Z.pow_add_r, Z.pow_1_r by lia.
  split.
  - subst q. rewrite Z.div_div by lia. reflexivity.
  - rewrite Z.rem_mul_r by lia. rewrite <- Hq.
    pose proof (Z.mod_pos_bound m (2 ^ k) Hp) as Hb.
    pose proof (Zmod_odd q) as Ho.
    destruct (Z.odd q); rewrite Ho; destruct r, s; cbn [orb]; lia.
Qed.

Lemma shifted_iter (m : Z) (p : positive) : forall (k : Z) (mrs : shr_record),
  0 <= m -> 0 <= k -> shifted m k mrs ->
  shifted m (k + Zpos p) (SpecFloat.iter_pos shr_1 p mrs).
Proof.
  induction p as [p IH|p IH|]; intros k mrs Hm Hk H; cbn [SpecFloat.iter_pos].
  - replace (k + Zpos p~1) with (k + 1 + Zpos p + Zpos p) by lia.
    apply IH; [assumption|lia|]. apply IH; [assumption|lia|].
    apply shifted_step; assumption.
  - replace (k + Zpos p~0) with (k + Zpos p + Zpos p) by lia.
    apply IH; [assumption|lia|]. apply IH; assumption.
  - apply shifted_step; assumption.
Qed.

Lemma shifted_nearest (m k : Z) (mrs : shr_record) :
  0 <= m -> 0 <= k -> shifted m k mrs ->
  nearest m k (round_nearest_even (shr_m mrs) (loc_of_shr_record mrs)).
Proof.
  intros Hm Hk [Hq Hrem]. destruct mrs as [q r s]. cbn [shr_m shr_r shr_s] in *.
  assert (Hp : 0 < 2 ^ k) by (apply Z.pow_pos_nonneg; lia).
  pose proof (Z.div_mod m (2 ^ k) ltac:(lia)) as Hdm. rewrite <- Hq in Hdm.
  pose proof (Z.mod_pos_bound m (2 ^ k) Hp) as Hb.
  unfold nearest.
  destruct r, s; cbn [loc_of_shr_record round_nearest_even];
    try destruct (Z.even q); nia.
Qed.

(** The first shift of [binary_round_aux] on an exact mantissa. *)
Lemma shr_exact (m e n : Z) :
  0 <= m -> 0 <= n ->
  exists mrs, shr (Build_shr_record m false false) e n = (mrs, e + n) /\
              shifted m n mrs.
Proof.
  intros Hm Hn. destruct n as [|p|p]; try lia; cbn [shr].
  - exists (Build_shr_record m false false). rewrite Z.add_0_r.
    split; [reflexivity | apply shifted_0].
  - eexists. split; [reflexivity|].
    apply (shifted_iter m p 0); try lia. apply shifted_0.
Qed.

Lemma fexp_eq (k : Z) : fexp prec emax k = Z.max (k - 53) (-1074).
Proof. reflexivity. Qed.

Lemma shr_noop (mrs : shr_record) (e n : Z) : n <= 0 -> shr mrs e n = (mrs, e).
Proof. destruct n; [reflexivity|lia|reflexivity]. Qed.

Lemma Zdigits2_bounds (m : Z) :
  0 < m -> 2 ^ (Zdigits2 m - 1) <= m < 2 ^ Zdigits2 m.
Proof. destruct m as [|p|p]; try lia. intros _. apply digits2_pos_bounds. Qed.

Lemma Zdigits2_le (m k : Z) : 0 < m -> 0 <= k -> m < 2 ^ k -> Zdigits2 m <= k.
Proof.
  intros Hm Hk Hlt. pose proof (Zdigits2_bounds m Hm) as [Hlo _].
  destruct (Z.le_gt_cases (Zdigits2 m) k) as [|Hgt]; [assumption|].
  assert (2 ^ k <= 2 ^ (Zdigits2 m - 1)) by (apply Z.pow_le_mono_r; lia). lia.
Qed.

Lemma Zdigits2_pos (m : Z) : 0 < m -> 0 < Zdigits2 m.
Proof. destruct m; simpl; lia. Qed.

Lemma binary_round_aux_exact (s : bool) (mx ex : Z) :
  0 < mx ->
  ex <= fexp prec emax (Zdigits2 mx + ex) ->
  exists m1,
    nearest mx (fexp prec emax (Zdigits2 mx + ex) - ex) m1 /\
    0 <= m1 <= 2 ^ 53 /\
    binary_round_aux prec emax s mx ex loc_Exact =
      pack s m1 (fexp prec emax (Zdigits2 mx + ex)).
Proof.
  intros Hmx Hex.
  set (d := Zdigits2 mx) in *. set (f := fexp prec emax (d + ex)) in *.
  assert (Hf : f = Z.max (d + ex - 53) (-1074)) by apply fexp_eq.
  destruct (shr_exact mx ex (f - ex)) as (mrs & Hshr & Hmrs); try lia.
  pose (m1 := round_nearest_even (shr_m mrs) (loc_of_shr_record mrs)).
  assert (Hn : nearest mx (f - ex) m1) by (apply shifted_nearest; try lia; assumption).
  assert (Hm0 : 0 <= m1).
  { apply round_nearest_even_nonneg. destruct Hmrs as [-> _].
    apply Z.div_pos; [lia | apply Z.pow_pos_nonneg; lia]. }
  assert (Hm1 : m1 <= 2 ^ 53).
  { pose proof (Zdigits2_bounds mx Hmx) as [_ Hd]. fold d in Hd.
    pose proof (Zdigits2_pos mx Hmx) as Hdp. fold d in Hdp.
    destruct Hn as [Hlo _].
    destruct (Z.le_gt_cases d 53) as [Hd53|Hd53].
    - assert (2 ^ d <= 2 ^ 53) by (apply Z.pow_le_mono_r; lia).
      assert (0 < 2 ^ (f - ex)) by (apply Z.pow_pos_nonneg; lia). nia.
    - assert (Hpow : 2 ^ d = 2 ^ (d - 53) * 2 ^ 53)
        by (rewrite <- Z.pow_add_r by lia; f_equal; lia).
      assert (H1 : 2 ^ (d - 53) <= 2 ^ (f - ex)) by (apply Z.pow_le_mono_r; lia).
      assert (H2 : 0 < 2 ^ (d - 53)) by (apply Z.pow_pos_nonneg; lia).
      nia. }
  exists m1. split; [exact Hn|]. split; [lia|].
  unfold binary_round_aux, shr_fexp. cbn [shr_record_of_loc].
  fold d. fold f. rewrite Hshr. fold m1.
  replace (ex + (f - ex)) with f by lia.
  unfold pack.
  destruct (Z.eqb_spec m1 0) as [E0|N0].
  - rewrite E0. cbn [Zdigits2 Z.add]. rewrite shr_noop by (rewrite fexp_eq; lia).
    reflexivity.
  - destruct (Z.eqb_spec m1 (2 ^ 53)) as [E53|N53].
    + rewrite E53. change (Zdigits2 (2 ^ 53)) with 54.
      replace (fexp prec emax (54 + f) - f) with 1 by (rewrite fexp_eq; lia).
      cbn [shr shr_record_of_loc SpecFloat.iter_pos].
      change (shr_1 {| shr_m := 2 ^ 53; shr_r := false; shr_s := false |})
        with {| shr_m := 2 ^ 52; shr_r := false; shr_s := false |}.
      cbn [shr_m]. reflexivity.
    + assert (Hd1 : Zdigits2 m1 <= 53) by (apply Zdigits2_le; lia).
      rewrite shr_noop by (rewrite fexp_eq; lia).
      cbn [shr_record_of_loc shr_m].
      destruct m1 as [|p|p]; try lia. reflexivity.
Qed.

Lemma Zdigits2_unique (m k : Z) :
  0 < m -> 2 ^ (k - 1) <= m < 2 ^ k -> Zdigits2 m = k.
Proof.
  intros Hm [Hlo Hhi]. pose proof (Zdigits2_bounds m Hm) as [Dlo Dhi].
  pose proof (Zdigits2_pos m Hm) as Dpos.
  assert (Hk : 0 < k).
  { destruct (Z.lt_trichotomy k 0) as [H|[H|H]]; [|subst k; simpl in Hhi; lia|lia].
    rewrite Z.pow_neg_r in Hhi by lia. lia. }
  destruct (Z.lt_trichotomy (Zdigits2 m) k) as [H|[H|H]]; [|assumption|].
  - assert (2 ^ Zdigits2 m <= 2 ^ (k - 1)) by (apply Z.pow_le_mono_r; lia). lia.
  - assert (2 ^ k <= 2 ^ (Zdigits2 m - 1)) by (apply Z.pow_le_mono_r; lia). lia.
Qed.

Lemma Zdigits2_shift (m j : Z) :
  0 < m -> 0 <= j -> Zdigits2 (m * 2 ^ j) = Zdigits2 m + j.
Proof.
  intros Hm Hj. pose proof (Zdigits2_bounds m Hm) as [Dlo Dhi].
  pose proof (Zdigits2_pos m Hm) as Dpos.
  assert (Hp : 0 < 2 ^ j) by (apply Z.pow_pos_nonneg; lia).
  apply Zdigits2_unique; [nia|].
  replace (Zdigits2 m + j - 1) with (Zdigits2 m - 1 + j) by lia.
  rewrite !Z.pow_add_r by lia. nia.
Qed.

Lemma Zdigits2_ge (m k : Z) : 0 < m -> 2 ^ (k - 1) <= m -> k <= Zdigits2 m.
Proof.
  intros Hm Hlo. pose proof (Zdigits2_bounds m Hm) as [_ Dhi].
  pose proof (Zdigits2_pos m Hm) as Dpos.
  destruct (Z.le_gt_cases k (Zdigits2 m)) as [|Hgt]; [assumption|].
  assert (2 ^ Zdigits2 m <= 2 ^ (k - 1)) by (apply Z.pow_le_mono_r; lia). lia.
Qed.

Lemma pos_iter_xO (m d : positive) :
  Zpos (Pos.iter xO m d) = Zpos m * 2 ^ Zpos d.
Proof.
  induction d as [|d IH] using Pos.peano_ind.
  - simpl. lia.
  - rewrite Pos.iter_succ, Pos2Z.inj_xO, IH, Pos2Z.inj_succ, Z.pow_succ_r by lia.
    lia.
Qed.

Lemma shl_align_spec (m : positive) (e e' : Z) :
  exists mz, shl_align m e e' = (mz, Z.min e e') /\
             Zpos mz = Zpos m * 2 ^ (e - Z.min e e').
Proof.
  unfold shl_align. destruct (e' - e) as [|d|d] eqn:E.
  - exists m. rewrite Z.min_l by lia. rewrite Z.sub_diag. split; [reflexivity|lia].
  - exists m. rewrite Z.min_l by lia. rewrite Z.sub_diag. split; [reflexivity|lia].
  - exists (Pos.iter xO m d). rewrite Z.min_r by lia.
    split; [reflexivity|]. rewrite pos_iter_xO. f_equal. f_equal. lia.
Qed.

(** ** Magnitude bounds *)

Lemma pack_at_most (s : bool) (m1 f b eb : Z) :
  0 <= m1 <= 2 ^ 53 -> eb <= 971 -> 2 ^ 52 <= b ->
  f < eb \/ (f = eb /\ m1 <= b /\ m1 < 2 ^ 53) ->
  at_most b eb (pack s m1 f).
Proof.
  intros Hm1 Heb Hb H. unfold pack.
  destruct (Z.eqb_spec m1 0); [exact I|].
  destruct (Z.eqb_spec m1 (2 ^ 53)) as [E|N].
  - destruct (Z.leb_spec (f + 1) 971); [|lia].
    simpl. split; [reflexivity|]. change (Z.pow_pos 2 52) with (2 ^ 52). lia.
  - destruct (Z.leb_spec f 971); [|lia].
    simpl. rewrite Z2Pos.id by lia. change (Z.pow_pos 2 53) with (2 ^ 53). lia.
Qed.

Lemma pack_nonneg (m1 f : Z) : (zero <=? pack false m1 f)%flt = true.
Proof.
  unfold pack. destruct (m1 =? 0); [reflexivity|].
  destruct (m1 =? 2 ^ 53).
  - destruct (f + 1 <=? 971); reflexivity.
  - destruct (f <=? 971); reflexivity.
Qed.

Lemma at_most_leb (t : float) (mc : positive) (ec : Z) :
  (zero <=? t)%flt = true -> at_most (Zpos mc) ec t ->
  (t <=? S754_finite false mc ec)%flt = true.
Proof.
  destruct t as [s|s| |s m e]; cbn [at_most]; try tauto; try (intros; reflexivity).
  intros H0 (_ & H). destruct s; [discriminate|].
  unfold Float64.leb, SFleb, SFcompare.
  destruct (Z.compare_spec e ec); [|reflexivity|lia].
  change (Pos.compare_cont Eq m mc) with (Pos.compare m mc).
  destruct (Pos.compare_spec m mc); [reflexivity|reflexivity|lia].
Qed.

Lemma at_most_ltb (t : float) (mc : positive) (ec : Z) :
  (zero <=? t)%flt = true -> at_most (Zpos mc - 1) ec t ->
  (t <? S754_finite false mc ec)%flt = true.
Proof.
  destruct t as [s|s| |s m e]; cbn [at_most]; try tauto; try (intros; reflexivity).
  intros H0 (_ & H). destruct s; [discriminate|].
  unfold Float64.ltb, SFltb, SFcompare.
  destruct (Z.compare_spec e ec); [|reflexivity|lia].
  change (Pos.compare_cont Eq m mc) with (Pos.compare m mc).
  destruct (Pos.compare_spec m mc); [lia|reflexivity|lia].
Qed.

Lemma at_most_abs_leb (t : float) (mc : positive) (ec : Z) :
  at_most (Zpos mc) ec t ->
  (Float64.abs t <=? S754_finite false mc ec)%flt = true.
Proof.
  intros H. apply at_most_leb.
  - destruct t; simpl in *; tauto || reflexivity.
  - destruct t; simpl in *; tauto.
Qed.

(** ** enforce_edges *)

Section Clamp.

Variable hi : Z.
Hypothesis hi_pos : 0 < hi.
Hypothesis hi_float_pos : (of_int 0 <? of_int hi)%flt = true.

Lemma clamp_cases (v : float) :
  (clamp hi v = v /\ (of_int 0 <? v)%flt = true /\ (v <? of_int hi)%flt = true) \/
  clamp hi v = of_int 0 \/ clamp hi v = of_int hi.
Proof.
  unfold clamp, py_min, py_max, py_lt, to_float.
  destruct (v <? of_int hi)%flt eqn:Hhi.
  - destruct (of_int 0 <? v)%flt eqn:H0; auto.
  - apply Z.ltb_lt in hi_pos. rewrite hi_pos. auto.
Qed.

Lemma clamp_of_int_0 : clamp hi (of_int 0) = of_int 0.
Proof.
  unfold clamp, py_min, py_max, py_lt, to_float.
  rewrite hi_float_pos, ltb_irrefl. reflexivity.
Qed.

Lemma clamp_of_int_hi : clamp hi (of_int hi) = of_int hi.
Proof.
  unfold clamp, py_min, py_max, py_lt, to_float.
  rewrite ltb_irrefl. apply Z.ltb_lt in hi_pos. rewrite hi_pos. reflexivity.
Qed.

Lemma clamp_idempotent (v : float) : clamp hi (clamp hi v) = clamp hi v.
Proof.
  destruct (clamp_cases v) as [(E & H0 & Hhi) | [E | E]]; rewrite E.
  - unfold clamp, py_min, py_max, py_lt, to_float. rewrite Hhi, H0. reflexivity.
  - apply clamp_of_int_0.
  - apply clamp_of_int_hi.
Qed.

Lemma clamp_range (v : float) :
  (of_int 0 <=? clamp hi v)%flt = true /\ (clamp hi v <=? of_int hi)%flt = true.
Proof.
  assert (Hn0 : is_nan (of_int 0) = false) by reflexivity.
  assert (Hnh : is_nan (of_int hi) = false).
  { destruct (of_int hi); try reflexivity. discriminate hi_float_pos. }
  destruct (clamp_cases v) as [(E & H0 & Hhi) | [E | E]]; rewrite E.
  - split; apply ltb_leb; assumption.
  - split; [apply leb_refl | apply ltb_leb]; assumption.
  - split; [apply ltb_leb | apply leb_refl]; assumption.
Qed.

End Clamp.

Lemma width_edge : 0 < WIDTH - 1 /\ (of_int 0 <? of_int (WIDTH - 1))%flt = true.
Proof. split; reflexivity. Qed.

Lemma height_edge : 0 < HEIGHT - 1 /\ (of_int 0 <? of_int (HEIGHT - 1))%flt = true.
Proof. split; reflexivity. Qed.

Lemma clamp_particle_idempotent (p : particle) :
  clamp_particle (clamp_particle p) = clamp_particle p.
Proof.
  destruct width_edge, height_edge.
  unfold clamp_particle; simpl. rewrite !clamp_idempotent by assumption. reflexivity.
Qed.

(** The loop body touches row [i] only. *)
Lemma getitem_nat {A} (a : list A) (i : nat) :
  np.getitem a (Z.of_nat i) =
  match a !! i with Some v => Ok v | None => Raise IndexError end.
Proof.
  unfold np.getitem.
  destruct (Z.ltb_spec (Z.of_nat i) 0); [lia|].
  destruct (Z.ltb_spec (Z.of_nat i) 0); [lia|].
  rewrite Nat2Z.id. reflexivity.
Qed.

Lemma setitem_lt {A} (a : list A) (i : nat) (v : A) :
  (i < length a)%nat -> setitem a i v = Ok (<[i := v]> a).
Proof. intros H. unfold setitem. destruct (Nat.ltb_spec i (length a)); [reflexivity|lia]. Qed.

Lemma enforce_edges_body_spec (i : nat) (ps : list particle) (p : particle) :
  ps !! i = Some p ->
  enforce_edges_body i ps = Ok (<[i := clamp_particle p]> ps).
Proof.
  intros Hp. unfold enforce_edges_body.
  assert (Hi : (i < length ps)%nat) by (eapply lookup_lt_Some; eauto).
  rewrite getitem_nat, Hp. cbn [mbind result_bind].
  rewrite setitem_lt by assumption. cbn [mbind result_bind].
  rewrite getitem_nat, list_lookup_insert_eq by assumption.
  cbn [mbind result_bind].
  rewrite setitem_lt by (rewrite length_insert; assumption).
  rewrite list_insert_insert_eq. reflexivity.
Qed.

Lemma enforce_edges_body_out (i : nat) (ps : list particle) :
  ps !! i = None -> enforce_edges_body i ps = Raise IndexError.
Proof.
  intros Hp. unfold enforce_edges_body. rewrite getitem_nat, Hp. reflexivity.
Qed.

Lemma enforce_edges_from (n : nat) : forall (i : nat) (ps : list particle),
  (i + n <= length ps)%nat ->
  for_range_from enforce_edges_body i n ps =
  Ok (take i ps ++ map clamp_particle (take n (drop i ps)) ++ drop (i + n) ps).
Proof.
  induction n as [|n IH]; intros i ps Hlen.
  - rewrite Nat.add_0_r. cbn [for_range_from]. rewrite take_0. cbn [map app]. rewrite take_drop. reflexivity.
  - destruct (lookup_lt_is_Some_2 ps i) as [p Hp]; [lia|].
    cbn [for_range_from]. rewrite (enforce_edges_body_spec _ _ _ Hp).
    cbn [mbind result_bind]. rewrite IH by (rewrite length_insert; lia).
    f_equal.
    rewrite take_insert_lt by lia.
    rewrite (take_S_r _ _ _ Hp), insert_app_r_alt by (rewrite length_take; lia).
    rewrite length_take, Nat.min_l, Nat.sub_diag by lia. simpl.
    rewrite !drop_insert_lt by lia.
    rewrite (drop_S _ _ _ Hp). simpl.
    rewrite <- app_assoc. simpl. rewrite Nat.add_succ_r. reflexivity.
Qed.

(** With fewer than [NUM_PARTICLES] rows the loop runs off the array. *)
Lemma enforce_edges_from_short (n : nat) : forall (i : nat) (ps : list particle),
  (i <= length ps < i + n)%nat ->
  for_range_from enforce_edges_body i n ps = Raise IndexError.
Proof.
  induction n as [|n IH]; intros i ps Hlen; [lia|].
  cbn [for_range_from].
  destruct (ps !! i) as [p|] eqn:Hp.
  - rewrite (enforce_edges_body_spec _ _ _ Hp). cbn [mbind result_bind].
    apply lookup_lt_Some in Hp. apply IH. rewrite length_insert. lia.
  - rewrite enforce_edges_body_out by assumption. reflexivity.
Qed.

Lemma enforce_edges_short (N : nat) (ps : list particle) :
  (length ps < N)%nat -> enforce_edges N ps = Raise IndexError.
Proof.
  intros H. unfold enforce_edges, for_range. apply enforce_edges_from_short. lia.
Qed.

Lemma enforce_edges_spec (N : nat) (ps : list particle) :
  (N <= length ps)%nat ->
  enforce_edges N ps = Ok (map clamp_particle (take N ps) ++ drop N ps).
Proof.
  intros H. unfold enforce_edges, for_range.
  rewrite enforce_edges_from by lia. rewrite drop_0. reflexivity.
Qed.

Lemma enforce_edges_map (N : nat) (ps : list particle) :
  length ps = N -> enforce_edges N ps = Ok (map clamp_particle ps).
Proof.
  intros H. rewrite enforce_edges_spec by lia.
  rewrite take_ge, drop_ge, app_nil_r by lia. reflexivity.
Qed.

(** ** compute_errors *)

Lemma pixel_index (p : particle) :
  in_frame p ->
  exists x y, to_int (p_x p) = Ok x /\ to_int (p_y p) = Ok y /\
              0 <= x < WIDTH /\ 0 <= y < HEIGHT.
Proof.
  intros (Vx & Vy & Hx0 & Hx1 & Hy0 & Hy1).
  destruct (to_int_range (p_x p) 6341983069011968 (-43)) as (x & Ex & Hx);
    try assumption; try reflexivity; [discriminate|].
  destruct (to_int_range (p_y p) 7124835347988480 (-44)) as (y & Ey & Hy);
    try assumption; try reflexivity; [discriminate|].
  exists x, y. split; [assumption|]. split; [assumption|].
  change (Z.pos 6341983069011968 / 2 ^ (- -43)) with 721 in Hx.
  change (Z.pos 7124835347988480 / 2 ^ (- -44)) with 405 in Hy.
  unfold WIDTH, HEIGHT. lia.
Qed.

Lemma getitem_in_range {A} (a : list A) (i : Z) :
  0 <= i < Z.of_nat (length a) -> returns (np.getitem a i).
Proof.
  intros H. unfold np.getitem.
  destruct (Z.ltb_spec i 0); [lia|]. destruct (Z.ltb_spec i 0); [lia|].
  destruct (lookup_lt_is_Some_2 a (Z.to_nat i)) as [v Hv]; [lia|].
  rewrite Hv. exists v. reflexivity.
Qed.

Lemma getitem_elem {A} (a : list A) (i : Z) (v : A) :
  np.getitem a i = Ok v -> v ∈ a.
Proof.
  unfold np.getitem. destruct (_ <? 0); [discriminate|].
  destruct (a !! _) as [w|] eqn:E; [|discriminate].
  intros [= <-]. eapply list_elem_of_lookup_2, E.
Qed.

Lemma read_pixel_in_range (f : frame) (y x : Z) :
  frame_shape f -> 0 <= y < HEIGHT -> 0 <= x < WIDTH ->
  returns (read_pixel f y x).
Proof.
  intros [Hh Hw] Hy Hx. unfold read_pixel.
  replace (np.intp y && np.intp x) with true.
  2:{ symmetry. unfold np.intp, HEIGHT, WIDTH in *.
      rewrite !andb_true_iff, !Z.leb_le, !Z.ltb_lt. lia. }
  destruct (getitem_in_range f y) as [row Hrow]; [lia|].
  rewrite Hrow. cbn [mbind result_bind].
  apply getitem_in_range.
  apply getitem_elem in Hrow. rewrite Forall_forall in Hw.
  rewrite (Hw row Hrow). exact Hx.
Qed.

Lemma for_range_from_inv {S} (body : nat -> S -> result S)
    (Inv : nat -> S -> Prop) (n : nat) : forall (i : nat) (s : S),
  Inv i s ->
  (forall j t, (i <= j < i + n)%nat -> Inv j t ->
               exists t', body j t = Ok t' /\ Inv (Datatypes.S j) t') ->
  exists s', for_range_from body i n s = Ok s' /\ Inv (i + n)%nat s'.
Proof.
  induction n as [|n IH]; intros i s Hs Hbody.
  - exists s. rewrite Nat.add_0_r. auto.
  - destruct (Hbody i s) as (t & Et & Ht); [lia|assumption|].
    cbn [for_range_from]. rewrite Et. cbn [mbind result_bind].
    destruct (IH (Datatypes.S i) t Ht) as (s' & Es & Hs').
    + intros j u Hj Hu. apply Hbody; [lia|assumption].
    + exists s'. rewrite Nat.add_succ_r. auto.
Qed.

Lemma compute_errors_returns (N : nat) (ps : list particle) (f : frame) :
  length ps = N -> Forall in_frame ps -> frame_shape f ->
  exists errors, compute_errors N ps f = Ok errors /\ length errors = N.
Proof.
  intros Hlen Hps Hf. unfold compute_errors, for_range.
  destruct (for_range_from_inv (compute_errors_body ps f)
              (fun _ errs => length errs = N) N 0 (np.zeros N))
    as (errors & E & Hinv).
  - unfold np.zeros. apply length_replicate.
  - intros j errs Hj Herrs.
    destruct (lookup_lt_is_Some_2 ps j) as [p Hp]; [lia|].
    rewrite Forall_forall in Hps.
    destruct (pixel_index p) as (x & y & Ex & Ey & Hx & Hy).
    { apply Hps. eapply list_elem_of_lookup_2, Hp. }
    destruct (read_pixel_in_range f y x Hf Hy Hx) as [c Ec].
    unfold compute_errors_body.
    rewrite getitem_nat, Hp. cbn [mbind result_bind].
    rewrite Ex. cbn [mbind result_bind]. rewrite Ey. cbn [mbind result_bind].
    rewrite Ec. cbn [mbind result_bind].
    rewrite setitem_lt by lia. eexists. split; [reflexivity|].
    rewrite length_insert. assumption.
  - exists errors. auto.
Qed.

(** ** compute_weights *)

Lemma foldl_maximum_elem (a : list float) : forall x,
  foldl np.maximum x a ∈ x :: a.
Proof.
  induction a as [|y a IH]; intros x; simpl.
  - left.
  - pose proof (IH (np.maximum x y)) as H.
    set (r := foldl np.maximum (np.maximum x y) a) in *.
    assert (E : np.maximum x y = x \/ np.maximum x y = y)
      by (unfold np.maximum; destruct (_ || _); auto).
    apply elem_of_cons in H as [H|H].
    + rewrite H. destruct E as [-> | ->]; [left | right; left].
    + right; right; exact H.
Qed.

Lemma max_elem (a : list float) (m : float) : np.max a = Ok m -> m ∈ a.
Proof.
  destruct a as [|x a]; [discriminate|]. intros [= <-]. apply foldl_maximum_elem.
Qed.

Lemma compute_weights_spec (ps : list particle) (errors : list float) :
  length errors = length ps -> errors <> [] ->
  exists m, np.max errors = Ok m /\
            compute_weights ps errors = Ok (zip_with (weight m) ps errors).
Proof.
  intros Hlen Hne. unfold compute_weights.
  destruct errors as [|e0 errors]; [congruence|].
  remember (e0 :: errors) as es eqn:Hes.
  exists (foldl np.maximum e0 errors). split; [subst es; reflexivity|].
  replace (np.max es) with (Ok (foldl np.maximum e0 errors)) by (subst es; reflexivity).
  cbn [mbind result_bind]. generalize (foldl np.maximum e0 errors) as m. intros m.
  unfold mask_assign. rewrite !length_map.
  destruct (Nat.eqb_spec (length ps) (length es)); [|congruence].
  cbn [mbind result_bind]. f_equal. clear Hes Hne e.
  revert es Hlen. induction ps as [|p ps IH]; intros [|e es] Hlen; try discriminate.
  - reflexivity.
  - simpl. unfold weight at 1. destruct (on_edge p); f_equal; apply IH; simpl in Hlen; lia.
Qed.

Lemma weight_nonneg (m e : float) (p : particle) :
  is_finite m = true -> is_finite e = true -> (zero <=? weight m p e)%flt = true.
Proof.
  intros Hm He. unfold weight. apply has_sign_nonneg, pow4_sign.
  destruct (on_edge p); [reflexivity|]. apply sub_finite_not_nan; assumption.
Qed.

Lemma weight_edge (m e : float) (p : particle) :
  on_edge p = true -> weight m p e = zero.
Proof. intros H. unfold weight. rewrite H. reflexivity. Qed.

(** Equal finite values differ at most in the sign of a zero. *)
Lemma eqb_finite (a b : float) :
  is_finite b = true -> (a =? b)%flt = true ->
  is_finite a = true /\ (a = b \/ (is_zero a = true /\ is_zero b = true)).
Proof.
  unfold Float64.eqb, SFeqb.
  destruct a as [sa|sa| |sa ma ea], b as [sb|sb| |sb mb eb]; try discriminate;
    intros _ H; simpl in H;
    try (destruct sa; discriminate); try (destruct sb; discriminate).
  - split; [reflexivity|]. right. split; reflexivity.
  - split; [reflexivity|]. left.
    assert (Hs : sa = sb) by (destruct sa, sb; congruence). subst sb.
    destruct (Z.compare_spec ea eb) as [->|?|?];
      try (destruct sa; discriminate).
    change (Pos.compare_cont Eq ma mb) with (Pos.compare ma mb) in H.
    destruct (Pos.compare_spec ma mb) as [->|?|?];
      try (destruct sa; discriminate).
    reflexivity.
Qed.

Lemma sub_equal (m e c : float) :
  is_finite c = true -> (m =? c)%flt = true -> (e =? c)%flt = true ->
  is_zero (m - e)%flt = true.
Proof.
  intros Hc Hm He.
  destruct (eqb_finite m c Hc Hm) as [Fm [->|[Zm Zc]]];
    destruct (eqb_finite e c Hc He) as [Fe [->|[Ze Zc']]].
  - rewrite sub_diag by assumption. reflexivity.
  - destruct c, e; try discriminate. destruct s, s0; reflexivity.
  - destruct c, m; try discriminate. destruct s, s0; reflexivity.
  - destruct m, e; try discriminate. destruct s, s0; reflexivity.
Qed.

Lemma pow4_of_zero (x : float) : is_zero x = true -> pow4 x = zero.
Proof. destruct x; try discriminate; reflexivity. Qed.

(** ** np.sum: some grouping of the additions *)

Lemma neg_zero_add (x : float) : (neg_zero + x)%flt = x.
Proof. destruct x as [[]|[]| |s m e]; reflexivity. Qed.

Lemma foldl_sums (xs : list float) : forall (l : list float) (acc : float),
  sums l acc -> sums (l ++ xs) (foldl Float64.add acc xs).
Proof.
  induction xs as [|x xs IH]; intros l acc H; cbn [foldl].
  - rewrite app_nil_r. exact H.
  - replace (l ++ x :: xs) with ((l ++ [x]) ++ xs)
      by (rewrite <- app_assoc; reflexivity).
    apply IH. apply sums_add; [exact H | apply sums_one].
Qed.

Lemma short_sums (a : list float) :
  a <> [] -> sums a (foldl Float64.add neg_zero a).
Proof.
  destruct a as [|x a]; [congruence|intros _].
  cbn [foldl]. rewrite neg_zero_add.
  apply (foldl_sums a [x]), sums_one.
Qed.

Lemma sum_blocks_sums (n : nat) :
  forall (a l0 l1 l2 l3 l4 l5 l6 l7 : list float)
         (r0 r1 r2 r3 r4 r5 r6 r7 : float),
  (length a <= n)%nat ->
  sums l0 r0 -> sums l1 r1 -> sums l2 r2 -> sums l3 r3 ->
  sums l4 r4 -> sums l5 r5 -> sums l6 r6 -> sums l7 r7 ->
  sums (l0 ++ l1 ++ l2 ++ l3 ++ l4 ++ l5 ++ l6 ++ l7 ++ a)
       (np.sum_blocks r0 r1 r2 r3 r4 r5 r6 r7 a).
Proof.
  induction n as [|n IH]; intros a l0 l1 l2 l3 l4 l5 l6 l7
    r0 r1 r2 r3 r4 r5 r6 r7 Hlen H0 H1 H2 H3 H4 H5 H6 H7.
  all: assert (Hacc : sums (((l0 ++ l1) ++ (l2 ++ l3)) ++ ((l4 ++ l5) ++ (l6 ++ l7)))
                        (((r0 + r1) + (r2 + r3)) + ((r4 + r5) + (r6 + r7)))%flt)
         by (repeat apply sums_add; assumption).
  all: destruct a as [|x0 [|x1 [|x2 [|x3 [|x4 [|x5 [|x6 [|x7 a]]]]]]]];
    try (cbn [length] in Hlen; lia);
    try (cbn [np.sum_blocks];
         eapply sums_perm; [|apply foldl_sums; exact Hacc];
         rewrite <- !app_assoc; reflexivity).
  cbn [np.sum_blocks].
  eapply sums_perm; [|apply (IH a (l0 ++ [x0]) (l1 ++ [x1]) (l2 ++ [x2])
                            (l3 ++ [x3]) (l4 ++ [x4]) (l5 ++ [x5])
                            (l6 ++ [x6]) (l7 ++ [x7]));
                      [cbn [length] in Hlen; lia|..];
                      apply sums_add; (assumption || apply sums_one)].
  rewrite <- !app_assoc. cbn [app]. solve_Permutation.
Qed.

Lemma split_point (n : nat) :
  (128 < n)%nat ->
  (0 < n / 2 - (n / 2) mod 8 < n)%nat.
Proof.
  intros Hn.
  pose proof (Nat.mod_upper_bound (n / 2) 8 ltac:(lia)).
  pose proof (Nat.Div0.div_lt_upper_bound n 2 n ltac:(lia)).
  assert (64 <= n / 2)%nat by (apply Nat.div_le_lower_bound; lia).
  lia.
Qed.

Lemma pairwise_sums (fuel : nat) : forall a : list float,
  a <> [] -> (length a <= fuel)%nat -> sums a (np.pairwise_sum fuel a).
Proof.
  induction fuel as [|fuel IH]; intros a Hne Hlen.
  { destruct a; [congruence|cbn [length] in Hlen; lia]. }
  destruct a as [|x0 [|x1 [|x2 [|x3 [|x4 [|x5 [|x6 [|x7 a]]]]]]]];
    try (apply short_sums; assumption).
  cbn [np.pairwise_sum].
  set (xs := x0 :: x1 :: x2 :: x3 :: x4 :: x5 :: x6 :: x7 :: a) in *.
  destruct (Nat.leb_spec (length xs) 128) as [_|Hbig].
  - apply (sum_blocks_sums (length a) a [x0] [x1] [x2] [x3] [x4] [x5] [x6] [x7]);
      [lia|..]; apply sums_one.
  - destruct (split_point (length xs) Hbig) as [Hlo Hhi].
    set (n2 := (length xs / 2 - (length xs / 2) mod 8)%nat) in *.
    rewrite <- (take_drop n2 xs) at 1.
    apply sums_add; apply IH.
    + intros E. apply (f_equal length) in E. rewrite length_take in E.
      cbn [length] in E. lia.
    + rewrite length_take. lia.
    + intros E. apply (f_equal length) in E. rewrite length_drop in E.
      cbn [length] in E. lia.
    + rewrite length_drop. lia.
Qed.

(** More fuel than the length changes nothing. *)
Lemma pairwise_sum_fuel (f1 : nat) : forall (f2 : nat) (a : list float),
  (length a <= f1)%nat -> (length a <= f2)%nat ->
  np.pairwise_sum f1 a = np.pairwise_sum f2 a.
Proof.
  induction f1 as [|f1 IH]; intros f2 a H1 H2.
  { destruct a; [destruct f2; reflexivity|cbn [length] in H1; lia]. }
  destruct a as [|x0 [|x1 [|x2 [|x3 [|x4 [|x5 [|x6 [|x7 a]]]]]]]];
    try (destruct f2; reflexivity).
  destruct f2 as [|f2]; [cbn [length] in H2; lia|].
  cbn [np.pairwise_sum].
  set (xs := x0 :: x1 :: x2 :: x3 :: x4 :: x5 :: x6 :: x7 :: a) in *.
  destruct (Nat.leb_spec (length xs) 128) as [_|Hbig]; [reflexivity|].
  destruct (split_point (length xs) Hbig) as [Hlo Hhi].
  set (n2 := (length xs / 2 - (length xs / 2) mod 8)%nat) in *.
  f_equal; apply IH; rewrite ?length_take, ?length_drop; lia.
Qed.

Lemma sum_sums (a : list float) : a <> [] -> sums a (np.sum a).
Proof.
  intros Hne. unfold np.sum. destruct a as [|x a]; [congruence|].
  rewrite neg_zero_add. apply pairwise_sums; [assumption|lia].
Qed.


Lemma sums_plus_zero (l : list float) (r : float) :
  sums l r -> Forall (fun w => w = zero) l -> r = zero.
Proof.
  induction 1 as [x | l1 l2 a b _ IH1 _ IH2 | l l' a Hp _ IH]; intros Hall.
  - apply Forall_inv in Hall. exact Hall.
  - apply Forall_app in Hall as [Ha Hb]. rewrite (IH1 Ha), (IH2 Hb). reflexivity.
  - apply IH. rewrite Hp. exact Hall.
Qed.

Lemma sum_plus_zeros (ws : list float) :
  Forall (fun w => w = zero) ws -> np.sum ws = zero.
Proof.
  intros Hall. destruct ws as [|w ws]; [reflexivity|].
  eapply sums_plus_zero; [apply sum_sums; discriminate | exact Hall].
Qed.

(** ** resample *)

Lemma bind_Ok {A B} (m : result A) (f : A -> result B) (b : B) :
  m ≫= f = Ok b -> exists a, m = Ok a /\ f a = Ok b.
Proof. destruct m as [a|e]; [eauto | discriminate]. Qed.

Lemma take_Ok {A} (a : list A) (idx : list nat) : forall vs,
  np.take a idx = Ok vs ->
  length vs = length idx /\
  forall j v, vs !! j = Some v -> exists i, idx !! j = Some i /\ a !! i = Some v.
Proof.
  induction idx as [|i idx IH]; intros vs H.
  - injection H as <-. split; [reflexivity|]. intros j v Hj. discriminate Hj.
  - cbn [np.take] in H.
    apply bind_Ok in H as (v0 & Hv0 & H).
    apply bind_Ok in H as (vs0 & Hvs0 & H). injection H as <-.
    destruct (IH _ Hvs0) as [Hlen Hall].
    rewrite getitem_nat in Hv0. destruct (a !! i) as [w|] eqn:Hw; [|discriminate].
    injection Hv0 as ->.
    split; [simpl; congruence|].
    intros [|j] v Hj.
    + injection Hj as <-. exists i. auto.
    + apply Hall. exact Hj.
Qed.

Lemma resample_Ok (N : nat) ps ws drawn ps' est :
  resample N ps ws drawn = Ok (ps', est) ->
  np.check_p N (probabilities ws) = Ok tt /\
  np.take ps drawn = Ok ps' /\
  centroid ps' = Ok est.
Proof.
  unfold resample, np.random_choice, centroid. intros H.
  apply bind_Ok in H as (indices & Hc & H).
  apply bind_Ok in Hc as ([] & Hc & Hi). injection Hi as <-.
  apply bind_Ok in H as (qs & Ht & H).
  apply bind_Ok in H as (xi & Hx & H).
  apply bind_Ok in H as (yi & Hy & H).
  injection H as <- <-. rewrite Hx, Hy. auto.
Qed.

(** Sums of zeros. *)
Lemma add_zero_zero (a b : float) :
  is_zero a = true -> is_zero b = true -> is_zero (a + b)%flt = true.
Proof. destruct a as [[]| | |], b as [[]| | |]; try discriminate; reflexivity. Qed.

Lemma sums_zero (l : list float) (r : float) :
  sums l r -> Forall (fun w => is_zero w = true) l -> is_zero r = true.
Proof.
  induction 1 as [x | l1 l2 a b _ IH1 _ IH2 | l l' a Hp _ IH]; intros Hall.
  - apply Forall_inv in Hall. exact Hall.
  - apply Forall_app in Hall as [Ha Hb]. apply add_zero_zero; auto.
  - apply IH. rewrite Hp. exact Hall.
Qed.

Lemma sum_zeros (ws : list float) :
  Forall (fun w => is_zero w = true) ws -> is_zero (np.sum ws) = true.
Proof.
  intros Hall. destruct ws as [|w ws]; [reflexivity|].
  eapply sums_zero; [apply sum_sums; discriminate | exact Hall].
Qed.

Lemma div_zero_zero (a b : float) :
  is_zero a = true -> is_zero b = true -> (a / b)%flt = nan.
Proof. destruct a, b; try discriminate; reflexivity. Qed.

Lemma probabilities_zeros (ws : list float) :
  Forall (fun w => is_zero w = true) ws ->
  probabilities ws = map (fun _ => nan) ws.
Proof.
  intros Hall. unfold probabilities.
  pose proof (sum_zeros ws Hall) as Hs. revert Hs. generalize (np.sum ws) as s.
  intros s Hs. induction Hall as [|w ws Hw Hall IH]; [reflexivity|].
  simpl. rewrite IH, div_zero_zero by assumption. reflexivity.
Qed.

Lemma kahan_sum_nan (p : list float) :
  p <> [] -> Forall (fun q => q = nan) p -> np.kahan_sum p = nan.
Proof.
  destruct p as [|x p]; [congruence|]. intros _ Hall.
  inversion Hall as [|? ? Hx Hp]; subst. unfold np.kahan_sum.
  generalize zero as c. clear Hall.
  induction Hp as [|d p Hd Hp IH]; intros c; [reflexivity|].
  subst d. simpl.
  replace (nan + (nan - c))%flt with nan by (destruct c; reflexivity).
  apply IH.
Qed.

Lemma check_p_nan (N : nat) (p : list float) :
  Forall (fun q => q = nan) p -> np.check_p N p = Raise ValueError.
Proof.
  intros Hall. unfold np.check_p.
  destruct (length p =? N)%nat eqn:Hlen; [|reflexivity]. cbn [negb].
  destruct p as [|x p].
  - reflexivity.
  - rewrite kahan_sum_nan by (congruence || assumption). reflexivity.
Qed.

(** ** Products and differences of initialize_particles *)

Lemma ltb_finite (m1 m2 : positive) (e1 e2 : Z) :
  (S754_finite false m1 e1 <? S754_finite false m2 e2)%flt = true ->
  e1 < e2 \/ (e1 = e2 /\ Zpos m1 < Zpos m2).
Proof.
  unfold Float64.ltb, SFltb, SFcompare.
  destruct (Z.compare_spec e1 e2); try discriminate; [|lia].
  change (Pos.compare_cont Eq m1 m2) with (Pos.compare m1 m2).
  destruct (Pos.compare_spec m1 m2); try discriminate. lia.
Qed.

Lemma unit_interval_cases (u : float) :
  unit_interval u ->
  is_zero u = true \/
  exists m e, u = S754_finite false m e /\ Zpos m < 2 ^ 53 /\ -1074 <= e <= -53.
Proof.
  intros (Hv & H0 & H1). destruct u as [s|s| |s m e]; try discriminate.
  - left. reflexivity.
  - destruct s; discriminate.
  - right. destruct s; [discriminate|]. exists m, e. split; [reflexivity|].
    apply float64_finite in Hv as (Hm & He & Hn). split; [assumption|].
    apply ltb_finite in H1. change (Z.pos 4503599627370496) with (2 ^ 52) in H1.
    lia.
Qed.

Lemma mul_unit (u : float) (mc : positive) (ec : Z) :
  unit_interval u ->
  2 ^ 52 <= Zpos mc < 2 ^ 53 -> -1074 < ec <= 971 ->
  (zero <=? u * S754_finite false mc ec)%flt = true /\
  at_most (Zpos mc) ec (u * S754_finite false mc ec)%flt /\
  (2 ^ 52 < Zpos mc -> at_most (Zpos mc - 1) ec (u * S754_finite false mc ec)%flt).
Proof.
  intros Hu Hmc Hec.
  destruct (unit_interval_cases u Hu) as [Hz|(m & e & -> & Hm & He)].
  - destruct u as [s| | |]; try discriminate. destruct s; simpl; auto.
  - unfold Float64.mul, SFmul. cbn [xorb]. rewrite Pos2Z.inj_mul.
    set (P := Zpos m * Zpos mc).
    assert (HP : 2 ^ 52 <= P < 2 ^ 106).
    { unfold P. change (2 ^ 106) with (2 ^ 53 * 2 ^ 53). nia. }
    assert (Hd1 : 53 <= Zdigits2 P) by (apply Zdigits2_ge; simpl; lia).
    assert (Hd2 : Zdigits2 P <= 106) by (apply Zdigits2_le; lia).
    destruct (binary_round_aux_exact false P (e + ec)) as (m1 & Hn & Hm1 & ->);
      [lia | rewrite fexp_eq; lia |].
    rewrite fexp_eq in *.
    set (f := Z.max (Zdigits2 P + (e + ec) - 53) (-1074)) in *.
    split; [apply pack_nonneg|].
    assert (Hf : f < ec \/ (f = ec /\ Zdigits2 P = 106 /\ e = -53)) by lia.
    assert (Hcase : f < ec \/
                    (f = ec /\ m1 <= Zpos mc /\ (2 ^ 52 < Zpos mc -> m1 <= Zpos mc - 1))).
    { destruct Hf as [Hf|(Hf & Hd & Hev)]; [left; assumption|right].
      split; [assumption|].
      replace (f - (e + ec)) with 53 in Hn by lia.
      destruct Hn as [Hlo _]. unfold P in Hlo. split; [nia|intros; nia]. }
    split; [|intros Hs]; apply pack_at_most; try lia.
Qed.

Lemma binary_round_pow2 (s : bool) (X : positive) (e k : Z) :
  0 <= k - e -> Zpos X <= 2 ^ (k - e) -> -1022 <= k <= 1023 ->
  at_most (2 ^ 52) (k - 52) (binary_round prec emax s X e).
Proof.
  intros Hke HX Hk. unfold binary_round.
  change (Zpos (digits2_pos X)) with (Zdigits2 (Zpos X)).
  set (f := fexp prec emax (Zdigits2 (Zpos X) + e)).
  destruct (shl_align_spec X e f) as (mz & -> & Hmz).
  set (ez := Z.min e f) in *.
  assert (Hf : f = Z.max (Zdigits2 (Zpos X) + e - 53) (-1074)) by apply fexp_eq.
  assert (Hdz : Zdigits2 (Zpos mz) + ez = Zdigits2 (Zpos X) + e).
  { rewrite Hmz, Zdigits2_shift by lia. lia. }
  assert (HdX : Zdigits2 (Zpos X) <= k - e + 1).
  { apply Zdigits2_le; try lia. rewrite Z.pow_add_r, Z.pow_1_r by lia. lia. }
  destruct (binary_round_aux_exact s (Zpos mz) ez) as (m1 & Hn & Hm1 & ->);
    [lia | rewrite Hdz; fold f; lia |].
  rewrite Hdz. fold f. rewrite Hdz in Hn. fold f in Hn.
  apply pack_at_most; try lia.
  destruct (Z.eq_dec f (k - 52)) as [Ef|Nf]; [right|left; lia].
  split; [assumption|].
  assert (Hm1' : m1 <= 2 ^ 52); [|lia].
  destruct Hn as [Hlo _].
  assert (Hp : 0 < 2 ^ (f - ez)) by (apply Z.pow_pos_nonneg; lia).
  assert (Hz : Zpos mz <= 2 ^ (f - ez) * 2 ^ 52).
  { rewrite Hmz, <- Z.pow_add_r by lia.
    replace (f - ez + 52) with (k - e + (e - ez)) by lia.
    rewrite Z.pow_add_r by lia.
    apply Z.mul_le_mono_nonneg_r; [apply Z.pow_nonneg; lia | assumption]. }
  nia.
Qed.

Lemma half_range_eq : half_range = S754_finite false 4503599627370496 (-54).
Proof. reflexivity. Qed.

Lemma sub_half_range (t : float) :
  (zero <=? t)%flt = true -> at_most (2 ^ 52) (-53) t ->
  (Float64.abs (t - half_range) <=? half_range)%flt = true.
Proof.
  rewrite half_range_eq. intros H0 Ht.
  destruct t as [s|s| |s m e]; try contradiction.
  - reflexivity.
  - destruct s; [discriminate|]. destruct Ht as [Hm He].
    apply at_most_abs_leb. change (Z.pos 4503599627370496) with (2 ^ 52).
    unfold Float64.sub, SFsub. cbn [cond_Zopp].
    set (ez := Z.min e (-54)).
    destruct (shl_align_spec m e ez) as (a & -> & Ha).
    destruct (shl_align_spec 4503599627370496 (-54) ez) as (b & -> & Hb).
    cbn [fst].
    replace (Z.min e ez) with ez in Ha by lia.
    replace (Z.min (-54) ez) with ez in Hb by lia.
    change (Z.pos 4503599627370496) with (2 ^ 52) in Hb.
    assert (HD : Z.abs (Zpos a - Zpos b) <= 2 ^ (-2 - ez)).
    { destruct (Z.le_gt_cases e (-54)) as [Hle|Hgt].
      - replace ez with e in * by lia.
        rewrite Z.sub_diag in Ha. rewrite <- Z.pow_add_r in Hb by lia.
        replace (52 + (-54 - e)) with (-2 - e) in Hb by lia.
        assert (2 ^ 53 <= 2 * 2 ^ (-2 - e)).
        { rewrite <- Z.pow_succ_r by lia. apply Z.pow_le_mono_r; lia. }
        lia.
      - replace ez with (-54) in * by lia.
        replace (e - -54) with 1 in Ha by lia.
        change (-54 - -54) with 0 in Hb. change (-2 - -54) with 52. lia. }
    destruct (Zpos a - Zpos b) as [|p|p]; cbn [binary_normalize].
    + exact I.
    + apply (binary_round_pow2 false p ez (-2)); lia.
    + apply (binary_round_pow2 true p ez (-2)); lia.
Qed.

Lemma scaled_position (u : float) (n : Z) (mc : positive) (ec : Z) :
  of_int n = S754_finite false mc ec ->
  2 ^ 52 < Zpos mc < 2 ^ 53 -> -1074 < ec <= 971 ->
  unit_interval u ->
  (zero <=? u * of_int n)%flt = true /\ (u * of_int n <? of_int n)%flt = true.
Proof.
  intros -> Hmc Hec Hu.
  destruct (mul_unit u mc ec Hu) as (H0 & _ & Hlt); try lia.
  split; [assumption|]. apply at_most_ltb; auto. apply Hlt. lia.
Qed.

Lemma scaled_velocity (u : float) :
  unit_interval u ->
  (Float64.abs (u * VEL_RANGE - half_range) <=? half_range)%flt = true.
Proof.
  intros Hu. unfold VEL_RANGE.
  destruct (mul_unit u (2 ^ 52) (-53) Hu) as (H0 & Hle & _); try (simpl; lia).
  apply sub_half_range; assumption.
Qed.

(** ** From one stage to the next *)

Lemma clamp_float64 (hi : Z) (v : float) :
  0 < hi -> (of_int 0 <? of_int hi)%flt = true ->
  is_float64 (of_int hi) -> is_float64 v -> is_float64 (clamp hi v).
Proof.
  intros H1 H2 Hhi Hv.
  destruct (clamp_cases hi H1 v) as [(-> & _) | [-> | ->]];
    [assumption | reflexivity | assumption].
Qed.

Lemma clamp_particle_in_frame (p : particle) :
  is_float64 (p_x p) -> is_float64 (p_y p) -> in_frame (clamp_particle p).
Proof.
  intros Hx Hy. destruct width_edge as [Hw Hwf], height_edge as [Hh Hhf].
  destruct (clamp_range _ Hw Hwf (p_x p)) as [Hx0 Hx1].
  destruct (clamp_range _ Hh Hhf (p_y p)) as [Hy0 Hy1].
  unfold in_frame, clamp_particle; cbn [p_x p_y].
  repeat split; try assumption; apply clamp_float64; try assumption; reflexivity.
Qed.

Lemma of_int_finite (z : Z) : 0 <= z <= 2 ^ 1023 -> is_finite (of_int z) = true.
Proof.
  intros Hz. unfold of_int. destruct z as [|p|p]; try lia; [reflexivity|].
  cbn [binary_normalize].
  pose proof (binary_round_pow2 false p 0 1023) as H.
  destruct (binary_round prec emax false p 0); try reflexivity;
    exfalso; apply H; rewrite ?Z.sub_0_r; lia.
Qed.

Lemma channel_error_range (t c : Z) :
  uint8 t -> uint8 c -> 0 <= (t - c) ^ 2 <= 65025.
Proof.
  unfold uint8. intros Ht Hc. rewrite Z.pow_2_r.
  assert (0 <= (255 - (t - c)) * (255 + (t - c)))
    by (apply Z.mul_nonneg_nonneg; lia).
  pose proof (Z.square_nonneg (t - c)). lia.
Qed.

Lemma colour_error_range (c : pixel) :
  uint8 c.1.1 /\ uint8 c.1.2 /\ uint8 c.2 -> 0 <= colour_error c <= 2 ^ 1023.
Proof.
  destruct c as [[c0 c1] c2]. unfold colour_error, TARGET_COLOUR.
  cbn [fst snd]. intros (H0 & H1 & H2).
  assert (Hbig : 2 ^ 18 <= 2 ^ 1023) by (apply Z.pow_le_mono_r; lia).
  change (2 ^ 18) with 262144 in Hbig. revert Hbig. generalize (2 ^ 1023).
  intros big Hbig.
  pose proof (channel_error_range 189 c0 ltac:(unfold uint8; lia) H0).
  pose proof (channel_error_range 105 c1 ltac:(unfold uint8; lia) H1).
  pose proof (channel_error_range 82 c2 ltac:(unfold uint8; lia) H2).
  lia.
Qed.

Lemma for_range_from_Ok {S} (body : nat -> S -> result S) (Inv : S -> Prop)
    (n : nat) : forall (i : nat) (s s' : S),
  (forall j t t', body j t = Ok t' -> Inv t -> Inv t') ->
  Inv s -> for_range_from body i n s = Ok s' -> Inv s'.
Proof.
  induction n as [|n IH]; intros i s s' Hbody Hs H; cbn [for_range_from] in H.
  - injection H as <-. exact Hs.
  - apply bind_Ok in H as (t & Ht & H).
    apply (IH (Datatypes.S i) t s' Hbody); [eapply Hbody; eassumption | exact H].
Qed.

Lemma compute_errors_finite (N : nat) (ps : list particle) (f : frame)
    (errors : list float) :
  frame_uint8 f -> compute_errors N ps f = Ok errors ->
  Forall (fun e => is_finite e = true) errors.
Proof.
  intros Hf. unfold compute_errors, for_range.
  apply for_range_from_Ok.
  - intros j t t' Hb Ht. unfold compute_errors_body in Hb.
    apply bind_Ok in Hb as (p & _ & Hb). apply bind_Ok in Hb as (x & _ & Hb).
    apply bind_Ok in Hb as (p' & _ & Hb). apply bind_Ok in Hb as (y & _ & Hb).
    apply bind_Ok in Hb as (c & Hc & Hb).
    unfold setitem in Hb. destruct (_ <? _)%nat; [|discriminate].
    injection Hb as <-. apply Forall_insert; [assumption|].
    apply of_int_finite, colour_error_range.
    unfold read_pixel in Hc. destruct (_ && _); [|discriminate].
    apply bind_Ok in Hc as (row & Hrow & Hc).
    apply getitem_elem in Hrow, Hc.
    unfold frame_uint8 in Hf. rewrite Forall_forall in Hf.
    specialize (Hf row Hrow). rewrite Forall_forall in Hf. exact (Hf c Hc).
  - unfold np.zeros. apply Forall_replicate. reflexivity.
Qed.

(** ** Rows inside and outside the frame *)

Lemma clamp_inside (hi : Z) (v : float) :
  (of_int 0 <? v)%flt = true -> (v <? of_int hi)%flt = true -> clamp hi v = v.
Proof.
  intros H0 H1. unfold clamp, py_min, py_max, py_lt, to_float.
  rewrite H1, H0. reflexivity.
Qed.

Lemma clamp_particle_inside (p : particle) :
  strictly_inside p -> clamp_particle p = p.
Proof.
  intros (Hx0 & Hx1 & Hy0 & Hy1). destruct p as [x y vx vy].
  unfold clamp_particle; cbn [p_x p_y p_vx p_vy] in *.
  rewrite !clamp_inside by assumption. reflexivity.
Qed.

Lemma map_clamp_inside (ps : list particle) :
  Forall strictly_inside ps -> map clamp_particle ps = ps.
Proof.
  induction 1 as [|p ps Hp _ IH]; [reflexivity|].
  simpl. rewrite clamp_particle_inside by exact Hp. rewrite IH. reflexivity.
Qed.

Lemma eqb_refl (a : float) : is_nan a = false -> (a =? a)%flt = true.
Proof. intros H. unfold Float64.eqb, SFeqb. rewrite SFcompare_refl; auto. Qed.

(** A clamped coordinate that moved sits on an edge. *)
Lemma clamp_pinned (hi : Z) (v : float) :
  0 < hi -> is_nan (of_int hi) = false ->
  ((of_int 0 <? v)%flt = true /\ (v <? of_int hi)%flt = true) \/
  (clamp hi v =? of_int 0)%flt = true \/ (clamp hi v =? of_int hi)%flt = true.
Proof.
  intros Hhi Hn.
  destruct (clamp_cases hi Hhi v) as [(_ & H0 & H1) | [-> | ->]].
  - left. auto.
  - right; left. reflexivity.
  - right; right. apply eqb_refl, Hn.
Qed.

Lemma clamp_particle_on_edge (p : particle) :
  strictly_inside p \/ on_edge (clamp_particle p) = true.
Proof.
  destruct (clamp_pinned (WIDTH - 1) (p_x p)) as [Hx | Hx];
    [reflexivity | reflexivity | |].
  - destruct (clamp_pinned (HEIGHT - 1) (p_y p)) as [Hy | Hy];
      [reflexivity | reflexivity | |].
    + left. unfold strictly_inside. tauto.
    + right. unfold on_edge, clamp_particle; cbn [p_x p_y].
      destruct Hy as [-> | ->]; rewrite ?orb_true_r; reflexivity.
  - right. unfold on_edge, clamp_particle; cbn [p_x p_y].
    destruct Hx as [-> | ->]; rewrite ?orb_true_r; reflexivity.
Qed.

(** ** compute_errors, row by row *)

Lemma for_range_from_Ok_upto {S} (body : nat -> S -> result S)
    (Inv : nat -> S -> Prop) (n : nat) : forall (i : nat) (s s' : S),
  (forall j t t', (i <= j < i + n)%nat -> body j t = Ok t' -> Inv j t ->
                  Inv (Datatypes.S j) t') ->
  Inv i s -> for_range_from body i n s = Ok s' -> Inv (i + n)%nat s'.
Proof.
  induction n as [|n IH]; intros i s s' Hbody Hs H; cbn [for_range_from] in H.
  - injection H as <-. rewrite Nat.add_0_r. exact Hs.
  - apply bind_Ok in H as (t & Ht & H).
    rewrite Nat.add_succ_r.
    apply (IH (Datatypes.S i) t s'); [|eapply Hbody; eauto; lia| exact H].
    intros j u u' Hj. apply Hbody. lia.
Qed.

Lemma compute_errors_rows (N : nat) (ps : list particle) (f : frame)
    (errors : list float) :
  compute_errors N ps f = Ok errors ->
  length errors = N /\
  forall i, (i < N)%nat -> exists e, errors !! i = Some e /\ scored ps f i e.
Proof.
  unfold compute_errors, for_range. intros H.
  apply (for_range_from_Ok_upto _
           (fun j errs => length errs = N /\
              forall i, (i < j)%nat ->
                exists e, errs !! i = Some e /\ scored ps f i e)) in H.
  - exact H.
  - intros j t t' Hj Hb [Hlen Hrows]. unfold compute_errors_body in Hb.
    apply bind_Ok in Hb as (p & Hp & Hb). apply bind_Ok in Hb as (x & Hx & Hb).
    apply bind_Ok in Hb as (p' & Hp' & Hb). apply bind_Ok in Hb as (y & Hy & Hb).
    apply bind_Ok in Hb as (c & Hc & Hb).
    assert (p' = p) as -> by congruence.
    rewrite getitem_nat in Hp. destruct (ps !! j) as [q|] eqn:Hq; [|discriminate].
    injection Hp as ->.
    unfold setitem in Hb. destruct (Nat.ltb_spec j (length t)); [|discriminate].
    injection Hb as <-. split; [rewrite length_insert; exact Hlen|].
    intros i Hi. destruct (Nat.eq_dec i j) as [->|Hne].
    + eexists. split; [apply list_lookup_insert_eq; assumption|].
      exists p, x, y, c. auto.
    + rewrite list_lookup_insert_ne by congruence. apply Hrows. lia.
  - split; [apply length_replicate|]. intros i Hi. lia.
Qed.

(** ** Conversions of small integers are exact *)

Lemma nearest_0 (m m1 : Z) : nearest m 0 m1 -> m1 = m.
Proof. unfold nearest. rewrite Z.pow_0_r. lia. Qed.

Lemma binary_round_exact (s : bool) (X : positive) (e : Z) :
  fexp prec emax (Zdigits2 (Zpos X) + e) <= e ->
  fexp prec emax (Zdigits2 (Zpos X) + e) <= 971 ->
  exists m, binary_round prec emax s X e =
              S754_finite s m (fexp prec emax (Zdigits2 (Zpos X) + e)) /\
            Zpos m = Zpos X * 2 ^ (e - fexp prec emax (Zdigits2 (Zpos X) + e)).
Proof.
  intros Hfe Hf. unfold binary_round.
  change (Zpos (digits2_pos X)) with (Zdigits2 (Zpos X)).
  set (f := fexp prec emax (Zdigits2 (Zpos X) + e)) in *.
  destruct (shl_align_spec X e f) as (mz & -> & Hmz).
  replace (Z.min e f) with f in * by lia.
  assert (Hf' : f = Z.max (Zdigits2 (Zpos X) + e - 53) (-1074)) by apply fexp_eq.
  assert (Hdz : Zdigits2 (Zpos mz) + f = Zdigits2 (Zpos X) + e).
  { rewrite Hmz, Zdigits2_shift by lia. lia. }
  destruct (binary_round_aux_exact s (Zpos mz) f) as (m1 & Hn & Hm1 & ->);
    [lia | rewrite Hdz; fold f; lia |].
  rewrite Hdz in *. fold f in Hn |- *. rewrite Z.sub_diag in Hn.
  apply nearest_0 in Hn. subst m1.
  assert (Hlt : Zpos mz < 2 ^ 53).
  { pose proof (Zdigits2_bounds (Zpos mz) ltac:(lia)) as [_ Hhi].
    eapply Z.lt_le_trans; [exact Hhi|]. apply Z.pow_le_mono_r; lia. }
  exists mz. split; [|exact Hmz].
  unfold pack. destruct (Z.eqb_spec (Zpos mz) 0); [lia|].
  destruct (Z.eqb_spec (Zpos mz) (2 ^ 53)); [lia|].
  destruct (Z.leb_spec f 971); [|lia]. reflexivity.
Qed.

Lemma of_int_pos (z : Z) :
  0 < z < 2 ^ 53 ->
  exists m e, of_int z = S754_finite false m e /\
              Zpos m = z * 2 ^ (- e) /\ -52 <= e <= 0 /\
              2 ^ 52 <= Zpos m < 2 ^ 53.
Proof.
  intros Hz. destruct z as [|p|p]; try lia.
  pose proof (Zdigits2_bounds (Zpos p) ltac:(lia)) as [Dlo Dhi].
  pose proof (Zdigits2_pos (Zpos p) ltac:(lia)) as Dpos.
  assert (Hd : Zdigits2 (Zpos p) <= 53) by (apply Zdigits2_le; lia).
  unfold of_int. cbn [binary_normalize].
  destruct (binary_round_exact false p 0) as (m & -> & Hm);
    try (rewrite fexp_eq; lia).
  rewrite fexp_eq in *.
  replace (Z.max (Zdigits2 (Zpos p) + 0 - 53) (-1074))
    with (Zdigits2 (Zpos p) - 53) in * by lia.
  exists m, (Zdigits2 (Zpos p) - 53). split; [reflexivity|].
  replace (0 - (Zdigits2 (Zpos p) - 53)) with (53 - Zdigits2 (Zpos p)) in Hm by lia.
  replace (- (Zdigits2 (Zpos p) - 53)) with (53 - Zdigits2 (Zpos p)) by lia.
  split; [exact Hm|]. split; [lia|].
  rewrite Hm.
  assert (E1 : 2 ^ 52 = 2 ^ (Zdigits2 (Zpos p) - 1) * 2 ^ (53 - Zdigits2 (Zpos p)))
    by (rewrite <- Z.pow_add_r by lia; f_equal; lia).
  assert (E2 : 2 ^ 53 = 2 ^ Zdigits2 (Zpos p) * 2 ^ (53 - Zdigits2 (Zpos p)))
    by (rewrite <- Z.pow_add_r by lia; f_equal; lia).
  assert (Hp : 0 < 2 ^ (53 - Zdigits2 (Zpos p))) by (apply Z.pow_pos_nonneg; lia).
  rewrite E1, E2. split.
  - apply Z.mul_le_mono_nonneg_r; lia.
  - apply Z.mul_lt_mono_pos_r; lia.
Qed.

Lemma of_int_zero_iff (z : Z) : 0 <= z < 2 ^ 53 -> of_int z = zero <-> z = 0.
Proof.
  intros Hz. split; [|intros ->; reflexivity].
  intros H. destruct (Z.eq_dec z 0) as [|Hne]; [assumption|].
  destruct (of_int_pos z) as (m & e & E & _); [lia|].
  rewrite E in H. discriminate H.
Qed.

Lemma of_int_positive (z : Z) : 0 < z < 2 ^ 53 -> (zero <? of_int z)%flt = true.
Proof.
  intros Hz. destruct (of_int_pos z Hz) as (m & e & -> & _). reflexivity.
Qed.

Lemma colour_error_zero_iff (c : pixel) :
  colour_error c = 0 <-> c = TARGET_COLOUR.
Proof.
  destruct c as [[c0 c1] c2]. unfold colour_error, TARGET_COLOUR.
  rewrite !Z.pow_2_r. split.
  - intros H.
    pose proof (Z.square_nonneg (189 - c0)).
    pose proof (Z.square_nonneg (105 - c1)).
    pose proof (Z.square_nonneg (82 - c2)).
    assert (E0 : (189 - c0) * (189 - c0) = 0) by lia.
    assert (E1 : (105 - c1) * (105 - c1) = 0) by lia.
    assert (E2 : (82 - c2) * (82 - c2) = 0) by lia.
    apply Z.mul_eq_0 in E0, E1, E2.
    f_equal; [f_equal|]; lia.
  - intros [= -> -> ->]. reflexivity.
Qed.

Lemma colour_error_small (c : pixel) :
  uint8 c.1.1 /\ uint8 c.1.2 /\ uint8 c.2 -> 0 <= colour_error c <= 195075.
Proof.
  destruct c as [[c0 c1] c2]. unfold colour_error, TARGET_COLOUR.
  cbn [fst snd]. intros (H0 & H1 & H2).
  pose proof (channel_error_range 189 c0 ltac:(unfold uint8; lia) H0).
  pose proof (channel_error_range 105 c1 ltac:(unfold uint8; lia) H1).
  pose proof (channel_error_range 82 c2 ltac:(unfold uint8; lia) H2).
  lia.
Qed.

Lemma read_pixel_elem (f : frame) (y x : Z) (c : pixel) :
  frame_uint8 f -> read_pixel f y x = Ok c ->
  uint8 c.1.1 /\ uint8 c.1.2 /\ uint8 c.2.
Proof.
  intros Hf Hc. unfold read_pixel in Hc. destruct (_ && _); [|discriminate].
  apply bind_Ok in Hc as (row & Hrow & Hc).
  apply getitem_elem in Hrow, Hc.
  unfold frame_uint8 in Hf. rewrite Forall_forall in Hf.
  specialize (Hf row Hrow). rewrite Forall_forall in Hf. exact (Hf c Hc).
Qed.

(** ** Fewer than two particles *)

Lemma compute_weights_Ok (ps : list particle) (errors ws : list float) :
  compute_weights ps errors = Ok ws ->
  length errors = length ps /\ errors <> [].
Proof.
  unfold compute_weights. intros H.
  destruct errors as [|e errors]; [discriminate|].
  split; [|discriminate].
  cbn [np.max mbind result_bind] in H. unfold mask_assign in H.
  rewrite !length_map in H.
  destruct (Nat.eqb_spec (length ps) (length (e :: errors))); [congruence|discriminate].
Qed.

Lemma self_weight (e : float) (p : particle) :
  weight e p e = zero \/ weight e p e = nan.
Proof.
  unfold weight. destruct (on_edge p); [left; reflexivity|].
  destruct e as [s|s| |s m x].
  - left. destruct s; reflexivity.
  - right. destruct s; reflexivity.
  - right. reflexivity.
  - left. rewrite sub_diag by reflexivity. reflexivity.
Qed.

Lemma lone_probability (w : float) :
  w = zero \/ w = nan -> probabilities [w] = [nan].
Proof. intros [-> | ->]; reflexivity. Qed.

(** ** Sums stay in binary64 *)

Lemma finite_float64 (s : bool) (m : positive) (e : Z) :
  Zdigits2 (Zpos m) <= 53 -> -1074 <= e <= 971 ->
  (e <> -1074 -> Zdigits2 (Zpos m) = 53) ->
  is_float64 (S754_finite s m e).
Proof.
  intros Hd He Hn.
  unfold is_float64, valid_binary, bounded, canonical_mantissa.
  change (Zpos (digits2_pos m)) with (Zdigits2 (Zpos m)).
  rewrite fexp_eq. apply andb_true_iff. split.
  - apply Z.eqb_eq. destruct (Z.eq_dec e (-1074)); [lia|].
    rewrite Hn by assumption. lia.
  - apply Z.leb_le. unfold Float64.emax, Float64.prec. lia.
Qed.

Lemma pack_float64 (s : bool) (m1 f : Z) :
  0 <= m1 <= 2 ^ 53 -> -1074 <= f ->
  (f <> -1074 -> m1 <> 0 -> 2 ^ 52 <= m1) ->
  is_float64 (pack s m1 f).
Proof.
  intros Hm Hf Hn. unfold pack.
  destruct (Z.eqb_spec m1 0); [reflexivity|].
  destruct (Z.eqb_spec m1 (2 ^ 53)).
  - destruct (Z.leb_spec (f + 1) 971); [|reflexivity].
    apply finite_float64; [|lia|]; reflexivity.
  - destruct (Z.leb_spec f 971); [|reflexivity].
    assert (Hp : Zpos (Z.to_pos m1) = m1) by (apply Z2Pos.id; lia).
    apply finite_float64; rewrite ?Hp; [apply Zdigits2_le; lia | lia |].
    intros Hne. apply Zdigits2_unique; [lia|].
    split; [apply Hn; assumption | lia].
Qed.

Lemma binary_round_aux_float64 (s : bool) (mx ex : Z) :
  0 < mx -> ex <= fexp prec emax (Zdigits2 mx + ex) ->
  is_float64 (binary_round_aux prec emax s mx ex loc_Exact).
Proof.
  intros Hmx Hex.
  destruct (binary_round_aux_exact s mx ex Hmx Hex) as (m1 & Hn & Hm1 & ->).
  rewrite fexp_eq in *.
  set (d := Zdigits2 mx) in *.
  apply pack_float64; [lia | lia |].
  intros Hf _.
  replace (Z.max (d + ex - 53) (-1074)) with (d + ex - 53) in * by lia.
  replace (d + ex - 53 - ex) with (d - 53) in Hn by lia.
  pose proof (Zdigits2_bounds mx Hmx) as [Hlo _]. fold d in Hlo.
  assert (E : 2 ^ (d - 1) = 2 ^ (d - 53) * 2 ^ 52)
    by (rewrite <- Z.pow_add_r by lia; f_equal; lia).
  assert (Hp : 0 < 2 ^ (d - 53)) by (apply Z.pow_pos_nonneg; lia).
  destruct Hn as [_ Hup]. nia.
Qed.

Lemma binary_round_float64 (s : bool) (X : positive) (e : Z) :
  is_float64 (binary_round prec emax s X e).
Proof.
  unfold binary_round.
  change (Zpos (digits2_pos X)) with (Zdigits2 (Zpos X)).
  set (f := fexp prec emax (Zdigits2 (Zpos X) + e)).
  destruct (shl_align_spec X e f) as (mz & -> & Hmz).
  assert (Hf : f = Z.max (Zdigits2 (Zpos X) + e - 53) (-1074)) by apply fexp_eq.
  apply binary_round_aux_float64; [lia|].
  rewrite Hmz, Zdigits2_shift by lia.
  replace (Zdigits2 (Zpos X) + (e - Z.min e f) + Z.min e f)
    with (Zdigits2 (Zpos X) + e) by lia.
  fold f. lia.
Qed.

Lemma binary_normalize_float64 (m e : Z) :
  is_float64 (binary_normalize prec emax m e false).
Proof.
  destruct m; cbn [binary_normalize];
    [reflexivity | apply binary_round_float64 | apply binary_round_float64].
Qed.

Lemma add_float64 (a b : float) :
  is_float64 a -> is_float64 b -> is_float64 (a + b)%flt.
Proof.
  intros Ha Hb.
  destruct a as [sa|sa| |sa ma ea], b as [sb|sb| |sb mb eb];
    try reflexivity; try assumption.
  - destruct sa, sb; reflexivity.
  - destruct sa, sb; reflexivity.
  - apply binary_normalize_float64.
Qed.

(** ** Values bounded by an integer *)

Lemma below_mono (t : float) (z z' : Z) : z <= z' -> below t z -> below t z'.
Proof.
  intros Hz. destruct t as [s|s| |[] m e]; cbn [below]; try tauto.
  intros (Hm & He & Hv). split; [assumption|]. split; [assumption|].
  assert (0 < 2 ^ 1074) by (apply Z.pow_pos_nonneg; lia). nia.
Qed.

Lemma leb_finite (m1 m2 : positive) (e1 e2 : Z) :
  (S754_finite false m1 e1 <=? S754_finite false m2 e2)%flt = true ->
  e1 < e2 \/ (e1 = e2 /\ Zpos m1 <= Zpos m2).
Proof.
  unfold Float64.leb, SFleb, SFcompare.
  destruct (Z.compare_spec e1 e2); try discriminate; [|lia].
  change (Pos.compare_cont Eq m1 m2) with (Pos.compare m1 m2).
  destruct (Pos.compare_spec m1 m2); try discriminate; lia.
Qed.

Lemma leb_below (x : float) (hi : Z) :
  0 < hi < 2 ^ 53 -> is_float64 x ->
  (zero <=? x)%flt = true -> (x <=? of_int hi)%flt = true -> below x hi.
Proof.
  intros Hhi Hx H0 H1.
  destruct (of_int_pos hi Hhi) as (mh & eh & E & Hmh & Heh & Hr). rewrite E in H1.
  destruct x as [s|s| |s m e]; try discriminate; [exact I | destruct s; discriminate |].
  destruct s; [discriminate|].
  apply float64_finite in Hx as (Hm & He & _).
  apply leb_finite in H1. cbn [below]. split; [assumption|]. split; [lia|].
  assert (Ehi : hi * 2 ^ 1074 = Zpos mh * 2 ^ (eh + 1074)).
  { rewrite Hmh, <- Z.mul_assoc, <- Z.pow_add_r by lia. do 2 f_equal. lia. }
  rewrite Ehi.
  destruct H1 as [Hlt | [-> Hle]].
  - assert (Hp : 2 ^ (eh + 1074) = 2 ^ (eh - e - 1) * (2 * 2 ^ (e + 1074))).
    { rewrite <- Z.pow_succ_r, <- Z.pow_add_r by lia. f_equal. lia. }
    rewrite Hp.
    assert (0 < 2 ^ (e + 1074)) by (apply Z.pow_pos_nonneg; lia).
    assert (1 <= 2 ^ (eh - e - 1)) by (apply (Z.pow_le_mono_r 2 0); lia).
    change (2 ^ 53) with (2 * 2 ^ 52) in Hm. nia.
  - apply Z.mul_le_mono_nonneg_r; [apply Z.pow_nonneg|]; lia.
Qed.

Lemma below_nonneg (t : float) (z : Z) : below t z -> (zero <=? t)%flt = true.
Proof. destruct t as [s|s| |[] m e]; cbn [below]; try tauto; reflexivity. Qed.

Lemma to_int_below (t : float) (z : Z) :
  0 <= z -> below t z -> exists k, to_int t = Ok k /\ 0 <= k <= z.
Proof.
  intros Hz H. destruct t as [s|s| |[] m e]; cbn [below] in H; try tauto.
  - exists 0. split; [reflexivity|lia].
  - destruct H as (Hm & He & Hv). cbn [to_int cond_Zopp].
    assert (Hp : 0 < 2 ^ 1074) by (apply Z.pow_pos_nonneg; lia).
    destruct e as [|k|k].
    + eexists. split; [reflexivity|]. simpl in Hv. nia.
    + eexists. split; [reflexivity|].
      rewrite Z.pow_add_r in Hv by lia.
      assert (0 < 2 ^ Zpos k) by (apply Z.pow_pos_nonneg; lia). nia.
    + eexists. split; [reflexivity|].
      assert (Hk : 0 < 2 ^ Zpos k) by (apply Z.pow_pos_nonneg; lia).
      split; [apply Z.div_pos; lia|].
      apply Z.div_le_upper_bound; [assumption|].
      assert (E : 2 ^ 1074 = 2 ^ Zpos k * 2 ^ (Zneg k + 1074)).
      { rewrite <- Z.pow_add_r by lia. f_equal. lia. }
      rewrite E in Hv.
      assert (0 < 2 ^ (Zneg k + 1074)) by (apply Z.pow_pos_nonneg; lia).
      nia.
Qed.

Lemma pack_below (m1 f z : Z) :
  -1074 <= f <= 0 -> 0 <= m1 <= 2 ^ 53 -> m1 <= z * 2 ^ (- f) ->
  below (pack false m1 f) z.
Proof.
  intros Hf Hm1 Hz.
  assert (Hgrid : z * 2 ^ 1074 = (z * 2 ^ (- f)) * 2 ^ (f + 1074)).
  { rewrite <- Z.mul_assoc, <- Z.pow_add_r by lia. do 2 f_equal. lia. }
  assert (Hpf : 0 < 2 ^ (f + 1074)) by (apply Z.pow_pos_nonneg; lia).
  unfold pack.
  destruct (Z.eqb_spec m1 0); [exact I|].
  destruct (Z.eqb_spec m1 (2 ^ 53)) as [E53|N53].
  - destruct (Z.leb_spec (f + 1) 971); [|lia]. cbn [below].
    split; [reflexivity|]. split; [lia|].
    replace (f + 1 + 1074) with (Z.succ (f + 1074)) by lia.
    rewrite Z.pow_succ_r by lia. rewrite Hgrid.
    change (Z.pos (2 ^ 52)) with (2 ^ 52).
    change (2 ^ 53) with (2 * 2 ^ 52) in E53. nia.
  - destruct (Z.leb_spec f 971); [|lia]. cbn [below].
    rewrite Z2Pos.id by lia.
    split; [lia|]. split; [lia|]. rewrite Hgrid. nia.
Qed.

(** Rounding a value that an integer below [2^53] bounds keeps the bound. *)
Lemma binary_round_below (X : positive) (e z : Z) :
  -1074 <= e -> z < 2 ^ 53 ->
  Zpos X * 2 ^ (e + 1074) <= z * 2 ^ 1074 ->
  below (binary_round prec emax false X e) z.
Proof.
  intros He Hz Hv. unfold binary_round.
  change (Zpos (digits2_pos X)) with (Zdigits2 (Zpos X)).
  set (d := Zdigits2 (Zpos X)).
  set (f := fexp prec emax (d + e)).
  assert (Hf : f = Z.max (d + e - 53) (-1074)) by apply fexp_eq.
  assert (HK : 0 < 2 ^ 1074) by (apply Z.pow_pos_nonneg; lia).
  (* the value is below 2^53, so the exponent of the result is not positive *)
  assert (He53 : e <= 52).
  { destruct (Z.le_gt_cases e 52) as [|Hgt]; [assumption|exfalso].
    assert (2 ^ (53 + 1074) <= 2 ^ (e + 1074)) by (apply Z.pow_le_mono_r; lia).
    rewrite Z.pow_add_r in H by lia. nia. }
  assert (Hd : d <= 53 - e).
  { apply Zdigits2_le; [lia|lia|].
    assert (E : 2 ^ 53 * 2 ^ 1074 = 2 ^ (53 - e) * 2 ^ (e + 1074))
      by (rewrite <- !Z.pow_add_r by lia; f_equal; lia).
    assert (0 < 2 ^ (e + 1074)) by (apply Z.pow_pos_nonneg; lia).
    nia. }
  assert (Hf0 : -1074 <= f <= 0) by lia.
  destruct (shl_align_spec X e f) as (mz & -> & Hmz).
  set (ez := Z.min e f) in *.
  assert (Hdz : Zdigits2 (Zpos mz) + ez = d + e).
  { rewrite Hmz, Zdigits2_shift by lia. unfold d. lia. }
  destruct (binary_round_aux_exact false (Zpos mz) ez) as (m1 & Hn & Hm1 & ->);
    [lia | rewrite Hdz; fold f; lia |].
  rewrite Hdz in *. fold f in Hn |- *.
  (* the bound, on the grid of the result *)
  assert (Hgrid : z * 2 ^ 1074 = (z * 2 ^ (- f)) * 2 ^ (f + 1074)).
  { rewrite <- Z.mul_assoc, <- Z.pow_add_r by lia. do 2 f_equal. lia. }
  assert (Hval : Zpos X * 2 ^ (e + 1074) = Zpos mz * 2 ^ (ez + 1074)).
  { rewrite Hmz, <- Z.mul_assoc, <- Z.pow_add_r by lia. do 2 f_equal. lia. }
  assert (Hsplit : 2 ^ (f + 1074) = 2 ^ (f - ez) * 2 ^ (ez + 1074)).
  { rewrite <- Z.pow_add_r by lia. f_equal. lia. }
  assert (Hpz : 0 < 2 ^ (ez + 1074)) by (apply Z.pow_pos_nonneg; lia).
  assert (Hpn : 0 < 2 ^ (f - ez)) by (apply Z.pow_pos_nonneg; lia).
  assert (Hmzb : Zpos mz <= z * 2 ^ (- f) * 2 ^ (f - ez)).
  { rewrite Hval, Hgrid, Hsplit in Hv. nia. }
  assert (Hm1z : m1 <= z * 2 ^ (- f)).
  { destruct Hn as [Hlo _]. nia. }
  apply pack_below; lia.
Qed.

Lemma add_below (a b : float) (za zb : Z) :
  0 <= za -> 0 <= zb -> za + zb < 2 ^ 53 ->
  below a za -> below b zb -> below (a + b)%flt (za + zb).
Proof.
  intros Hza Hzb Hsum Ha Hb.
  destruct a as [sa|sa| |[] ma ea]; cbn [below] in Ha; try tauto;
    destruct b as [sb|sb| |[] mb eb]; cbn [below] in Hb; try tauto.
  - destruct sa, sb; exact I.
  - apply (below_mono _ zb); [lia|exact Hb].
  - apply (below_mono _ za); [lia|exact Ha].
  - destruct Ha as (Hma & Hea & Hva), Hb as (Hmb & Heb & Hvb).
    unfold Float64.add, SFadd. cbn [cond_Zopp].
    set (ez := Z.min ea eb).
    destruct (shl_align_spec ma ea ez) as (a' & -> & Ha').
    destruct (shl_align_spec mb eb ez) as (b' & -> & Hb').
    cbn [fst]. replace (Z.min ea ez) with ez in Ha' by lia.
    replace (Z.min eb ez) with ez in Hb' by lia.
    change (Zpos a' + Zpos b') with (Zpos (a' + b')). cbn [binary_normalize].
    apply binary_round_below; [lia | lia |].
    rewrite Pos2Z.inj_add, Ha', Hb', Z.mul_add_distr_r.
    rewrite <- !Z.mul_assoc, <- !Z.pow_add_r by lia.
    replace (ea - ez + (ez + 1074)) with (ea + 1074) by lia.
    replace (eb - ez + (ez + 1074)) with (eb + 1074) by lia.
    lia.
Qed.

Lemma sums_below (hi : Z) (l : list float) (r : float) :
  sums l r -> 0 <= hi -> hi * Z.of_nat (length l) < 2 ^ 53 ->
  Forall (fun x => below x hi) l ->
  below r (hi * Z.of_nat (length l)).
Proof.
  induction 1 as [x | l1 l2 a b _ IH1 _ IH2 | l l' a Hp _ IH];
    intros Hhi Hlt Hall.
  - apply Forall_inv in Hall. cbn [length].
    replace (hi * Z.of_nat 1) with hi by lia. exact Hall.
  - apply Forall_app in Hall as [Ha Hb].
    rewrite length_app, Nat2Z.inj_add, Z.mul_add_distr_l in *.
    assert (0 <= hi * Z.of_nat (length l1)) by (apply Z.mul_nonneg_nonneg; lia).
    assert (0 <= hi * Z.of_nat (length l2)) by (apply Z.mul_nonneg_nonneg; lia).
    apply add_below; try lia; [apply IH1 | apply IH2]; try assumption; lia.
  - rewrite <- Hp in *. apply IH; assumption.
Qed.

Lemma sum_below (hi : Z) (xs : list float) :
  0 <= hi -> hi * Z.of_nat (length xs) < 2 ^ 53 ->
  Forall (fun x => below x hi) xs ->
  below (np.sum xs) (hi * Z.of_nat (length xs)).
Proof.
  intros Hhi Hlt Hxs. destruct xs as [|x xs]; [exact I|].
  apply sums_below; try assumption. apply sum_sums. discriminate.
Qed.

(** ** Rounding a quotient *)

Lemma shifted_frac_step (num den k : Z) (mrs : shr_record) :
  0 <= num -> 0 < den -> 0 <= k ->
  shifted_frac num den k mrs -> shifted_frac num den (k + 1) (shr_1 mrs).
Proof.
  intros Hnum Hden Hk [Hq Hrem]. destruct mrs as [q r s].
  cbn [shr_m shr_r shr_s] in *.
  assert (Hp : 0 < 2 ^ k) by (apply Z.pow_pos_nonneg; lia).
  assert (HD : 0 < den * 2 ^ k) by nia.
  assert (Hq0 : 0 <= q) by (subst q; apply Z.div_pos; lia).
  rewrite shr_1_spec by assumption. unfold shifted_frac. cbn [shr_m shr_r shr_s].
  rewrite Z.pow_add_r, Z.pow_1_r, Z.mul_assoc by lia.
  set (D := den * 2 ^ k) in *.
  split.
  - subst q. rewrite Z.div_div by lia. reflexivity.
  - rewrite Z.rem_mul_r by lia. rewrite <- Hq.
    pose proof (Z.mod_pos_bound num D HD) as Hb.
    pose proof (Zmod_odd q) as Ho.
    destruct (Z.odd q); rewrite Ho; destruct r, s; cbn [orb]; lia.
Qed.

Lemma shifted_frac_iter (num den : Z) (p : positive) :
  forall (k : Z) (mrs : shr_record),
  0 <= num -> 0 < den -> 0 <= k -> shifted_frac num den k mrs ->
  shifted_frac num den (k + Zpos p) (SpecFloat.iter_pos shr_1 p mrs).
Proof.
  induction p as [p IH|p IH|]; intros k mrs Hn Hd Hk H; cbn [SpecFloat.iter_pos].
  - replace (k + Zpos p~1) with (k + 1 + Zpos p + Zpos p) by lia.
    apply IH; [assumption|assumption|lia|].
    apply IH; [assumption|assumption|lia|].
    apply shifted_frac_step; assumption.
  - replace (k + Zpos p~0) with (k + Zpos p + Zpos p) by lia.
    apply IH; [assumption|assumption|lia|]. apply IH; assumption.
  - apply shifted_frac_step; assumption.
Qed.

Lemma shifted_frac_shr (num den : Z) (mrs : shr_record) (e n : Z) :
  0 <= num -> 0 < den -> 0 <= n -> shifted_frac num den 0 mrs ->
  exists mrs', shr mrs e n = (mrs', e + n) /\ shifted_frac num den n mrs'.
Proof.
  intros Hnum Hden Hn H. destruct n as [|p|p]; try lia; cbn [shr].
  - exists mrs. rewrite Z.add_0_r. auto.
  - eexists. split; [reflexivity|].
    apply (shifted_frac_iter num den p 0); try lia. exact H.
Qed.

Lemma shifted_frac_nearest (num den k : Z) (mrs : shr_record) :
  0 <= num -> 0 < den -> 0 <= k -> shifted_frac num den k mrs ->
  nearest_frac num den k (round_nearest_even (shr_m mrs) (loc_of_shr_record mrs)) /\
  shr_m mrs <= round_nearest_even (shr_m mrs) (loc_of_shr_record mrs) <= shr_m mrs + 1.
Proof.
  intros Hnum Hden Hk [Hq Hrem]. destruct mrs as [q r s].
  cbn [shr_m shr_r shr_s] in *.
  assert (Hp : 0 < 2 ^ k) by (apply Z.pow_pos_nonneg; lia).
  assert (HD : 0 < den * 2 ^ k) by nia.
  pose proof (Z.div_mod num (den * 2 ^ k) ltac:(lia)) as Hdm. rewrite <- Hq in Hdm.
  pose proof (Z.mod_pos_bound num (den * 2 ^ k) HD) as Hb.
  unfold nearest_frac. set (D := den * 2 ^ k) in *.
  destruct r, s; cbn [loc_of_shr_record round_nearest_even];
    try destruct (Z.even q); split; nia.
Qed.

Lemma new_location_shifted (q den r : Z) :
  0 < den -> 0 <= r < den ->
  shifted_frac (den * q + r) den 0 (shr_record_of_loc q (new_location den r)).
Proof.
  intros Hden Hr. unfold shifted_frac. rewrite Z.pow_0_r, Z.mul_1_r.
  assert (Eq : (den * q + r) / den = q).
  { symmetry. apply (Z.div_unique_pos _ _ _ r); lia. }
  assert (Er : (den * q + r) mod den = r).
  { symmetry. apply (Z.mod_unique_pos _ _ q); lia. }
  rewrite Eq, Er. unfold new_location.
  destruct (Z.even den) eqn:Hev.
  - unfold new_location_even. destruct (Z.eqb_spec r 0) as [->|Hr0].
    + split; reflexivity.
    + destruct (Z.compare_spec (2 * r) den); cbn; split; try reflexivity; lia.
  - unfold new_location_odd. destruct (Z.eqb_spec r 0) as [->|Hr0].
    + split; reflexivity.
    + assert (Hodd : Z.odd den = true) by (rewrite <- Z.negb_even, Hev; reflexivity).
      apply Z.odd_spec in Hodd as [h Hh].
      destruct (Z.compare_spec (2 * r + 1) den); cbn; split; try reflexivity; lia.
Qed.

Lemma second_shift (s : bool) (m1 f : Z) :
  0 <= m1 <= 2 ^ 53 -> -1074 <= f ->
  (let '(mrs, e) := shr_fexp prec emax m1 f loc_Exact in
   match shr_m mrs with
   | Z0 => S754_zero s
   | Zpos m => if e <=? emax - prec then S754_finite s m e else S754_infinity s
   | Zneg _ => S754_nan
   end) = pack s m1 f.
Proof.
  intros Hm1 Hf. unfold pack, shr_fexp.
  destruct (Z.eqb_spec m1 0) as [E0|N0].
  - rewrite E0. cbn [Zdigits2 Z.add]. rewrite shr_noop by (rewrite fexp_eq; lia).
    reflexivity.
  - destruct (Z.eqb_spec m1 (2 ^ 53)) as [E53|N53].
    + rewrite E53. change (Zdigits2 (2 ^ 53)) with 54.
      replace (fexp prec emax (54 + f) - f) with 1 by (rewrite fexp_eq; lia).
      cbn [shr shr_record_of_loc SpecFloat.iter_pos].
      change (shr_1 {| shr_m := 2 ^ 53; shr_r := false; shr_s := false |})
        with {| shr_m := 2 ^ 52; shr_r := false; shr_s := false |}.
      cbn [shr_m]. reflexivity.
    + assert (Hd1 : Zdigits2 m1 <= 53) by (apply Zdigits2_le; lia).
      rewrite shr_noop by (rewrite fexp_eq; lia).
      cbn [shr_record_of_loc shr_m].
      destruct m1 as [|p|p]; try lia. reflexivity.
Qed.

Lemma Zdigits2_upper (q : Z) : 0 <= q -> q < 2 ^ Zdigits2 q.
Proof.
  intros Hq. destruct (Z.eq_dec q 0) as [->|]; [reflexivity|].
  apply Zdigits2_bounds. lia.
Qed.

Lemma binary_round_aux_frac (s : bool) (q e : Z) (l : location) (num den : Z) :
  0 <= num -> 0 < den -> 0 <= q ->
  shifted_frac num den 0 (shr_record_of_loc q l) ->
  e <= fexp prec emax (Zdigits2 q + e) ->
  exists m1,
    nearest_frac num den (fexp prec emax (Zdigits2 q + e) - e) m1 /\
    0 <= m1 <= 2 ^ 53 /\
    binary_round_aux prec emax s q e l = pack s m1 (fexp prec emax (Zdigits2 q + e)).
Proof.
  intros Hnum Hden Hq H0 He.
  set (d := Zdigits2 q) in *. set (f := fexp prec emax (d + e)) in *.
  assert (Hf : f = Z.max (d + e - 53) (-1074)) by apply fexp_eq.
  destruct (shifted_frac_shr num den _ e (f - e) Hnum Hden ltac:(lia) H0)
    as (mrs & Hshr & Hmrs).
  pose (m1 := round_nearest_even (shr_m mrs) (loc_of_shr_record mrs)).
  destruct (shifted_frac_nearest num den (f - e) mrs Hnum Hden ltac:(lia) Hmrs)
    as [Hn Hm]. fold m1 in Hn, Hm.
  assert (Hqm : q = num / den).
  { destruct H0 as [E _]. rewrite Z.pow_0_r, Z.mul_1_r in E. rewrite <- E.
    destruct l as [|[]]; reflexivity. }
  assert (Hsm : 0 <= shr_m mrs < 2 ^ 53).
  { destruct Hmrs as [-> _].
    assert (Hp : 0 < 2 ^ (f - e)) by (apply Z.pow_pos_nonneg; lia).
    rewrite <- Z.div_div, <- Hqm by lia.
    split; [apply Z.div_pos; lia|].
    pose proof (Zdigits2_upper q Hq) as Hd. fold d in Hd.
    assert (Hd0 : 0 <= d) by (unfold d; destruct q; simpl; lia).
    apply Z.div_lt_upper_bound; [lia|].
    destruct (Z.le_gt_cases d 53).
    - assert (2 ^ d <= 2 ^ 53) by (apply Z.pow_le_mono_r; lia). nia.
    - assert (E : 2 ^ d = 2 ^ (d - 53) * 2 ^ 53)
        by (rewrite <- Z.pow_add_r by lia; f_equal; lia).
      assert (2 ^ (d - 53) <= 2 ^ (f - e)) by (apply Z.pow_le_mono_r; lia).
      nia. }
  exists m1. split; [exact Hn|]. split; [lia|].
  unfold binary_round_aux. unfold shr_fexp at 1. fold d. fold f.
  rewrite Hshr. fold m1. replace (e + (f - e)) with f by lia.
  apply second_shift; lia.
Qed.

Lemma SFdiv_core_spec (m1 m2 : positive) (e1 e2 : Z) :
  let e' := Z.min (fexp prec emax (Zdigits2 (Zpos m1) + e1 - (Zdigits2 (Zpos m2) + e2)))
                  (e1 - e2) in
  let num := Zpos m1 * 2 ^ (e1 - e2 - e') in
  SFdiv_core_binary prec emax (Zpos m1) e1 (Zpos m2) e2 =
    (num / Zpos m2, e', new_location (Zpos m2) (num mod Zpos m2)).
Proof.
  intros e' num. unfold SFdiv_core_binary. fold e'.
  assert (Hs : 0 <= e1 - e2 - e') by (unfold e'; lia).
  assert (Hm : match e1 - e2 - e' with
               | Z0 => Zpos m1
               | Zpos _ => Z.shiftl (Zpos m1) (e1 - e2 - e')
               | Zneg _ => 0
               end = num).
  { unfold num. destruct (e1 - e2 - e') as [|p|p] eqn:E; try lia.
    apply Z.shiftl_mul_pow2. lia. }
  rewrite Hm. unfold Z.div, Z.modulo.
  destruct (Z.div_eucl num (Zpos m2)) as [q r]. reflexivity.
Qed.

(** A sum of [n] values, each at most [hi], divided by [n]. *)
Lemma div_below (t : float) (hi n : Z) :
  0 <= hi -> 0 < n < 2 ^ 53 -> hi * n < 2 ^ 53 ->
  below t (hi * n) -> below (t / of_int n)%flt hi.
Proof.
  intros Hhi Hn Hlt Ht.
  destruct (of_int_pos n Hn) as (mn & en & -> & Hmn & Hen & Hr).
  destruct t as [s|s| |[] ms es]; cbn [below] in Ht; try contradiction;
    [exact I|].
  destruct Ht as (Hms & Hes & Hv).
  unfold Float64.div, SFdiv. rewrite SFdiv_core_spec. cbn [xorb].
  assert (HK : 0 < 2 ^ 1074) by (apply Z.pow_pos_nonneg; lia).
  set (d1 := Zdigits2 (Zpos ms)).
  assert (Hd2 : Zdigits2 (Zpos mn) = 53) by (apply Zdigits2_unique; lia).
  rewrite Hd2. rewrite fexp_eq.
  (* the dividend is below 2^53 *)
  assert (Hes52 : es <= 52).
  { destruct (Z.le_gt_cases es 52) as [|Hgt]; [assumption|exfalso].
    assert (H : 2 ^ (53 + 1074) <= 2 ^ (es + 1074)) by (apply Z.pow_le_mono_r; lia).
    rewrite Z.pow_add_r in H by lia. nia. }
  assert (Hd1 : 0 < d1 <= 53 - es).
  { split; [apply Zdigits2_pos; lia|]. apply Zdigits2_le; [lia|lia|].
    assert (E : 2 ^ 53 * 2 ^ 1074 = 2 ^ (53 - es) * 2 ^ (es + 1074))
      by (rewrite <- !Z.pow_add_r by lia; f_equal; lia).
    assert (0 < 2 ^ (es + 1074)) by (apply Z.pow_pos_nonneg; lia).
    nia. }
  pose proof (Zdigits2_bounds (Zpos ms) ltac:(lia)) as [Hd1lo _]. fold d1 in Hd1lo.
  assert (Hd153 : d1 <= 53) by (apply Zdigits2_le; lia).
  set (e' := Z.min (Z.max (d1 + es - (53 + en) - 53) (-1074)) (es - en)).
  assert (He' : -1074 <= e' <= -1) by (unfold e'; lia).
  set (sft := es - en - e').
  assert (Hsft : 0 <= sft) by (unfold sft, e'; lia).
  set (num := Zpos ms * 2 ^ sft).
  assert (Hps : 0 < 2 ^ sft) by (apply Z.pow_pos_nonneg; lia).
  assert (Hnum : 0 < num) by (unfold num; nia).
  set (q := num / Zpos mn). set (r := num mod Zpos mn).
  assert (Hq0 : 0 <= q) by (apply Z.div_pos; lia).
  pose proof (Z.div_mod num (Zpos mn) ltac:(lia)) as Hdm. fold q r in Hdm.
  pose proof (Z.mod_pos_bound num (Zpos mn) ltac:(lia)) as Hrb. fold r in Hrb.
  (* exponent and mantissa of the quotient fit the first shift *)
  assert (Hpre : e' <= fexp prec emax (Zdigits2 q + e')).
  { rewrite fexp_eq. destruct (Z.eq_dec e' (-1074)); [lia|].
    assert (Hs53 : 106 - d1 <= sft) by (unfold sft, e' in *; lia).
    assert (Hbig : 2 ^ 105 <= num).
    { unfold num.
      assert (E : 2 ^ 105 = 2 ^ (d1 - 1) * 2 ^ (106 - d1))
        by (rewrite <- Z.pow_add_r by lia; f_equal; lia).
      assert (2 ^ (106 - d1) <= 2 ^ sft) by (apply Z.pow_le_mono_r; lia).
      assert (0 < 2 ^ (106 - d1)) by (apply Z.pow_pos_nonneg; lia).
      nia. }
    assert (Hq52 : 2 ^ 52 <= q).
    { apply Z.div_le_lower_bound; [lia|].
      change (2 ^ 105) with (2 ^ 53 * 2 ^ 52) in Hbig. nia. }
    assert (53 <= Zdigits2 q) by (apply Zdigits2_ge; simpl; lia). lia. }
  destruct (binary_round_aux_frac false q e' (new_location (Zpos mn) r)
              num (Zpos mn)) as (m1 & Hnear & Hm1 & ->);
    [lia | lia | assumption | | assumption |].
  { rewrite Hdm. apply new_location_shifted; lia. }
  rewrite fexp_eq in *.
  set (f := Z.max (Zdigits2 q + e' - 53) (-1074)) in *.
  (* the value of the quotient, scaled *)
  assert (Hval : num * 2 ^ (e' + 1074) <= hi * Zpos mn * 2 ^ 1074).
  { unfold num. rewrite <- Z.mul_assoc, <- Z.pow_add_r by lia.
    replace (sft + (e' + 1074)) with (es + 1074 + - en) by (unfold sft; lia).
    rewrite Z.pow_add_r, Z.mul_assoc by lia. rewrite Hmn.
    assert (0 < 2 ^ (- en)) by (apply Z.pow_pos_nonneg; lia). nia. }
  assert (Hpe : 0 < 2 ^ (e' + 1074)) by (apply Z.pow_pos_nonneg; lia).
  assert (Hqv : q * 2 ^ (e' + 1074) <= hi * 2 ^ 1074) by nia.
  assert (Hf0 : -1074 <= f <= 0).
  { split; [unfold f; lia|].
    destruct (Z.eq_dec q 0) as [E|Hq]; [unfold f; rewrite E; simpl; lia|].
    assert (Zdigits2 q <= 53 - e'); [|unfold f; lia].
    apply Zdigits2_le; [lia|lia|].
    assert (E : 2 ^ 53 * 2 ^ 1074 = 2 ^ (53 - e') * 2 ^ (e' + 1074))
      by (rewrite <- !Z.pow_add_r by lia; f_equal; lia).
    assert (Hhi1 : hi * 1 <= hi * n) by (apply Z.mul_le_mono_nonneg_l; lia).
    assert (Hhi53 : hi < 2 ^ 53) by lia.
    apply (Z.mul_lt_mono_pos_r (2 ^ (e' + 1074))); [assumption|].
    rewrite <- E. eapply Z.le_lt_trans; [exact Hqv|].
    apply Z.mul_lt_mono_pos_r; assumption. }
  apply pack_below; [lia | lia |].
  assert (Hgrid : hi * 2 ^ 1074 = hi * 2 ^ (- f) * 2 ^ (f - e') * 2 ^ (e' + 1074)).
  { rewrite <- !Z.mul_assoc, <- !Z.pow_add_r by (unfold f; lia).
    do 2 f_equal. lia. }
  assert (Hpn : 0 < 2 ^ (f - e')) by (apply Z.pow_pos_nonneg; unfold f; lia).
  assert (Hnb : num <= hi * 2 ^ (- f) * 2 ^ (f - e') * Zpos mn).
  { replace (hi * Zpos mn * 2 ^ 1074) with (Zpos mn * (hi * 2 ^ 1074)) in Hval by lia.
    rewrite Hgrid in Hval.
    apply (Z.mul_le_mono_pos_r _ _ (2 ^ (e' + 1074))); [assumption|].
    eapply Z.le_trans; [exact Hval|]. apply Z.eq_le_incl. ring. }
  destruct Hnear as [Hlo _].
  assert (Hdq : 0 < Zpos mn * 2 ^ (f - e')) by (apply Z.mul_pos_pos; lia).
  assert (H2 : 2 * m1 - 1 <= 2 * (hi * 2 ^ (- f))); [|lia].
  apply (Z.mul_le_mono_pos_l _ _ (Zpos mn * 2 ^ (f - e'))); [assumption|].
  eapply Z.le_trans; [exact Hlo|].
  replace (Zpos mn * 2 ^ (f - e') * (2 * (hi * 2 ^ (- f))))
    with (2 * (hi * 2 ^ (- f) * 2 ^ (f - e') * Zpos mn)) by ring.
  apply Z.mul_le_mono_nonneg_l; [lia|exact Hnb].
Qed.

Lemma mean_below (hi : Z) (xs : list float) :
  0 <= hi -> xs <> [] -> Z.of_nat (length xs) < 2 ^ 53 ->
  hi * Z.of_nat (length xs) < 2 ^ 53 ->
  Forall (fun x => below x hi) xs ->
  below (np.mean xs) hi.
Proof.
  intros Hhi Hne Hn Hlt Hxs. unfold np.mean.
  apply div_below; try assumption.
  - destruct xs; [congruence|]. cbn [length] in *. lia.
  - apply sum_below; assumption.
Qed.

(** ** The rounding error of a sum and of a mean *)

Lemma below_scaled (x : float) (z : Z) :
  0 <= z -> below x z -> 0 <= scaled x <= z * 2 ^ 1074.
Proof.
  intros Hz H.
  assert (0 < 2 ^ 1074) by (apply Z.pow_pos_nonneg; lia).
  destruct x as [s|s| |[] m e]; cbn [below scaled] in *; try tauto; lia.
Qed.










(** ** The estimate of resample *)

Lemma in_frame_below (p : particle) :
  in_frame p -> below (p_x p) (WIDTH - 1) /\ below (p_y p) (HEIGHT - 1).
Proof.
  intros (Vx & Vy & Hx0 & Hx1 & Hy0 & Hy1).
  split; apply leb_below; try assumption; split; reflexivity.
Qed.

Lemma take_returns {A} (a : list A) (idx : list nat) :
  Forall (fun i => (i < length a)%nat) idx -> exists vs, np.take a idx = Ok vs.
Proof.
  induction 1 as [|i idx Hi _ [vs IH]]; [exists []; reflexivity|].
  destruct (lookup_lt_is_Some_2 a i Hi) as [v Hv].
  exists (v :: vs). cbn [np.take]. rewrite getitem_nat, Hv, IH. reflexivity.
Qed.

Lemma take_Forall {A} (P : A -> Prop) (a : list A) (idx : list nat) (vs : list A) :
  Forall P a -> np.take a idx = Ok vs -> Forall P vs.
Proof.
  intros Ha Ht. apply take_Ok in Ht as [_ Hall].
  rewrite Forall_forall in Ha. apply Forall_forall. intros v Hv.
  apply list_elem_of_lookup_1 in Hv as [j Hj].
  destruct (Hall j v Hj) as (i & _ & Hi).
  apply Ha. eapply list_elem_of_lookup_2, Hi.
Qed.

Lemma centroid_on_frame (ps : list particle) :
  ps <> [] -> Z.of_nat (length ps) <= 2 ^ 32 -> Forall in_frame ps ->
  exists location, centroid ps = Ok location /\ on_frame location.
Proof.
  intros Hne Hlen Hps.
  assert (Hb : 2 ^ 32 * 1024 < 2 ^ 53) by reflexivity.
  assert (Hx : below (np.mean (map p_x ps)) (WIDTH - 1)).
  { apply mean_below; rewrite ?length_map; unfold WIDTH; try lia.
    - destruct ps; [congruence|discriminate].
    - apply Forall_fmap. eapply Forall_impl; [exact Hps|].
      intros p Hp. apply (in_frame_below p Hp). }
  assert (Hy : below (np.mean (map p_y ps)) (HEIGHT - 1)).
  { apply mean_below; rewrite ?length_map; unfold HEIGHT; try lia.
    - destruct ps; [congruence|discriminate].
    - apply Forall_fmap. eapply Forall_impl; [exact Hps|].
      intros p Hp. apply (in_frame_below p Hp). }
  apply to_int_below in Hx as (x & Ex & Hx); [|unfold WIDTH; lia].
  apply to_int_below in Hy as (y & Ey & Hy); [|unfold HEIGHT; lia].
  exists (x, y). unfold centroid. rewrite Ex, Ey. split; [reflexivity|].
  split; assumption.
Qed.

Lemma resample_unfold (N : nat) ps ws drawn :
  resample N ps ws drawn =
    (_ ← np.check_p N (probabilities ws);
     generation ← np.take ps drawn;
     location ← centroid generation;
     Ok (generation, location)).
Proof.
  unfold resample, np.random_choice, centroid.
  destruct (np.check_p N (probabilities ws)) as [[]|e]; [|reflexivity].
  cbn [mbind result_bind].
  destruct (np.take ps drawn) as [gen|e]; [|reflexivity].
  cbn [mbind result_bind].
  destruct (to_int (np.mean (map p_x gen))); [|reflexivity].
  cbn [mbind result_bind].
  destruct (to_int (np.mean (map p_y gen))); reflexivity.
Qed.

Lemma check_p_raises (a : nat) (p : list float) (e : exn) :
  np.check_p a p = Raise e -> e = ValueError.
Proof.
  unfold np.check_p.
  repeat match goal with |- context [if ?b then _ else _] => destruct b end;
    congruence.
Qed.

Lemma check_p_nonempty (p : list float) : np.check_p 0 p <> Ok tt.
Proof.
  unfold np.check_p. destruct p as [|x p]; [|discriminate]. discriminate.
Qed.

(** ** Products and differences stay in binary64 *)

Lemma Zdigits2_mul_ge (a b : Z) (j k : Z) :
  0 <= j -> 0 <= k -> 2 ^ j <= a -> 2 ^ k <= b -> j + k + 1 <= Zdigits2 (a * b).
Proof.
  intros Hj Hk Ha Hb.
  assert (0 < 2 ^ j) by (apply Z.pow_pos_nonneg; lia).
  assert (0 < 2 ^ k) by (apply Z.pow_pos_nonneg; lia).
  apply Zdigits2_ge; [nia|].
  replace (j + k + 1 - 1) with (j + k) by lia.
  rewrite Z.pow_add_r by lia. nia.
Qed.

Lemma mul_float64 (a b : float) :
  is_float64 a -> is_float64 b -> is_float64 (a * b)%flt.
Proof.
  intros Ha Hb.
  destruct a as [sa|sa| |sa ma ea], b as [sb|sb| |sb mb eb];
    try reflexivity; try assumption.
  apply float64_finite in Ha as (Hma & Hea & Na).
  apply float64_finite in Hb as (Hmb & Heb & Nb).
  unfold Float64.mul, SFmul.
  apply binary_round_aux_float64; [lia|].
  rewrite fexp_eq. rewrite Pos2Z.inj_mul.
  destruct Na as [Na|Ea], Nb as [Nb|Eb].
  - pose proof (Zdigits2_mul_ge (Zpos ma) (Zpos mb) 52 52). lia.
  - destruct (Z.le_gt_cases ea 0); [lia|].
    pose proof (Zdigits2_mul_ge (Zpos ma) (Zpos mb) 52 0). lia.
  - destruct (Z.le_gt_cases eb 0); [lia|].
    pose proof (Zdigits2_mul_ge (Zpos ma) (Zpos mb) 0 52). lia.
  - lia.
Qed.

Lemma sub_float64 (a b : float) :
  is_float64 a -> is_float64 b -> is_float64 (a - b)%flt.
Proof.
  intros Ha Hb.
  destruct a as [sa|sa| |sa ma ea], b as [sb|sb| |sb mb eb];
    try reflexivity; try assumption.
  - destruct sa, sb; reflexivity.
  - destruct sa, sb; reflexivity.
  - apply binary_normalize_float64.
Qed.

Lemma initialize_particles_float64 (rand : list particle) :
  Forall float64_row rand -> Forall float64_row (initialize_particles rand).
Proof.
  intros H. unfold initialize_particles.
  apply Forall_fmap, Forall_fmap. eapply Forall_impl; [exact H|].
  intros r (Hx & Hy & Hvx & Hvy). unfold float64_row. cbn.
  repeat split.
  - apply mul_float64; [assumption|reflexivity].
  - apply mul_float64; [assumption|reflexivity].
  - apply sub_float64; [apply mul_float64; [assumption|reflexivity]|reflexivity].
  - apply sub_float64; [apply mul_float64; [assumption|reflexivity]|reflexivity].
Qed.

(** ** A sum that cannot overflow *)

Lemma pack_finite (s : bool) (m1 f : Z) :
  f <= 971 -> (m1 = 2 ^ 53 -> f < 971) -> is_finite (pack s m1 f) = true.
Proof.
  intros Hf Hc. unfold pack.
  destruct (Z.eqb_spec m1 0); [reflexivity|].
  destruct (Z.eqb_spec m1 (2 ^ 53)) as [E|N].
  - specialize (Hc E). destruct (Z.leb_spec (f + 1) 971); [reflexivity|lia].
  - destruct (Z.leb_spec f 971); [reflexivity|lia].
Qed.

Lemma binary_round_finite (s : bool) (X : positive) (e : Z) :
  -1074 <= e ->
  2 * Zpos X * 2 ^ (e + 1074) < (2 ^ 54 - 1) * 2 ^ 2045 ->
  is_finite (binary_round prec emax s X e) = true.
Proof.
  intros He Hv. unfold binary_round.
  change (Zpos (digits2_pos X)) with (Zdigits2 (Zpos X)).
  set (d := Zdigits2 (Zpos X)).
  set (f := fexp prec emax (d + e)).
  assert (Hf : f = Z.max (d + e - 53) (-1074)) by apply fexp_eq.
  pose proof (Zdigits2_bounds (Zpos X) eq_refl) as [Dlo _]. fold d in Dlo.
  pose proof (Zdigits2_pos (Zpos X) eq_refl) as Dpos. fold d in Dpos.
  assert (Hde : d + e <= 1024).
  { destruct (Z.le_gt_cases (d + e) 1024) as [|Hgt]; [assumption|exfalso].
    assert (H1 : 2 ^ (53 + 2045) <= 2 ^ (d - 1 + (e + 1074)))
      by (apply Z.pow_le_mono_r; lia).
    rewrite !Z.pow_add_r in H1 by lia.
    assert (0 < 2 ^ (e + 1074)) by (apply Z.pow_pos_nonneg; lia).
    remember (2 ^ 2045) as K. remember (2 ^ (e + 1074)) as P.
    remember (2 ^ (d - 1)) as D. nia. }
  destruct (shl_align_spec X e f) as (mz & -> & Hmz).
  set (ez := Z.min e f) in *.
  assert (Hdz : Zdigits2 (Zpos mz) + ez = d + e).
  { rewrite Hmz, Zdigits2_shift by lia. unfold d. lia. }
  destruct (binary_round_aux_exact s (Zpos mz) ez) as (m1 & Hn & Hm1 & ->);
    [lia | rewrite Hdz; fold f; lia |].
  rewrite Hdz in *. fold f in Hn |- *.
  apply pack_finite; [lia|]. intros ->.
  destruct (Z.eq_dec f 971) as [Ef|]; [exfalso|lia].
  destruct Hn as [Hlo _].
  assert (Hval : Zpos X * 2 ^ (e + 1074) = Zpos mz * 2 ^ (ez + 1074)).
  { rewrite Hmz, <- Z.mul_assoc, <- Z.pow_add_r by lia. do 2 f_equal. lia. }
  assert (Hsplit : 2 ^ 2045 = 2 ^ (f - ez) * 2 ^ (ez + 1074)).
  { rewrite <- Z.pow_add_r by lia. f_equal. lia. }
  assert (Hpz : 0 < 2 ^ (ez + 1074)) by (apply Z.pow_pos_nonneg; lia).
  assert (Hpn : 0 < 2 ^ (f - ez)) by (apply Z.pow_pos_nonneg; lia).
  rewrite <- Z.mul_assoc, Hval, Hsplit in Hv.
  remember (2 ^ (ez + 1074)) as P. remember (2 ^ (f - ez)) as Q.
  change (2 * 2 ^ 53 - 1) with (2 ^ 54 - 1) in Hlo. nia.
Qed.

Lemma binary_normalize_finite (S : Z) (e : Z) :
  -1074 <= e ->
  2 * Z.abs S * 2 ^ (e + 1074) < (2 ^ 54 - 1) * 2 ^ 2045 ->
  is_finite (binary_normalize prec emax S e false) = true.
Proof.
  intros He Hv. destruct S as [|p|p]; cbn [binary_normalize];
    [reflexivity | |]; apply binary_round_finite; assumption.
Qed.

Lemma add_finite (a b : float) (z : Z) :
  z < 2 ^ 53 -> below a z -> is_float64 b -> is_finite b = true ->
  is_finite (a + b)%flt = true.
Proof.
  intros Hz Ha Vb Fb.
  destruct a as [sa|sa| |[] ma ea]; cbn [below] in Ha; try tauto;
    destruct b as [sb|sb| |sb mb eb]; try discriminate; try reflexivity.
  - destruct sa, sb; reflexivity.
  - destruct Ha as (Hma & Hea & Hva).
    apply float64_finite in Vb as (Hmb & Heb & _).
    unfold Float64.add, SFadd. cbn [cond_Zopp].
    set (ez := Z.min ea eb).
    destruct (shl_align_spec ma ea ez) as (a' & -> & Ha').
    destruct (shl_align_spec mb eb ez) as (b' & -> & Hb').
    cbn [fst]. replace (Z.min ea ez) with ez in Ha' by lia.
    replace (Z.min eb ez) with ez in Hb' by lia.
    apply binary_normalize_finite; [lia|].
    assert (Hs : Z.abs (Zpos a' + cond_Zopp sb (Zpos b')) <= Zpos a' + Zpos b')
      by (destruct sb; cbn [cond_Zopp]; lia).
    assert (Hpz : 0 < 2 ^ (ez + 1074)) by (apply Z.pow_pos_nonneg; lia).
    assert (Ea : Zpos a' * 2 ^ (ez + 1074) = Zpos ma * 2 ^ (ea + 1074)).
    { rewrite Ha', <- Z.mul_assoc, <- Z.pow_add_r by lia. do 2 f_equal. lia. }
    assert (Eb : Zpos b' * 2 ^ (ez + 1074) = Zpos mb * 2 ^ (eb + 1074)).
    { rewrite Hb', <- Z.mul_assoc, <- Z.pow_add_r by lia. do 2 f_equal. lia. }
    assert (Hb2 : 2 ^ (eb + 1074) <= 2 ^ 2045) by (apply Z.pow_le_mono_r; lia).
    assert (HL : 2 ^ (54 + 1074) <= 2 ^ 2045) by (apply Z.pow_le_mono_r; lia).
    rewrite Z.pow_add_r in HL by lia.
    assert (0 < 2 ^ 1074) by (apply Z.pow_pos_nonneg; lia).
    assert (0 < 2 ^ (eb + 1074)) by (apply Z.pow_pos_nonneg; lia).
    remember (2 ^ 2045) as K. remember (2 ^ 1074) as L.
    remember (2 ^ (ez + 1074)) as P. remember (2 ^ (ea + 1074)) as A.
    remember (2 ^ (eb + 1074)) as B.
    remember (Z.abs (Zpos a' + cond_Zopp sb (Zpos b'))) as S.
    assert (HS : S * P <= Zpos ma * A + Zpos mb * B).
    { rewrite <- Ea, <- Eb, <- Z.mul_add_distr_r.
      apply Z.mul_le_mono_nonneg_r; lia. }
    assert (Hb3 : Zpos mb * B <= (2 ^ 53 - 1) * K)
      by (apply Z.mul_le_mono_nonneg; lia).
    assert (Ha3 : z * L <= (2 ^ 53 - 1) * L)
      by (apply Z.mul_le_mono_nonneg_r; lia).
    rewrite <- Z.mul_assoc. lia.
Qed.

(** ** One frame *)

Lemma apply_velocity_float64 (ps : list particle) :
  Forall float64_row ps -> Forall float64_row (apply_velocity ps).
Proof.
  intros H. unfold apply_velocity.
  apply Forall_fmap, Forall_fmap. eapply Forall_impl; [exact H|].
  intros p (Hx & Hy & Hvx & Hvy). unfold float64_row. cbn.
  repeat split; try assumption; apply add_float64; assumption.
Qed.

Lemma apply_velocity_length (ps : list particle) :
  length (apply_velocity ps) = length ps.
Proof. unfold apply_velocity. rewrite !length_map. reflexivity. Qed.

Lemma clamped_rows (ps : list particle) :
  Forall float64_row ps ->
  Forall (fun p => in_frame p /\ float64_row p) (map clamp_particle ps).
Proof.
  intros H. apply Forall_fmap. eapply Forall_impl; [exact H|].
  intros p (Hx & Hy & Hvx & Hvy).
  pose proof (clamp_particle_in_frame p Hx Hy) as Hin.
  split; [exact Hin|]. destruct Hin as (Cx & Cy & _).
  repeat split; assumption.
Qed.

Lemma add_noise_rows (ps noise : list particle) :
  Forall (fun p => in_frame p /\ float64_row p) ps ->
  Forall float64_row noise -> Forall finite_position noise ->
  Forall (fun p => float64_row p /\ finite_position p)
         (zip_with add_noise ps noise).
Proof.
  intros Hps. revert noise.
  induction Hps as [|p ps [Hin (Hx & Hy & Hvx & Hvy)] _ IH];
    intros noise Hv Hf; [constructor|].
  destruct noise as [|d noise]; [constructor|].
  apply Forall_cons in Hv as [(Dx & Dy & Dvx & Dvy) Hv].
  apply Forall_cons in Hf as [(Fx & Fy) Hf].
  cbn [zip_with]. constructor; [|apply IH; assumption].
  destruct (in_frame_below p Hin) as [Bx By].
  unfold float64_row, finite_position, add_noise. cbn.
  repeat split; try (apply add_float64; assumption).
  - eapply add_finite; [|exact Bx|assumption|assumption]. reflexivity.
  - eapply add_finite; [|exact By|assumption|assumption]. reflexivity.
Qed.

Lemma track_frame_outcome (N : nat) (ps : list particle) (f : frame)
    (drawn : list nat) (noise : list particle) :
  length ps = N -> Z.of_nat N <= 2 ^ 32 -> Forall float64_row ps ->
  frame_ok f -> np.drawn_from N N drawn ->
  length noise = N -> Forall float64_row noise -> Forall finite_position noise ->
  track_frame N ps f drawn noise = Raise ValueError \/
  exists next location,
    track_frame N ps f drawn noise = Ok (next, location) /\
    length next = N /\
    Forall (fun p => float64_row p /\ finite_position p) next /\
    on_frame location.
Proof.
  intros Hlen HN Hps [Hshape Hu8] [Hdl Hdr] Hnl Hnv Hnf.
  pose proof (apply_velocity_float64 ps Hps) as Hmoved.
  pose proof (apply_velocity_length ps) as Hml.
  set (moved := apply_velocity ps) in *.
  pose proof (clamped_rows moved Hmoved) as Hcl.
  set (clamped := map clamp_particle moved) in *.
  assert (Hcn : length clamped = N) by (unfold clamped; rewrite length_map; lia).
  assert (Hin : Forall in_frame clamped)
    by (eapply Forall_impl; [exact Hcl|]; intros p [H _]; exact H).
  destruct (compute_errors_returns N clamped f Hcn Hin Hshape)
    as (errors & He & Hel).
  unfold track_frame. fold moved.
  rewrite (enforce_edges_map N moved) by lia. fold clamped.
  cbn [mbind result_bind]. rewrite He. cbn [mbind result_bind].
  destruct N as [|n].
  { left. destruct errors; [|discriminate]. reflexivity. }
  destruct (compute_weights_spec clamped errors) as (m & _ & ->);
    [lia | intros ->; discriminate |].
  cbn [mbind result_bind]. rewrite resample_unfold.
  destruct (np.check_p _ _) as [[]|e] eqn:Hc.
  2:{ left. apply check_p_raises in Hc as ->. reflexivity. }
  cbn [mbind result_bind].
  destruct (take_returns clamped drawn) as [generation Ht].
  { rewrite Hcn. exact Hdr. }
  rewrite Ht. cbn [mbind result_bind].
  pose proof (take_Forall _ _ _ _ Hcl Ht) as Hgen.
  pose proof (take_Ok _ _ _ Ht) as [Hgl _].
  destruct (centroid_on_frame generation) as (location & -> & Hloc).
  - intros ->. cbn in Hgl. lia.
  - lia.
  - eapply Forall_impl; [exact Hgen|]. intros p [H _]. exact H.
  - cbn [mbind result_bind]. unfold apply_noise.
    replace (length noise =? length generation)%nat with true
      by (symmetry; apply Nat.eqb_eq; lia).
    right. exists (zip_with add_noise generation noise), location.
    split; [reflexivity|]. split; [rewrite length_zip_with; lia|].
    split; [apply add_noise_rows; assumption | exact Hloc].
Qed.

(** ** display *)

Lemma display_body_Ok (ps : list particle) (i : nat) (p : particle) :
  ps !! i = Some p -> finite_position p -> display_body ps i tt = Ok tt.
Proof.
  intros Hp [Fx Fy]. unfold display_body.
  rewrite getitem_nat, Hp. cbn [mbind result_bind].
  destruct (p_x p) as [sx|sx| |sx mx ex]; try discriminate;
    destruct (p_y p) as [sy|sy| |sy my ey]; try discriminate; reflexivity.
Qed.

Lemma display_loop (ps : list particle) (n : nat) : forall i : nat,
  (i + n <= length ps)%nat -> Forall finite_position ps ->
  for_range_from (display_body ps) i n tt = Ok tt.
Proof.
  induction n as [|n IH]; intros i Hi Hps; [reflexivity|].
  cbn [for_range_from].
  destruct (lookup_lt_is_Some_2 ps i) as [p Hp]; [lia|].
  rewrite (display_body_Ok ps i p Hp).
  - cbn [mbind result_bind]. apply IH; [lia|assumption].
  - rewrite Forall_forall in Hps. apply Hps. eapply list_elem_of_lookup_2, Hp.
Qed.

Lemma display_Ok (N : nat) (ps : list particle) (location : Z * Z)
    (key1 key2 : Z) :
  (N <= length ps)%nat -> Forall finite_position ps ->
  display N ps location key1 key2 =
    Ok (location, (key1 =? 27) && (key2 =? 27)).
Proof.
  intros Hlen Hps. unfold display, for_range.
  rewrite display_loop by (try assumption; lia).
  destruct (0 <? length ps)%nat; cbn [mbind result_bind];
    destruct (key1 =? 27), (key2 =? 27); reflexivity.
Qed.

(** ** The main routine *)

Lemma main_loop_safe (N : nat) (world : nat -> draws) :
  Z.of_nat N <= 2 ^ 32 -> (forall k, draws_ok N (world k)) ->
  forall (yields : list (option frame)) (k : nat) (ps : list particle),
  length ps = N -> Forall float64_row ps ->
  Forall (fun y => forall f, y = Some f -> frame_ok f) yields ->
  Forall on_frame (main_loop N world k ps yields).1 /\
  ending_ok (main_loop N world k ps yields).2.
Proof.
  intros HN Hw. induction yields as [|[f|] yields IH]; intros k ps Hlen Hps Hy;
    cbn [main_loop]; try (split; [constructor | left; reflexivity]).
  apply Forall_cons in Hy as [Hf Hy]. specialize (Hf f eq_refl).
  destruct (Hw k) as (Hd & Hnl & Hnv & Hnf).
  destruct (track_frame_outcome N ps f _ _ Hlen HN Hps Hf Hd Hnl Hnv Hnf)
    as [-> | (next & location & -> & Hl & Hrows & Hloc)].
  { split; [constructor | right; right; reflexivity]. }
  rewrite display_Ok.
  2:{ lia. }
  2:{ eapply Forall_impl; [exact Hrows|]. intros p [_ H]. exact H. }
  destruct ((d_key1 (world k) =? 27) && (d_key2 (world k) =? 27));
    cbv beta iota.
  - split; [constructor; [exact Hloc | constructor] | right; left; reflexivity].
  - destruct (IH (S k) next) as [IH1 IH2]; [assumption | | assumption |].
    { eapply Forall_impl; [exact Hrows|]. intros p [H _]. exact H. }
    destruct (main_loop N world (S k) next yields) as [circles e].
    split; [constructor; assumption | exact IH2].
Qed.

Lemma rand_ok_float64 (N : nat) (rand : list particle) :
  rand_ok N rand -> Forall float64_row rand.
Proof.
  intros [_ H]. eapply Forall_impl; [exact H|].
  intros r ((Hx & _) & (Hy & _) & (Hvx & _) & (Hvy & _)).
  repeat split; assumption.
Qed.

Lemma get_frames_ok (v : video) :
  Forall frame_ok (read v) ->
  Forall (fun y => forall f, y = Some f -> frame_ok f) (get_frames v).
Proof.
  intros H. unfold get_frames. apply Forall_app. split.
  - destruct (isOpened v); [|constructor].
    apply Forall_fmap. eapply Forall_impl; [exact H|].
    intros f Hf g [= <-]. exact Hf.
  - constructor; [discriminate | constructor].
Qed.

Lemma main_loop_count (N : nat) (world : nat -> draws) :
  forall (fs : list frame) (k : nat) (ps : list particle),
  let r := main_loop N world k ps (map Some fs ++ [None]) in
  (length r.1 <= length fs)%nat /\
  (r.2 = Finished -> length r.1 = length fs) /\
  (r.2 = Stopped ->
   exists j, length r.1 = S j /\
             d_key1 (world (k + j)%nat) = 27 /\ d_key2 (world (k + j)%nat) = 27).
Proof.
  induction fs as [|f fs IH]; intros k ps; cbn [map app main_loop length].
  { cbn. split; [lia|]. split; [reflexivity|discriminate]. }
  destruct (track_frame N ps f _ _) as [[next location]|e].
  2:{ cbn. split; [lia|]. split; discriminate. }
  unfold display.
  destruct (if (0 <? length next)%nat then _ else _) as [[]|e].
  2:{ cbn. split; [lia|]. split; discriminate. }
  cbn [mbind result_bind].
  destruct (Z.eqb_spec (d_key1 (world k)) 27) as [E1|];
    [destruct (Z.eqb_spec (d_key2 (world k)) 27) as [E2|]|].
  - cbn. split; [lia|]. split; [discriminate|]. intros _. exists 0%nat.
    rewrite Nat.add_0_r. auto.
  - specialize (IH (S k) next). cbn zeta in IH.
    destruct (main_loop N world (S k) next (map Some fs ++ [None])) as [cs e].
    cbn in *. destruct IH as (I1 & I2 & I3). split; [lia|].
    split; [intros H; rewrite I2 by exact H; reflexivity|].
    intros H. destruct (I3 H) as (j & Hj & K1 & K2). exists (S j).
    rewrite Nat.add_succ_r. rewrite Hj. auto.
  - specialize (IH (S k) next). cbn zeta in IH.
    destruct (main_loop N world (S k) next (map Some fs ++ [None])) as [cs e].
    cbn in *. destruct IH as (I1 & I2 & I3). split; [lia|].
    split; [intros H; rewrite I2 by exact H; reflexivity|].
    intros H. destruct (I3 H) as (j & Hj & K1 & K2). exists (S j).
    rewrite Nat.add_succ_r. rewrite Hj. auto.
Qed.

Lemma display_short (ps : list particle) (n : nat) : forall i : nat,
  (i <= length ps < i + n)%nat ->
  exists e, for_range_from (display_body ps) i n tt = Raise e.
Proof.
  induction n as [|n IH]; intros i Hi; [lia|].
  cbn [for_range_from].
  destruct (display_body ps i tt) as [[]|e] eqn:Hb.
  - cbn [mbind result_bind]. apply IH.
    destruct (Nat.eq_dec i (length ps)) as [->|]; [exfalso|lia].
    unfold display_body in Hb. rewrite getitem_nat in Hb.
    rewrite lookup_ge_None_2 in Hb by lia. discriminate Hb.
  - exists e. reflexivity.
Qed.

Lemma main_unfold (N : nat) (rand : list particle) (v : video)
    (world : nat -> draws) :
  main N rand v world =
    main_loop N world 0 (initialize_particles rand)
      (map Some (if isOpened v then read v else []) ++ [None]).
Proof. unfold main, get_frames. destruct (isOpened v); reflexivity. Qed.

(** * Main results *)

(** C1, as the code has it: for an all-zero weight vector [resample] has no
    guard and no fallback of its own.  It divides every weight by the zero
    sum, which gives NaN for every probability, and it does not keep the
    prior generation: the call ends in the [ValueError] that the index
    sampler raises for such probabilities. *)
Theorem resample_zero_weights (NUM_PARTICLES : nat) (particles : list particle)
    (weights : list float) (drawn : list nat) :
  Forall (fun w => is_zero w = true) weights ->
  is_zero (np.sum weights) = true /\
  probabilities weights = map (fun _ => nan) weights /\
  resample NUM_PARTICLES particles weights drawn = Raise ValueError.
Proof.
  intros Hz. split; [apply sum_zeros, Hz|].
  pose proof (probabilities_zeros weights Hz) as Hp.
  split; [exact Hp|].
  unfold resample, np.random_choice. rewrite Hp.
  rewrite check_p_nan; [reflexivity|].
  apply Forall_forall. intros q Hq.
  apply list_elem_of_fmap in Hq as (w & -> & _). reflexivity.
Qed.

Lemma resample_zero_weights_witness :
  is_zero (np.sum zero_weights) = true /\
  probabilities zero_weights = map (fun _ => nan) zero_weights /\
  resample 3 sample_particles zero_weights sample_drawn = Raise ValueError.
Proof.
  apply (resample_zero_weights 3 sample_particles zero_weights sample_drawn).
  repeat constructor.
Defined.

(** C1, as the claim states it, fails: the division by the zero sum is
    carried out and its results are undefined. *)
Lemma resample_zero_weights_divides :
  np.sum zero_weights = zero /\
  probabilities zero_weights = [nan; nan; nan] /\
  ~ Forall (fun q => is_nan q = false) (probabilities zero_weights) /\
  resample 3 sample_particles zero_weights sample_drawn = Raise ValueError.
Proof.
  split; [reflexivity|]. split; [reflexivity|]. split; [|reflexivity].
  intros H. inversion H as [|q qs Hq _]. discriminate Hq.
Qed.

(** C2: for every particle set of size [NUM_PARTICLES] and every weight
    vector with strictly positive sum, the particle set [resample] returns
    has exactly [NUM_PARTICLES] particles, however skewed the weights. *)
Theorem resample_cardinality (NUM_PARTICLES : nat) (particles : list particle)
    (weights : list float) (drawn : list nat)
    (generation : list particle) (location : Z * Z) :
  length particles = NUM_PARTICLES ->
  (zero <? np.sum weights)%flt = true ->
  np.drawn_from NUM_PARTICLES NUM_PARTICLES drawn ->
  resample NUM_PARTICLES particles weights drawn = Ok (generation, location) ->
  length generation = NUM_PARTICLES.
Proof.
  intros _ _ [Hdrawn _] H.
  apply resample_Ok in H as (_ & Ht & _).
  apply take_Ok in Ht as [Hlen _]. congruence.
Qed.

Lemma resample_cardinality_witness :
  length [ Particle (of_int 400) (of_int 300) zero one;
           Particle (of_int 100) (of_int 50) one zero;
           Particle (of_int 400) (of_int 300) zero one ] = 3%nat.
Proof.
  apply (resample_cardinality 3 sample_particles sample_weights sample_drawn
           _ (300, 216)).
  - reflexivity.
  - reflexivity.
  - split; [reflexivity|]. repeat constructor.
  - reflexivity.
Defined.

(** C3: for every particle set, [enforce_edges] sets each position to
    [x = max(0, min(WIDTH-1, x))] and [y = max(0, min(HEIGHT-1, y))], so that
    afterwards [0 <= x <= WIDTH-1] and [0 <= y <= HEIGHT-1], and it leaves
    both velocity components of every particle unchanged. *)
Theorem enforce_edges_clamps (NUM_PARTICLES : nat) (particles : list particle) :
  length particles = NUM_PARTICLES ->
  exists clamped,
    enforce_edges NUM_PARTICLES particles = Ok clamped /\
    length clamped = NUM_PARTICLES /\
    forall i p, particles !! i = Some p ->
      exists q, clamped !! i = Some q /\
        p_x q = to_float (py_max (PyInt 0)
                            (py_min (PyInt (WIDTH - 1)) (PyFloat (p_x p)))) /\
        p_y q = to_float (py_max (PyInt 0)
                            (py_min (PyInt (HEIGHT - 1)) (PyFloat (p_y p)))) /\
        (of_int 0 <=? p_x q)%flt = true /\
        (p_x q <=? of_int (WIDTH - 1))%flt = true /\
        (of_int 0 <=? p_y q)%flt = true /\
        (p_y q <=? of_int (HEIGHT - 1))%flt = true /\
        p_vx q = p_vx p /\ p_vy q = p_vy p.
Proof.
  intros Hlen. exists (map clamp_particle particles).
  split; [apply enforce_edges_map, Hlen|].
  split; [rewrite length_map; exact Hlen|].
  intros i p Hp. exists (clamp_particle p).
  split; [rewrite list_lookup_fmap, Hp; reflexivity|].
  destruct width_edge as [Hw Hwf], height_edge as [Hh Hhf].
  destruct (clamp_range _ Hw Hwf (p_x p)) as [Hx0 Hx1].
  destruct (clamp_range _ Hh Hhf (p_y p)) as [Hy0 Hy1].
  unfold clamp_particle; cbn [p_x p_y p_vx p_vy]. tauto.
Qed.

Lemma enforce_edges_clamps_witness :
  exists clamped,
    enforce_edges 3 sample_raw = Ok clamped /\
    length clamped = 3%nat /\
    forall i p, sample_raw !! i = Some p ->
      exists q, clamped !! i = Some q /\
        p_x q = to_float (py_max (PyInt 0)
                            (py_min (PyInt (WIDTH - 1)) (PyFloat (p_x p)))) /\
        p_y q = to_float (py_max (PyInt 0)
                            (py_min (PyInt (HEIGHT - 1)) (PyFloat (p_y p)))) /\
        (of_int 0 <=? p_x q)%flt = true /\
        (p_x q <=? of_int (WIDTH - 1))%flt = true /\
        (of_int 0 <=? p_y q)%flt = true /\
        (p_y q <=? of_int (HEIGHT - 1))%flt = true /\
        p_vx q = p_vx p /\ p_vy q = p_vy p.
Proof. apply (enforce_edges_clamps 3 sample_raw). reflexivity. Defined.

(** C4: for every particle whose position is already clamped into
    [[0, WIDTH-1] x [0, HEIGHT-1]], truncating [x] and [y] to integers gives
    pixel indices inside the [WIDTH x HEIGHT] frame, so the pixel read of
    [compute_errors] never indexes out of bounds and the scoring loop
    returns an error for each particle. *)
Theorem compute_errors_in_bounds (NUM_PARTICLES : nat)
    (particles : list particle) (f : frame) :
  length particles = NUM_PARTICLES ->
  Forall in_frame particles ->
  frame_shape f ->
  (forall p, p ∈ particles ->
     exists x y, to_int (p_x p) = Ok x /\ to_int (p_y p) = Ok y /\
                 0 <= x < WIDTH /\ 0 <= y < HEIGHT /\
                 returns (read_pixel f y x)) /\
  exists errors,
    compute_errors NUM_PARTICLES particles f = Ok errors /\
    length errors = NUM_PARTICLES.
Proof.
  intros Hlen Hps Hf. split.
  - intros p Hp. rewrite Forall_forall in Hps.
    destruct (pixel_index p (Hps p Hp)) as (x & y & Ex & Ey & Hx & Hy).
    exists x, y. repeat split; try assumption; try lia.
    apply read_pixel_in_range; assumption.
  - apply compute_errors_returns; assumption.
Qed.

Lemma compute_errors_in_bounds_witness :
  (forall p, p ∈ sample_particles ->
     exists x y, to_int (p_x p) = Ok x /\ to_int (p_y p) = Ok y /\
                 0 <= x < WIDTH /\ 0 <= y < HEIGHT /\
                 returns (read_pixel black_frame y x)) /\
  exists errors,
    compute_errors 3 sample_particles black_frame = Ok errors /\
    length errors = 3%nat.
Proof.
  apply (compute_errors_in_bounds 3 sample_particles black_frame).
  - reflexivity.
  - repeat constructor.
  - split; [reflexivity|]. apply Forall_replicate. reflexivity.
Defined.

(** C5: for every error vector and the particle set that was scored, every
    weight [compute_weights] produces is non-negative, and the weight is
    exactly [0.0] for every particle with [x = 0], [x = WIDTH-1], [y = 0] or
    [y = HEIGHT-1]. *)
Theorem compute_weights_nonneg (particles : list particle) (errors : list float) :
  length errors = length particles ->
  errors <> [] ->
  Forall (fun e => is_finite e = true) errors ->
  exists weights,
    compute_weights particles errors = Ok weights /\
    length weights = length particles /\
    forall i p w, particles !! i = Some p -> weights !! i = Some w ->
      (zero <=? w)%flt = true /\
      ((p_x p =? of_int 0)%flt = true \/
       (p_x p =? of_int (WIDTH - 1))%flt = true \/
       (p_y p =? of_int 0)%flt = true \/
       (p_y p =? of_int (HEIGHT - 1))%flt = true -> w = zero).
Proof.
  intros Hlen Hne Hfin.
  destruct (compute_weights_spec particles errors Hlen Hne) as (m & Hm & E).
  exists (zip_with (weight m) particles errors). split; [exact E|].
  split; [rewrite length_zip_with; lia|].
  rewrite Forall_forall in Hfin.
  intros i p w Hp Hw.
  apply lookup_zip_with_Some in Hw as (p' & e & -> & Hp' & He).
  assert (p' = p) as -> by congruence.
  split.
  - apply weight_nonneg; apply Hfin.
    + eapply max_elem, Hm.
    + eapply list_elem_of_lookup_2, He.
  - intros Hedge. apply weight_edge. unfold on_edge.
    destruct Hedge as [H|[H|[H|H]]]; rewrite H; rewrite ?orb_true_r; reflexivity.
Qed.

Lemma compute_weights_nonneg_witness :
  exists weights,
    compute_weights sample_edge_particles sample_errors = Ok weights /\
    length weights = length sample_edge_particles /\
    forall i p w, sample_edge_particles !! i = Some p -> weights !! i = Some w ->
      (zero <=? w)%flt = true /\
      ((p_x p =? of_int 0)%flt = true \/
       (p_x p =? of_int (WIDTH - 1))%flt = true \/
       (p_y p =? of_int 0)%flt = true \/
       (p_y p =? of_int (HEIGHT - 1))%flt = true -> w = zero).
Proof.
  apply (compute_weights_nonneg sample_edge_particles sample_errors).
  - reflexivity.
  - discriminate.
  - repeat constructor.
Defined.

(** C6: the clamp is idempotent: for every particle set, [enforce_edges]
    applied to its own result returns that result again. *)
Theorem enforce_edges_idempotent (NUM_PARTICLES : nat) (particles : list particle) :
  length particles = NUM_PARTICLES ->
  exists once,
    enforce_edges NUM_PARTICLES particles = Ok once /\
    enforce_edges NUM_PARTICLES once = Ok once.
Proof.
  intros Hlen. exists (map clamp_particle particles).
  split; [apply enforce_edges_map, Hlen|].
  rewrite enforce_edges_map by (rewrite length_map; exact Hlen).
  f_equal. rewrite map_map. apply map_ext. intros p. apply clamp_particle_idempotent.
Qed.

Lemma enforce_edges_idempotent_witness :
  exists once, enforce_edges 3 sample_raw = Ok once /\ enforce_edges 3 once = Ok once.
Proof. apply (enforce_edges_idempotent 3 sample_raw). reflexivity. Defined.

(** C7: initialization produces exactly [NUM_PARTICLES] particles, each
    with [0 <= x < WIDTH], [0 <= y < HEIGHT], [|vx| <= VEL_RANGE/2] and
    [|vy| <= VEL_RANGE/2], for every array of values in [[0, 1)] that
    [np.random.rand] can return. *)
Theorem initialize_particles_bounds (NUM_PARTICLES : nat) (rand : list particle) :
  rand_ok NUM_PARTICLES rand ->
  length (initialize_particles rand) = NUM_PARTICLES /\
  forall p, p ∈ initialize_particles rand ->
    (of_int 0 <=? p_x p)%flt = true /\ (p_x p <? of_int WIDTH)%flt = true /\
    (of_int 0 <=? p_y p)%flt = true /\ (p_y p <? of_int HEIGHT)%flt = true /\
    (Float64.abs (p_vx p) <=? half_range)%flt = true /\
    (Float64.abs (p_vy p) <=? half_range)%flt = true.
Proof.
  intros [Hlen Hall]. unfold initialize_particles. split.
  - rewrite !length_map. exact Hlen.
  - intros p Hp. rewrite map_map in Hp.
    apply list_elem_of_fmap in Hp as (r & -> & Hr).
    rewrite Forall_forall in Hall.
    destruct (Hall r Hr) as (Hx & Hy & Hvx & Hvy). cbn [p_x p_y p_vx p_vy].
    destruct (scaled_position (p_x r) WIDTH 6350779162034176 (-43) eq_refl)
      as [Hx0 Hx1]; [split; reflexivity | lia | assumption |].
    destruct (scaled_position (p_y r) HEIGHT 7142427534032896 (-44) eq_refl)
      as [Hy0 Hy1]; [split; reflexivity | lia | assumption |].
    repeat split; try assumption; apply scaled_velocity; assumption.
Qed.

Lemma initialize_particles_bounds_witness :
  length (initialize_particles sample_rand) = 2%nat /\
  forall p, p ∈ initialize_particles sample_rand ->
    (of_int 0 <=? p_x p)%flt = true /\ (p_x p <? of_int WIDTH)%flt = true /\
    (of_int 0 <=? p_y p)%flt = true /\ (p_y p <? of_int HEIGHT)%flt = true /\
    (Float64.abs (p_vx p) <=? half_range)%flt = true /\
    (Float64.abs (p_vy p) <=? half_range)%flt = true.
Proof.
  apply (initialize_particles_bounds 2 sample_rand).
  split; [reflexivity|]. repeat constructor.
Defined.



(** C9: for every error vector whose entries are all equal, [compute_weights]
    produces the all-zero weight vector, whose sum is zero: each weight
    starts as [max(errors) - error]. *)
Theorem compute_weights_flat (particles : list particle) (errors : list float)
    (e : float) :
  length errors = length particles ->
  errors <> [] ->
  is_finite e = true ->
  Forall (fun x => (x =? e)%flt = true) errors ->
  exists weights,
    compute_weights particles errors = Ok weights /\
    length weights = length particles /\
    Forall (fun w => w = zero) weights /\
    np.sum weights = zero.
Proof.
  intros Hlen Hne He Hflat.
  destruct (compute_weights_spec particles errors Hlen Hne) as (m & Hm & E).
  exists (zip_with (weight m) particles errors). split; [exact E|].
  split; [rewrite length_zip_with; lia|].
  assert (Hall : Forall (fun w => w = zero) (zip_with (weight m) particles errors)).
  { rewrite Forall_forall in Hflat. apply Forall_forall. intros w Hw.
    apply list_elem_of_lookup_1 in Hw as [i Hw].
    apply lookup_zip_with_Some in Hw as (p & x & -> & Hp & Hx).
    unfold weight. destruct (on_edge p); [reflexivity|].
    apply pow4_of_zero, (sub_equal m x e He).
    - apply Hflat. eapply max_elem, Hm.
    - apply Hflat. eapply list_elem_of_lookup_2, Hx. }
  split; [exact Hall|]. apply sum_plus_zeros, Hall.
Qed.

Lemma compute_weights_flat_witness :
  exists weights,
    compute_weights sample_particles flat_errors = Ok weights /\
    length weights = length sample_particles /\
    Forall (fun w => w = zero) weights /\
    np.sum weights = zero.
Proof.
  apply (compute_weights_flat sample_particles flat_errors (of_int 7)).
  - reflexivity.
  - discriminate.
  - reflexivity.
  - repeat constructor.
Defined.

(** C10: for every particle set and every weight vector with strictly
    positive sum, each particle of the generation [resample] returns is, in
    all four components, a particle of the input set: the one at the index
    drawn for its row. *)
Theorem resample_only_copies (NUM_PARTICLES : nat) (particles : list particle)
    (weights : list float) (drawn : list nat)
    (generation : list particle) (location : Z * Z) :
  (zero <? np.sum weights)%flt = true ->
  resample NUM_PARTICLES particles weights drawn = Ok (generation, location) ->
  forall j q, generation !! j = Some q ->
    q ∈ particles /\
    exists i, drawn !! j = Some i /\ particles !! i = Some q.
Proof.
  intros _ H j q Hq.
  apply resample_Ok in H as (_ & Ht & _).
  apply take_Ok in Ht as [_ Hall].
  destruct (Hall j q Hq) as (i & Hi & Hp).
  split; [eapply list_elem_of_lookup_2, Hp|eauto].
Qed.

Lemma resample_only_copies_witness :
  Particle (of_int 400) (of_int 300) zero one ∈ sample_particles /\
  exists i, sample_drawn !! 0%nat = Some i /\
            sample_particles !! i = Some (Particle (of_int 400) (of_int 300) zero one).
Proof.
  apply (resample_only_copies 3 sample_particles sample_weights sample_drawn
           [ Particle (of_int 400) (of_int 300) zero one;
             Particle (of_int 100) (of_int 50) one zero;
             Particle (of_int 400) (of_int 300) zero one ] (300, 216)).
  - reflexivity.
  - reflexivity.
  - reflexivity.
Defined.

(** * Further results *)

(** X1: with fewer than [NUM_PARTICLES] rows, [enforce_edges] raises
    [IndexError]: the loop runs to [range(NUM_PARTICLES)] whatever the
    array holds. *)
Theorem enforce_edges_too_few_rows (NUM_PARTICLES : nat)
    (particles : list particle) :
  (length particles < NUM_PARTICLES)%nat ->
  enforce_edges NUM_PARTICLES particles = Raise IndexError.
Proof. apply enforce_edges_short. Qed.

Lemma enforce_edges_too_few_rows_witness :
  enforce_edges 3 [ Particle one one zero zero; Particle nan zero zero zero ]
    = Raise IndexError.
Proof. apply enforce_edges_too_few_rows. simpl. lia. Defined.

(** X2: with more than [NUM_PARTICLES] rows, [enforce_edges] clamps the
    first [NUM_PARTICLES] rows and returns the others as they are. *)
Theorem enforce_edges_extra_rows (NUM_PARTICLES : nat)
    (particles : list particle) :
  (NUM_PARTICLES <= length particles)%nat ->
  exists clamped,
    enforce_edges NUM_PARTICLES particles = Ok clamped /\
    length clamped = length particles /\
    forall i p, particles !! i = Some p ->
      clamped !! i =
        Some (if (i <? NUM_PARTICLES)%nat
              then Particle (clamp (WIDTH - 1) (p_x p)) (clamp (HEIGHT - 1) (p_y p))
                            (p_vx p) (p_vy p)
              else p).
Proof.
  intros Hlen. eexists. split; [apply enforce_edges_spec, Hlen|].
  split.
  - rewrite length_app, length_map, length_take, length_drop. lia.
  - intros i p Hp. destruct (Nat.ltb_spec i NUM_PARTICLES) as [Hi|Hi].
    + rewrite lookup_app_l by (rewrite length_map, length_take; lia).
      rewrite list_lookup_fmap, lookup_take_lt, Hp by lia. reflexivity.
    + rewrite lookup_app_r by (rewrite length_map, length_take; lia).
      rewrite length_map, length_take, lookup_drop, <- Hp. f_equal. lia.
Qed.

Lemma enforce_edges_extra_rows_witness :
  exists clamped,
    enforce_edges 2 sample_raw = Ok clamped /\
    length clamped = length sample_raw /\
    forall i p, sample_raw !! i = Some p ->
      clamped !! i =
        Some (if (i <? 2)%nat
              then Particle (clamp (WIDTH - 1) (p_x p)) (clamp (HEIGHT - 1) (p_y p))
                            (p_vx p) (p_vy p)
              else p).
Proof. apply (enforce_edges_extra_rows 2 sample_raw). simpl. lia. Defined.

(** X3: [enforce_edges] returns unchanged a particle set whose positions
    all lie strictly between the edges. *)
Theorem enforce_edges_interior (NUM_PARTICLES : nat) (particles : list particle) :
  length particles = NUM_PARTICLES ->
  Forall strictly_inside particles ->
  enforce_edges NUM_PARTICLES particles = Ok particles.
Proof.
  intros Hlen Hin. rewrite enforce_edges_map by exact Hlen.
  rewrite map_clamp_inside by exact Hin. reflexivity.
Qed.

Lemma enforce_edges_interior_witness :
  enforce_edges 3 sample_interior = Ok sample_interior.
Proof.
  apply (enforce_edges_interior 3 sample_interior); [reflexivity|].
  repeat constructor.
Defined.

(** X4: a particle that [enforce_edges] had to move gets weight [0.0]:
    after clamping and weighing, every row whose position was not strictly
    inside the frame (NaN and infinite coordinates included) has weight
    exactly [0.0], whatever the errors. *)
Theorem off_frame_weight_zero (NUM_PARTICLES : nat) (particles : list particle)
    (errors : list float) :
  length particles = NUM_PARTICLES ->
  length errors = NUM_PARTICLES ->
  errors <> [] ->
  exists clamped weights,
    enforce_edges NUM_PARTICLES particles = Ok clamped /\
    compute_weights clamped errors = Ok weights /\
    forall i p w, particles !! i = Some p -> weights !! i = Some w ->
      ~ strictly_inside p -> w = zero.
Proof.
  intros Hlen Hel Hne.
  destruct (compute_weights_spec (map clamp_particle particles) errors)
    as (m & Hm & Hw); [rewrite length_map; congruence | exact Hne |].
  exists (map clamp_particle particles),
    (zip_with (weight m) (map clamp_particle particles) errors).
  split; [apply enforce_edges_map, Hlen|]. split; [exact Hw|].
  intros i p w Hp Hi Hout.
  apply lookup_zip_with_Some in Hi as (q & e & -> & Hq & _).
  rewrite list_lookup_fmap, Hp in Hq. injection Hq as <-.
  apply weight_edge.
  destruct (clamp_particle_on_edge p) as [H|H]; [contradiction|exact H].
Qed.

Lemma off_frame_weight_zero_witness :
  exists clamped weights,
    enforce_edges 3 sample_raw = Ok clamped /\
    compute_weights clamped sample_errors = Ok weights /\
    forall i p w, sample_raw !! i = Some p -> weights !! i = Some w ->
      ~ strictly_inside p -> w = zero.
Proof.
  apply (off_frame_weight_zero 3 sample_raw sample_errors);
    [reflexivity | reflexivity | discriminate].
Defined.

(** X5: when [compute_errors] returns, it returns [NUM_PARTICLES] errors,
    and the error of row [i] is the squared colour distance between
    [TARGET_COLOUR] and the pixel at the truncated position of particle
    [i]. *)
Theorem compute_errors_per_row (NUM_PARTICLES : nat) (particles : list particle)
    (f : frame) (errors : list float) :
  compute_errors NUM_PARTICLES particles f = Ok errors ->
  length errors = NUM_PARTICLES /\
  forall i, (i < NUM_PARTICLES)%nat ->
    exists p x y c,
      particles !! i = Some p /\
      to_int (p_x p) = Ok x /\ to_int (p_y p) = Ok y /\
      read_pixel f y x = Ok c /\
      errors !! i = Some (of_int (colour_error c)).
Proof.
  intros H. apply compute_errors_rows in H as [Hlen Hrows].
  split; [exact Hlen|]. intros i Hi.
  destruct (Hrows i Hi) as (e & He & p & x & y & c & Hp & Hx & Hy & Hc & ->).
  exists p, x, y, c. auto.
Qed.

Lemma compute_errors_per_row_witness :
  length [ of_int 0; of_int 53470; of_int 53470 ] = 3%nat /\
  forall i, (i < 3)%nat ->
    exists p x y c,
      [ Particle (of_int 100) (of_int 50) one zero;
        Particle (of_int 10) (of_int 20) zero zero;
        Particle (of_int 400) (of_int 300) zero one ] !! i = Some p /\
      to_int (p_x p) = Ok x /\ to_int (p_y p) = Ok y /\
      read_pixel marked_frame y x = Ok c /\
      [ of_int 0; of_int 53470; of_int 53470 ] !! i
        = Some (of_int (colour_error c)).
Proof.
  apply (compute_errors_per_row 3 sample_interior marked_frame). reflexivity.
Defined.

(** X6: on a frame of [uint8] pixels every error [compute_errors] returns is
    finite and not negative, and it is [0.0] exactly when the pixel read
    for that particle has the target colour. *)
Theorem compute_errors_match (NUM_PARTICLES : nat) (particles : list particle)
    (f : frame) (errors : list float) :
  frame_uint8 f ->
  compute_errors NUM_PARTICLES particles f = Ok errors ->
  forall i e, errors !! i = Some e ->
    is_finite e = true /\ (zero <=? e)%flt = true /\
    exists p x y c,
      particles !! i = Some p /\
      to_int (p_x p) = Ok x /\ to_int (p_y p) = Ok y /\
      read_pixel f y x = Ok c /\
      (e = zero <-> c = TARGET_COLOUR).
Proof.
  intros Hf H i e He. apply compute_errors_rows in H as [Hlen Hrows].
  assert (Hi : (i < NUM_PARTICLES)%nat) by (apply lookup_lt_Some in He; lia).
  destruct (Hrows i Hi) as (e' & He' & p & x & y & c & Hp & Hx & Hy & Hc & ->).
  assert (e = of_int (colour_error c)) as -> by congruence.
  pose proof (colour_error_small c (read_pixel_elem f y x c Hf Hc)) as Hr.
  assert (Hr53 : 0 <= colour_error c < 2 ^ 53).
  { assert (195075 < 2 ^ 53) by reflexivity. lia. }
  split; [apply of_int_finite, colour_error_range, (read_pixel_elem f y x c Hf Hc)|].
  split.
  - destruct (Z.eq_dec (colour_error c) 0) as [->|Hne]; [reflexivity|].
    apply ltb_leb, of_int_positive. lia.
  - exists p, x, y, c. repeat split; try assumption.
    + intros Hz. apply colour_error_zero_iff, of_int_zero_iff; assumption.
    + intros Hc'. apply of_int_zero_iff; [assumption|].
      apply colour_error_zero_iff, Hc'.
Qed.

Lemma compute_errors_match_witness :
  is_finite (of_int 0) = true /\ (zero <=? of_int 0)%flt = true /\
  exists p x y c,
    sample_interior !! 0%nat = Some p /\
    to_int (p_x p) = Ok x /\ to_int (p_y p) = Ok y /\
    read_pixel marked_frame y x = Ok c /\
    (of_int 0 = zero <-> c = TARGET_COLOUR).
Proof.
  apply (compute_errors_match 3 sample_interior marked_frame
           [ of_int 0; of_int 53470; of_int 53470 ]).
  - apply Forall_insert; [apply Forall_replicate, Forall_replicate|
                          apply Forall_insert; [apply Forall_replicate|]];
      unfold uint8; simpl; lia.
  - reflexivity.
  - reflexivity.
Defined.

(** X7: [compute_weights] raises [ValueError] on an empty error vector
    (the maximum of nothing), and [IndexError] when the error vector and
    the particle array differ in length (the edge mask does not fit). *)
Theorem compute_weights_bad_shapes (particles : list particle)
    (errors : list float) :
  compute_weights particles [] = Raise ValueError /\
  (errors <> [] -> length errors <> length particles ->
   compute_weights particles errors = Raise IndexError).
Proof.
  split; [reflexivity|]. intros Hne Hlen. unfold compute_weights.
  destruct errors as [|e errors]; [congruence|].
  cbn [np.max mbind result_bind]. unfold mask_assign. rewrite !length_map.
  destruct (Nat.eqb_spec (length particles) (length (e :: errors)));
    [congruence | reflexivity].
Qed.

Lemma compute_weights_bad_shapes_witness :
  compute_weights sample_particles [] = Raise ValueError /\
  compute_weights sample_particles [ one; zero ] = Raise IndexError.
Proof.
  split.
  - apply (compute_weights_bad_shapes sample_particles []).
  - apply (compute_weights_bad_shapes sample_particles [ one; zero ]);
      [discriminate | simpl; lia].
Defined.

(** X8: the worst match never survives: among finite errors, every
    particle whose error is the largest one gets weight [0.0], and there
    is always such a particle. *)
Theorem compute_weights_worst_zero (particles : list particle)
    (errors : list float) :
  length errors = length particles ->
  errors <> [] ->
  Forall (fun e => is_finite e = true) errors ->
  exists weights m,
    compute_weights particles errors = Ok weights /\
    np.max errors = Ok m /\
    (exists i, errors !! i = Some m) /\
    forall i, errors !! i = Some m -> weights !! i = Some zero.
Proof.
  intros Hlen Hne Hfin.
  destruct (compute_weights_spec particles errors Hlen Hne) as (m & Hm & Hw).
  exists (zip_with (weight m) particles errors), m.
  split; [exact Hw|]. split; [exact Hm|].
  pose proof (max_elem _ _ Hm) as Hin. split.
  - apply list_elem_of_lookup_1. exact Hin.
  - intros i Hi.
    destruct (lookup_lt_is_Some_2 particles i) as [p Hp].
    { apply lookup_lt_Some in Hi. lia. }
    rewrite lookup_zip_with, Hp, Hi. cbn. f_equal.
    unfold weight. destruct (on_edge p); [reflexivity|].
    rewrite sub_diag; [reflexivity|].
    rewrite Forall_forall in Hfin. apply Hfin, Hin.
Qed.

Lemma compute_weights_worst_zero_witness :
  exists weights m,
    compute_weights sample_particles sample_errors = Ok weights /\
    np.max sample_errors = Ok m /\
    (exists i, sample_errors !! i = Some m) /\
    forall i, sample_errors !! i = Some m -> weights !! i = Some zero.
Proof.
  apply (compute_weights_worst_zero sample_particles sample_errors);
    [reflexivity | discriminate | repeat constructor].
Defined.

(** X9: [particles += noise] in [apply_noise] returns as many rows as
    [particles] has when [noise] has the same number of rows or exactly
    one row, and raises [ValueError] for every other shape. *)
Theorem apply_noise_shapes (particles noise : list particle) :
  (length noise = length particles \/ length noise = 1%nat ->
   exists noisy, apply_noise particles noise = Ok noisy /\
                 length noisy = length particles) /\
  (length noise <> length particles -> length noise <> 1%nat ->
   apply_noise particles noise = Raise ValueError).
Proof.
  unfold apply_noise. split.
  - intros H. destruct (Nat.eqb_spec (length noise) (length particles)) as [E|N].
    + eexists. split; [reflexivity|]. rewrite length_zip_with. lia.
    + destruct H as [H|H]; [contradiction|].
      destruct noise as [|d [|d' noise]]; try discriminate.
      eexists. split; [reflexivity|]. apply length_map.
  - intros H1 H2. destruct (Nat.eqb_spec (length noise) (length particles));
      [contradiction|].
    destruct noise as [|d [|d' noise]]; try reflexivity. simpl in H2. lia.
Qed.

Lemma apply_noise_shapes_witness :
  (exists noisy, apply_noise sample_particles sample_noise = Ok noisy /\
                 length noisy = length sample_particles) /\
  apply_noise sample_particles [ Particle one one one one;
                                 Particle zero zero zero zero ]
    = Raise ValueError.
Proof.
  split.
  - apply (proj1 (apply_noise_shapes sample_particles sample_noise)).
    left. reflexivity.
  - apply (proj2 (apply_noise_shapes sample_particles
                    [ Particle one one one one; Particle zero zero zero zero ]));
      simpl; lia.
Defined.

(** X10: the filter needs at least two particles: with
    [NUM_PARTICLES <= 1] every pass of the main loop raises.  The only
    particle has the largest error, so its weight is [0.0] (or NaN), the
    probabilities are NaN and the sampler rejects them. *)
Theorem track_frame_needs_two (NUM_PARTICLES : nat) (particles : list particle)
    (f : frame) (drawn : list nat) (noise : list particle) :
  (NUM_PARTICLES <= 1)%nat ->
  exists e, track_frame NUM_PARTICLES particles f drawn noise = Raise e.
Proof.
  intros HN.
  destruct (track_frame NUM_PARTICLES particles f drawn noise) as [r|e] eqn:H;
    [exfalso | exists e; reflexivity].
  unfold track_frame in H.
  apply bind_Ok in H as (clamped & _ & H).
  apply bind_Ok in H as (errors & He & H).
  apply bind_Ok in H as (weights & Hw & H).
  apply bind_Ok in H as ([generation loc] & Hr & _).
  apply compute_errors_rows in He as [Hlen _].
  pose proof (compute_weights_Ok _ _ _ Hw) as [Hlc Hne].
  destruct (compute_weights_spec clamped errors Hlc Hne) as (m & Hm & Hw').
  rewrite Hw' in Hw. injection Hw as <-.
  apply resample_Ok in Hr as (Hc & _).
  destruct errors as [|e [|e' errors]]; [congruence| |simpl in Hlen; lia].
  destruct clamped as [|p [|p' clamped]]; try discriminate.
  injection Hm as <-. cbn [zip_with] in Hc.
  rewrite (lone_probability _ (self_weight e p)) in Hc.
  rewrite check_p_nan in Hc by (repeat constructor). discriminate.
Qed.

Lemma track_frame_needs_two_witness :
  exists e,
    track_frame 1 [ Particle (of_int 100) (of_int 50) zero zero ] marked_frame
                [ 0%nat ] [ Particle zero zero zero zero ] = Raise e.
Proof. apply track_frame_needs_two. lia. Defined.

Lemma marked_frame_shape : frame_shape marked_frame.
Proof.
  split; [reflexivity|].
  apply Forall_insert; [apply Forall_replicate; reflexivity|reflexivity].
Qed.

Lemma marked_frame_uint8 : frame_uint8 marked_frame.
Proof.
  apply Forall_insert; [apply Forall_replicate, Forall_replicate|
                        apply Forall_insert; [apply Forall_replicate|]];
    unfold uint8; simpl; lia.
Qed.

Lemma sample_seed_ok : rand_ok 3 sample_seed.
Proof.
  split; [reflexivity|]. repeat constructor.
Qed.

Lemma sample_world_ok (k : nat) : draws_ok 3 (sample_world k).
Proof.
  split; [split; [reflexivity|repeat constructor]|].
  split; [reflexivity|]. split; repeat constructor.
Qed.


Lemma sample_video_ok : Forall frame_ok (read sample_video).
Proof.
  constructor; [|constructor].
  split; [apply marked_frame_shape | apply marked_frame_uint8].
Qed.

(** X11: when [resample] returns on rows that lie in the frame, the
    location it estimates lies in the frame too: [0 <= x <= WIDTH - 1] and
    [0 <= y <= HEIGHT - 1], for up to [2^32] particles. *)
Theorem resample_location_on_frame (N : nat) (ps : list particle)
    (ws : list float) (drawn : list nat)
    (generation : list particle) (location : Z * Z) :
  Z.of_nat N <= 2 ^ 32 -> Forall in_frame ps -> np.drawn_from N N drawn ->
  resample N ps ws drawn = Ok (generation, location) ->
  on_frame location.
Proof.
  intros HN Hps [Hdl _] H. apply resample_Ok in H as (_ & Ht & Hc).
  pose proof (take_Forall _ _ _ _ Hps Ht) as Hgen.
  pose proof (take_Ok _ _ _ Ht) as [Hgl _].
  destruct generation as [|g generation]; [discriminate Hc|].
  destruct (centroid_on_frame (g :: generation)) as (l & El & Hl);
    [discriminate | lia | exact Hgen |].
  rewrite El in Hc. injection Hc as <-. exact Hl.
Qed.

Lemma resample_location_on_frame_witness : on_frame (300, 216).
Proof.
  apply (resample_location_on_frame 3 sample_particles sample_weights
           sample_drawn
           [ Particle (of_int 400) (of_int 300) zero one;
             Particle (of_int 100) (of_int 50) one zero;
             Particle (of_int 400) (of_int 300) zero one ]).
  - vm_compute. discriminate.
  - repeat constructor.
  - split; [reflexivity|repeat constructor].
  - vm_compute. reflexivity.
Defined.

(** X12: on [NUM_PARTICLES] rows that lie in the frame, [resample] returns
    exactly when the sampler accepts the probabilities, and otherwise
    raises ValueError: neither the indexing nor [int()] can fail. *)
Theorem resample_fails_only_in_sampler (N : nat) (ps : list particle)
    (ws : list float) (drawn : list nat) :
  length ps = N -> Z.of_nat N <= 2 ^ 32 -> Forall in_frame ps ->
  np.drawn_from N N drawn ->
  (np.check_p N (probabilities ws) = Ok tt ->
   exists generation location,
     resample N ps ws drawn = Ok (generation, location)) /\
  (np.check_p N (probabilities ws) <> Ok tt ->
   resample N ps ws drawn = Raise ValueError).
Proof.
  intros Hlen HN Hps [Hdl Hdr]. rewrite resample_unfold.
  destruct (np.check_p N (probabilities ws)) as [[]|e] eqn:Hc.
  - split; [intros _|congruence]. cbn [mbind result_bind].
    destruct (take_returns ps drawn) as [generation Ht];
      [rewrite Hlen; exact Hdr|].
    rewrite Ht. cbn [mbind result_bind].
    pose proof (take_Forall _ _ _ _ Hps Ht) as Hgen.
    pose proof (take_Ok _ _ _ Ht) as [Hgl _].
    destruct (centroid_on_frame generation) as (l & -> & _);
      [ | lia | exact Hgen | exists generation, l; reflexivity].
    intros ->. cbn in Hgl. destruct N; [|lia].
    exact (check_p_nonempty _ Hc).
  - split; [discriminate|intros _].
    apply check_p_raises in Hc as ->. reflexivity.
Qed.

Lemma resample_fails_only_in_sampler_witness :
  (np.check_p 3 (probabilities sample_weights) = Ok tt ->
   exists generation location,
     resample 3 sample_particles sample_weights sample_drawn =
       Ok (generation, location)) /\
  (np.check_p 3 (probabilities sample_weights) <> Ok tt ->
   resample 3 sample_particles sample_weights sample_drawn = Raise ValueError).
Proof.
  apply (resample_fails_only_in_sampler 3 sample_particles sample_weights
           sample_drawn).
  - reflexivity.
  - vm_compute. discriminate.
  - repeat constructor.
  - split; [reflexivity|repeat constructor].
Defined.

(** X13: after the motion step, [enforce_edges] returns [NUM_PARTICLES] rows
    that all lie in the frame, whatever binary64 values the positions and
    velocities held, NaN and infinities included. *)
Theorem motion_then_clamp_in_frame (N : nat) (ps : list particle) :
  length ps = N -> Forall float64_row ps ->
  exists clamped,
    enforce_edges N (apply_velocity ps) = Ok clamped /\
    length clamped = N /\ Forall in_frame clamped.
Proof.
  intros Hlen Hps. exists (map clamp_particle (apply_velocity ps)).
  split; [apply enforce_edges_map; rewrite apply_velocity_length; exact Hlen|].
  split; [rewrite length_map, apply_velocity_length; exact Hlen|].
  eapply Forall_impl; [apply clamped_rows, apply_velocity_float64, Hps|].
  intros p [H _]. exact H.
Qed.

Lemma motion_then_clamp_in_frame_witness :
  exists clamped,
    enforce_edges 3 (apply_velocity sample_raw) = Ok clamped /\
    length clamped = 3%nat /\ Forall in_frame clamped.
Proof.
  apply (motion_then_clamp_in_frame 3 sample_raw).
  - reflexivity.
  - repeat constructor.
Defined.

(** X14: one pass of the loop body on [NUM_PARTICLES] binary64 rows, a
    frame of the right shape with uint8 channels, indices below
    [NUM_PARTICLES] and finite noise either raises ValueError or returns
    [NUM_PARTICLES] binary64 rows with finite positions and a location in
    the frame. *)
Theorem track_frame_safe (N : nat) (ps : list particle) (f : frame)
    (drawn : list nat) (noise : list particle) :
  length ps = N -> Z.of_nat N <= 2 ^ 32 -> Forall float64_row ps ->
  frame_ok f -> np.drawn_from N N drawn ->
  length noise = N -> Forall float64_row noise -> Forall finite_position noise ->
  track_frame N ps f drawn noise = Raise ValueError \/
  exists next location,
    track_frame N ps f drawn noise = Ok (next, location) /\
    length next = N /\
    Forall (fun p => float64_row p /\ finite_position p) next /\
    on_frame location.
Proof. apply track_frame_outcome. Qed.

Lemma track_frame_safe_witness :
  track_frame 3 sample_start marked_frame [0; 0; 0]%nat sample_noise =
    Raise ValueError \/
  exists next location,
    track_frame 3 sample_start marked_frame [0; 0; 0]%nat sample_noise =
      Ok (next, location) /\
    length next = 3%nat /\
    Forall (fun p => float64_row p /\ finite_position p) next /\
    on_frame location.
Proof.
  apply (track_frame_safe 3 sample_start marked_frame [0; 0; 0]%nat sample_noise).
  - reflexivity.
  - vm_compute. discriminate.
  - repeat constructor.
  - split; [apply marked_frame_shape | apply marked_frame_uint8].
  - split; [reflexivity|repeat constructor].
  - reflexivity.
  - repeat constructor.
  - repeat constructor.
Defined.

(** X15: [display] on at least [NUM_PARTICLES] rows with finite positions
    returns; it draws the circle at the location it was given, and asks to
    terminate exactly when both keys are Esc (27). *)
Theorem display_returns (N : nat) (ps : list particle) (location : Z * Z)
    (key1 key2 : Z) :
  (N <= length ps)%nat -> Forall finite_position ps ->
  display N ps location key1 key2 =
    Ok (location, (key1 =? 27) && (key2 =? 27)).
Proof. apply display_Ok. Qed.

Lemma display_returns_witness :
  display 3 sample_particles (1, 2) 27 27 = Ok ((1, 2), (27 =? 27) && (27 =? 27)).
Proof.
  apply (display_returns 3 sample_particles (1, 2) 27 27).
  - simpl. lia.
  - repeat constructor.
Defined.

(** X16: [display] raises when the array holds some rows but fewer than
    [NUM_PARTICLES]. *)
Theorem display_too_few_rows (N : nat) (ps : list particle)
    (location : Z * Z) (key1 key2 : Z) :
  (0 < length ps < N)%nat ->
  exists e, display N ps location key1 key2 = Raise e.
Proof.
  intros Hlen. unfold display, for_range.
  destruct (Nat.ltb_spec 0 (length ps)) as [_|]; [|lia].
  destruct (display_short ps N 0) as [e ->]; [lia|].
  exists e. reflexivity.
Qed.

Lemma display_too_few_rows_witness :
  exists e, display 5 sample_particles (1, 2) 27 27 = Raise e.
Proof.
  apply (display_too_few_rows 5 sample_particles (1, 2) 27 27).
  simpl. lia.
Defined.

(** X17: in a run of the main routine on frames of the right shape with
    uint8 channels, with draws in [0,1), indices below [NUM_PARTICLES] and
    finite noise, every circle drawn is centred in the frame. *)
Theorem main_circles_on_frame (N : nat) (rand : list particle) (v : video)
    (world : nat -> draws) :
  Z.of_nat N <= 2 ^ 32 -> rand_ok N rand -> Forall frame_ok (read v) ->
  (forall k, draws_ok N (world k)) ->
  Forall on_frame (main N rand v world).1.
Proof.
  intros HN Hrand Hv Hw. unfold main.
  apply (main_loop_safe N world HN Hw).
  - unfold initialize_particles. rewrite !length_map. apply Hrand.
  - eapply initialize_particles_float64, rand_ok_float64, Hrand.
  - apply get_frames_ok, Hv.
Qed.

Lemma main_circles_on_frame_witness :
  Forall on_frame (main 3 sample_seed sample_video sample_world).1.
Proof.
  apply (main_circles_on_frame 3 sample_seed sample_video sample_world).
  - vm_compute. discriminate.
  - exact sample_seed_ok.
  - exact sample_video_ok.
  - exact sample_world_ok.
Defined.



(** X19: a run that ends because the frames ran out has drawn one circle
    for every frame read; none if the video could not be opened. *)
Theorem main_finished_count (N : nat) (rand : list particle) (v : video)
    (world : nat -> draws) :
  (main N rand v world).2 = Finished ->
  length (main N rand v world).1 =
    if isOpened v then length (read v) else 0%nat.
Proof.
  rewrite main_unfold. intros H.
  destruct (main_loop_count N world (if isOpened v then read v else []) 0%nat
              (initialize_particles rand)) as (_ & Hfin & _).
  rewrite (Hfin H). destruct (isOpened v); reflexivity.
Qed.

Lemma main_finished_count_witness :
  length (main 3 sample_seed sample_video sample_world).1 =
    if isOpened sample_video then length (read sample_video) else 0%nat.
Proof.
  apply (main_finished_count 3 sample_seed sample_video sample_world).
  vm_compute. reflexivity.
Defined.

(** X20: a run that was stopped drew its last circle for a frame at which
    both keys were Esc, and drew one circle for each frame up to it. *)
Theorem main_stopped_after_esc (N : nat) (rand : list particle) (v : video)
    (world : nat -> draws) :
  (main N rand v world).2 = Stopped ->
  exists j,
    length (main N rand v world).1 = S j /\
    (j < length (read v))%nat /\ isOpened v = true /\
    d_key1 (world j) = 27 /\ d_key2 (world j) = 27.
Proof.
  rewrite main_unfold. intros H.
  destruct (main_loop_count N world (if isOpened v then read v else []) 0%nat
              (initialize_particles rand)) as (Hle & _ & Hst).
  destruct (Hst H) as (j & Hj & K1 & K2). exists j.
  rewrite Hj in Hle. destruct (isOpened v); cbn [length] in Hle; [|lia].
  repeat split; try assumption; lia.
Qed.

Lemma main_stopped_after_esc_witness :
  exists j,
    length (main 3 sample_seed sample_video sample_world_esc).1 = S j /\
    (j < length (read sample_video))%nat /\ isOpened sample_video = true /\
    d_key1 (sample_world_esc j) = 27 /\ d_key2 (sample_world_esc j) = 27.
Proof.
  apply (main_stopped_after_esc 3 sample_seed sample_video sample_world_esc).
  vm_compute. reflexivity.
Defined.

(** X21: from any [NUM_PARTICLES >= 1] rows of binary64 positions and a
    frame of the right shape with uint8 channels, clamping, scoring and
    weighing all return, and no weight is negative. *)
Theorem score_and_weigh (N : nat) (particles : list particle) (f : frame) :
  (0 < N)%nat -> length particles = N ->
  Forall (fun p => is_float64 (p_x p) /\ is_float64 (p_y p)) particles ->
  frame_shape f -> frame_uint8 f ->
  exists clamped errors weights,
    enforce_edges N particles = Ok clamped /\
    compute_errors N clamped f = Ok errors /\
    compute_weights clamped errors = Ok weights /\
    length weights = N /\
    Forall (fun w => (zero <=? w)%flt = true) weights.
Proof.
  intros HN Hlen Hps Hshape Hu8.
  assert (Hc : Forall in_frame (map clamp_particle particles)).
  { apply Forall_forall. intros q Hq.
    apply list_elem_of_fmap in Hq as (p & -> & Hp).
    rewrite Forall_forall in Hps. destruct (Hps p Hp).
    apply clamp_particle_in_frame; assumption. }
  destruct (compute_errors_returns N (map clamp_particle particles) f)
    as (errors & He & Hel); [rewrite length_map; exact Hlen | exact Hc | exact Hshape |].
  pose proof (compute_errors_finite _ _ _ _ Hu8 He) as Hfin.
  destruct (compute_weights_spec (map clamp_particle particles) errors)
    as (m & Hm & Hw).
  - rewrite length_map. congruence.
  - intros ->. simpl in Hel. lia.
  - exists (map clamp_particle particles), errors,
      (zip_with (weight m) (map clamp_particle particles) errors).
    split; [apply enforce_edges_map, Hlen|]. split; [exact He|].
    split; [exact Hw|]. rewrite length_zip_with, length_map.
    split; [lia|].
    rewrite Forall_forall in Hfin.
    apply Forall_forall. intros w Hin.
    apply list_elem_of_lookup_1 in Hin as [i Hi].
    apply lookup_zip_with_Some in Hi as (p & e & -> & _ & Hi).
    apply weight_nonneg; apply Hfin.
    + eapply max_elem, Hm.
    + eapply list_elem_of_lookup_2, Hi.
Qed.

Lemma score_and_weigh_witness :
  exists clamped errors weights,
    enforce_edges 3 sample_raw = Ok clamped /\
    compute_errors 3 clamped marked_frame = Ok errors /\
    compute_weights clamped errors = Ok weights /\
    length weights = 3%nat /\
    Forall (fun w => (zero <=? w)%flt = true) weights.
Proof.
  apply (score_and_weigh 3 sample_raw marked_frame).
  - lia.
  - reflexivity.
  - repeat constructor.
  - split; [reflexivity|].
    apply Forall_insert; [apply Forall_replicate; reflexivity|reflexivity].
  - apply Forall_insert; [apply Forall_replicate, Forall_replicate|
                          apply Forall_insert; [apply Forall_replicate|]];
      unfold uint8; simpl; lia.
Defined.

(** X22: when one pass of the loop body returns, it returns
    [NUM_PARTICLES] rows, whatever array it started from. *)
Theorem track_frame_length (N : nat) (particles : list particle) (f : frame)
    (drawn : list nat) (noise : list particle)
    (next : list particle) (location : Z * Z) :
  np.drawn_from N N drawn ->
  track_frame N particles f drawn noise = Ok (next, location) ->
  length next = N.
Proof.
  intros [Hdrawn _] H. unfold track_frame in H.
  apply bind_Ok in H as (clamped & _ & H).
  apply bind_Ok in H as (errors & _ & H).
  apply bind_Ok in H as (weights & _ & H).
  apply bind_Ok in H as ([generation loc] & Hr & H).
  apply bind_Ok in H as (noisy & Hn & H). injection H as <- <-.
  apply resample_Ok in Hr as (_ & Ht & _).
  apply take_Ok in Ht as [Hlen _].
  unfold apply_noise in Hn.
  destruct (Nat.eqb_spec (length noise) (length generation)).
  - injection Hn as <-. rewrite length_zip_with. lia.
  - destruct noise as [|d [|d' noise]]; try discriminate.
    injection Hn as <-. rewrite length_map. lia.
Qed.

Lemma track_frame_length_witness : length sample_next = 3%nat.
Proof.
  apply (track_frame_length 3 sample_start marked_frame [0; 0; 0]%nat
           sample_noise sample_next (100, 50)).
  - split; [reflexivity|]. repeat constructor.
  - reflexivity.
Defined.
